(** * Graph algorithms of package [discrete] (graph.go)

    A shallow embedding of [IsPath], [Tarjan], [Prim], [Kruskal],
    [Dominators] and [PostDominators], and the properties of them that
    the specification states.

    Conventions.
    - A Go [int] node identifier is a [Z]; the algorithms never do
      arithmetic on identifiers.
    - A Go slice is the list of its elements; the nil slice and the empty
      slice are both [[]] (every test in graph.go that looks at nil also
      looks at length zero, and [strongconnect] returns nil or a slice
      with at least one element).
    - [float64] is kept abstract: the algorithms only compare weights with
      [<] and only build the constant 1.
    - A Go run-time panic (index out of range, nil dereference) is the
      result [Panic]; loops and recursion whose bound is not syntactic take
      a fuel argument and answer [OutOfFuel] when it runs out. *)

From stdpp Require Import base option list sorting sets gmap fin_sets fin_maps.
From Stdlib Require Import ZArith Lia.

Local Open Scope Z_scope.

(** ** Results of code that may panic *)

Inductive result (A : Type) : Type :=
| Ok (a : A)
| Panic
| OutOfFuel.
Arguments Ok {A} a.
Arguments Panic {A}.
Arguments OutOfFuel {A}.

Definition bind {A B} (r : result A) (k : A → result B) : result B :=
  match r with
  | Ok a => k a
  | Panic => Panic
  | OutOfFuel => OutOfFuel
  end.

Notation "x ←! r ; k" := (bind r (λ x, k))
  (at level 20, r at level 100, k at level 200, right associativity,
   format "x  ←!  r ;  '/' k").

(** ** The graph capability interfaces *)

Section Graphs.
Context {float64 : Type}.

(** [type Graph interface]; [Coster_Cost] is what the type assertion
    [graph.(Coster)] finds: the graph's [Cost] method when the graph
    implements [Coster], nothing otherwise. *)
Record Graph : Type := {
  Successors : Z → list Z;
  IsSuccessor : Z → Z → bool;
  Predecessors : Z → list Z;
  IsPredecessor : Z → Z → bool;
  IsAdjacent : Z → Z → bool;
  NodeExists : Z → bool;
  Degree : Z → Z;
  EdgeList : list (Z * Z);
  NodeList : list Z;
  IsDirected : bool;
  Coster_Cost : option (Z → Z → float64)
}.

(** [type WeightedEdge struct] *)
Record WeightedEdge : Type := {
  Edge : Z * Z;
  Weight : float64
}.

(** ** [IsPath] *)

(** The loop [for i := 0; i < len(path)-1; i++] of [IsPath], started at
    index [i] on the remaining suffix [path]: the index at which it
    returns false, or [None] when it runs to the end. *)
Fixpoint IsPath_loop (graph : Graph) (path : list Z) (i : nat) : option nat :=
  match path with
  | a :: ((b :: _) as rest) =>
      if IsSuccessor graph a b then IsPath_loop graph rest (S i) else Some i
  | _ => None
  end.

Definition IsPath (path : list Z) (graph : Graph) : bool :=
  match path with
  | [] => true
  | [n] => NodeExists graph n
  | _ => match IsPath_loop graph path 0 with
         | Some _ => false
         | None => true
         end
  end.

(** ** [Tarjan] *)

(** The variables that the closure [strongconnect] captures.  [vStack] is
    the [Stack] with its top first and [stackSet] the [Set] kept beside
    it.  [pushes] and [pops] are ghost fields: they log, latest first,
    the arguments of [vStack.Push] and the results of [vStack.Pop]; no
    branch reads them. *)
Record tarjan_state : Type := {
  index : Z;
  vStack : list Z;
  stackSet : gset Z;
  lowlinks : gmap Z Z;
  indices : gmap Z Z;
  pushes : list Z;
  pops : list Z
}.

(** [m[k]] on a Go [map[int]int]: the zero value when [k] is absent. *)
Definition map_get (m : gmap Z Z) (k : Z) : Z := default 0 (m !! k).

(** [int(math.Min(float64(a), float64(b)))].  The operands are discovery
    indices, counted up from 0 one per visited node, so the conversions
    are exact and the result is the smaller integer. *)
Definition int_min (a b : Z) : Z := Z.min a b.

(** [lowlinks[node] = int(math.Min(lowlinks[node], lowlinks[succ]))] *)
Definition tighten (node succ : Z) (st : tarjan_state) : tarjan_state :=
  {| index := index st;
     vStack := vStack st;
     stackSet := stackSet st;
     lowlinks := <[node := int_min (map_get (lowlinks st) node)
                                   (map_get (lowlinks st) succ)]> (lowlinks st);
     indices := indices st;
     pushes := pushes st;
     pops := pops st |}.

(** The first five statements of [strongconnect]. *)
Definition discover (node : Z) (st : tarjan_state) : tarjan_state :=
  {| index := index st + 1;
     vStack := node :: vStack st;
     stackSet := {[node]} ∪ stackSet st;
     lowlinks := <[node := index st]> (lowlinks st);
     indices := <[node := index st]> (indices st);
     pushes := node :: pushes st;
     pops := pops st |}.

(** [for _, succ := range graph.Successors(node)], with [rec] the
    recursive call, whose returned slice the loop drops. *)
Fixpoint strongconnect_succs
    (rec : Z → tarjan_state → result (list Z * tarjan_state))
    (node : Z) (succs : list Z) (st : tarjan_state) : result tarjan_state :=
  match succs with
  | [] => Ok st
  | succ :: rest =>
      match indices st !! succ with
      | None =>
          r ←! rec succ st;
          strongconnect_succs rec node rest (tighten node succ r.2)
      | Some _ =>
          if decide (succ ∈ stackSet st)
          then strongconnect_succs rec node rest (tighten node succ st)
          else strongconnect_succs rec node rest st
      end
  end.

(** The loop [for { v, _ := vStack.Pop(); ... }].  Popping the empty stack
    yields a nil interface value, and [v.(int)] panics on it. *)
Fixpoint strongconnect_pop (node : Z) (stack : list Z) (sset : gset Z)
    (log scc : list Z) : result (list Z * (list Z * gset Z * list Z)) :=
  match stack with
  | [] => Panic
  | v :: stack' =>
      let sset' := sset ∖ {[v]} in
      let scc' := scc ++ [v] in
      if decide (v = node) then Ok (scc', (stack', sset', v :: log))
      else strongconnect_pop node stack' sset' (v :: log) scc'
  end.

Fixpoint strongconnect (fuel : nat) (graph : Graph) (node : Z)
    (st : tarjan_state) : result (list Z * tarjan_state) :=
  match fuel with
  | O => OutOfFuel
  | S fuel' =>
      st1 ←! strongconnect_succs (strongconnect fuel' graph) node
               (Successors graph node) (discover node st);
      if decide (map_get (lowlinks st1) node = map_get (indices st1) node)
      then
        r ←! strongconnect_pop node (vStack st1) (stackSet st1) (pops st1) [];
        Ok (r.1, {| index := index st1;
                    vStack := r.2.1.1;
                    stackSet := r.2.1.2;
                    lowlinks := lowlinks st1;
                    indices := indices st1;
                    pushes := pushes st1;
                    pops := r.2.2 |})
      else Ok ([], st1)
  end.

Definition tarjan_init : tarjan_state :=
  {| index := 0; vStack := []; stackSet := ∅; lowlinks := ∅; indices := ∅;
     pushes := []; pops := [] |}.

(** [for _, n := range nodes] of [Tarjan]. *)
Fixpoint Tarjan_loop (fuel : nat) (graph : Graph) (nodes : list Z)
    (st : tarjan_state) (sccs : list (list Z))
    : result (list (list Z) * tarjan_state) :=
  match nodes with
  | [] => Ok (sccs, st)
  | n :: rest =>
      match indices st !! n with
      | None =>
          r ←! strongconnect fuel graph n st;
          Tarjan_loop fuel graph rest r.2 (sccs ++ [r.1])
      | Some _ => Tarjan_loop fuel graph rest st sccs
      end
  end.

(** [Tarjan] with the final values of its local variables. *)
Definition Tarjan_run (fuel : nat) (graph : Graph)
    : result (list (list Z) * tarjan_state) :=
  Tarjan_loop fuel graph (NodeList graph) tarjan_init [].

Definition Tarjan (fuel : nat) (graph : Graph) : result (list (list Z)) :=
  r ←! Tarjan_run fuel graph; Ok r.1.

End Graphs.
Arguments Graph : clear implicits.
Arguments WeightedEdge : clear implicits.

(** ** Collaborators that graph.go uses but does not define *)

(** Modelled from the spec: the generic set primitive ([NewSet], [Add],
    [Remove], [Contains], [Cardinality], [Copy], [Union], [Intersection],
    [Equal]) is not in graph.go.  A [*Set] of node identifiers is a finite
    set: [∅], [{[x]} ∪ s], [s ∖ {[x]}], [x ∈ s], [size s], assignment,
    [s1 ∪ s2], [s1 ∩ s2] and [=].  The [Stack] primitive ([Push], [Pop]) is
    a list with its top first. *)
Abbreviation NodeSet := (gset Z).

(** Modelled from the spec: the concrete [MutableGraph] that callers pass
    as [dst] is not in graph.go.  This reference destination keeps what
    the interface comments promise: [AddNode] adds the node and every
    listed successor with the edges to them, [AddEdge] creates [node2]
    when absent, an undirected graph adds the reciprocal edge itself,
    [SetEdgeCost] records a cost for an edge (both directions when
    undirected), [EmptyGraph] clears all nodes and edges. *)
Module Dst.
Section Dst.
Context {float64 : Type}.

Record t : Type := {
  nodes : gset Z;
  edges : gset (Z * Z);
  costs : gmap (Z * Z) float64;
  directed : bool
}.

Definition NodeExists (g : t) (node : Z) : bool := bool_decide (node ∈ nodes g).

Definition EmptyGraph (g : t) : t :=
  {| nodes := ∅; edges := ∅; costs := ∅; directed := directed g |}.

Definition SetDirected (b : bool) (g : t) : t :=
  {| nodes := nodes g; edges := edges g; costs := costs g; directed := b |}.

Definition AddEdge (node1 node2 : Z) (g : t) : t :=
  {| nodes := {[node2]} ∪ nodes g;
     edges := if directed g then {[(node1, node2)]} ∪ edges g
              else {[(node1, node2); (node2, node1)]} ∪ edges g;
     costs := costs g;
     directed := directed g |}.

Definition AddNode (id : Z) (successors : list Z) (g : t) : t :=
  foldl (λ g' s, AddEdge id s g')
        {| nodes := {[id]} ∪ nodes g; edges := edges g; costs := costs g;
           directed := directed g |}
        successors.

Definition SetEdgeCost (node1 node2 : Z) (cost : float64) (g : t) : t :=
  {| nodes := nodes g;
     edges := edges g;
     costs := if directed g then <[(node1, node2) := cost]> (costs g)
              else <[(node2, node1) := cost]> (<[(node1, node2) := cost]> (costs g));
     directed := directed g |}.

End Dst.
Arguments t : clear implicits.
End Dst.

(** Modelled from the spec: the disjoint-set primitive ([NewDisjointSet],
    [MakeSet], [Find], [Union]) is not in graph.go.  The structure maps
    every identifier given to [MakeSet] to the representative of its set;
    [Find] of an identifier never given to [MakeSet] finds nothing, and
    [Union] with a representative that is not there changes nothing (the
    spec is silent on both). *)
Module DisjointSet.

Definition t : Type := gmap Z Z.

Definition NewDisjointSet : t := ∅.

Definition MakeSet (el : Z) (ds : t) : t :=
  match ds !! el with
  | Some _ => ds
  | None => <[el := el]> ds
  end.

Definition Find (ds : t) (el : Z) : option Z := ds !! el.

Definition Union (s1 s2 : option Z) (ds : t) : t :=
  match s1, s2 with
  | Some r1, Some r2 => (λ r, if decide (r = r2) then r1 else r) <$> ds
  | _, _ => ds
  end.

End DisjointSet.

(** ** Minimum spanning trees: [Prim] and [Kruskal] *)

Section MST.
Context {float64 : Type}.

(** [a < b] on [float64]. *)
Variable float64_lt : float64 → float64 → bool.

(** The [float64] constant 1. *)
Variable float64_one : float64.

(** [func (el edgeSorter) Less(i, j int) bool], on the elements at [i]
    and [j]. *)
Definition edgeSorter_Less (a b : WeightedEdge float64) : bool :=
  float64_lt (Weight a) (Weight b).

(** [sort.Sort] of the Go standard library, applied to a slice through
    its [Less]; what the proofs need of it is stated where it is needed. *)
Variable sort_Sort :
  (WeightedEdge float64 → WeightedEdge float64 → bool) →
  list (WeightedEdge float64) → list (WeightedEdge float64).

(** Modelled from the spec: [UniformCost] is defined in another file of
    the package; the spec gives it as "every edge weight = 1". *)
Definition UniformCost (node1 node2 : Z) : float64 := float64_one.

(** The scan [for _, edge := range edgeList] inside the loop of [Prim]. *)
Fixpoint Prim_scan (Cost : Z → Z → float64) (dst : Dst.t float64)
    (remainingNodes : NodeSet) (edgeList : list (Z * Z))
    : list (WeightedEdge float64) :=
  match edgeList with
  | [] => []
  | edge :: rest =>
      if Dst.NodeExists dst edge.1 && bool_decide (edge.2 ∈ remainingNodes)
      then {| Edge := edge; Weight := Cost edge.1 edge.2 |}
             :: Prim_scan Cost dst remainingNodes rest
      else Prim_scan Cost dst remainingNodes rest
  end.

(** The statements that put an edge into [dst], the same in [Prim] and
    [Kruskal]. *)
Definition add_to_dst (myEdge : WeightedEdge float64) (dst : Dst.t float64)
    : Dst.t float64 :=
  let dst1 :=
    if negb (Dst.NodeExists dst (Edge myEdge).1)
    then Dst.AddNode (Edge myEdge).1 [(Edge myEdge).2] dst
    else Dst.AddEdge (Edge myEdge).1 (Edge myEdge).2 dst in
  Dst.SetEdgeCost (Edge myEdge).1 (Edge myEdge).2 (Weight myEdge) dst1.

(** [for remainingNodes.Cardinality() != 0 { ... }]; [edgeWeights[0]] on
    an empty slice is an index-out-of-range panic. *)
Fixpoint Prim_loop (fuel : nat) (Cost : Z → Z → float64)
    (edgeList : list (Z * Z)) (dst : Dst.t float64)
    (remainingNodes : NodeSet) : result (Dst.t float64) :=
  if decide (size remainingNodes = 0%nat) then Ok dst
  else
    match fuel with
    | O => OutOfFuel
    | S fuel' =>
        let edgeWeights := Prim_scan Cost dst remainingNodes edgeList in
        match sort_Sort edgeSorter_Less edgeWeights with
        | [] => Panic
        | myEdge :: _ =>
            Prim_loop fuel' Cost edgeList (add_to_dst myEdge dst)
                      (remainingNodes ∖ {[(Edge myEdge).2]})
        end
    end.

Definition Prim (fuel : nat) (dst : Dst.t float64) (graph : Graph float64)
    (Cost : option (Z → Z → float64)) : result (Dst.t float64) :=
  let Cost :=
    match Cost with
    | Some c => c
    | None =>
        match Coster_Cost graph with
        | Some c => c
        | None => UniformCost
        end
    end in
  let dst := Dst.EmptyGraph dst in
  let dst := Dst.SetDirected false dst in
  let nlist := NodeList graph in
  match nlist with
  | [] => Ok dst
  | n0 :: rest =>
      let dst := Dst.AddNode n0 [] dst in
      let remainingNodes := foldl (λ s node, {[node]} ∪ s) (∅ : NodeSet) rest in
      Prim_loop fuel Cost (EdgeList graph) dst remainingNodes
  end.

(** One round of [for _, edge := range edgeWeights] in [Kruskal]. *)
Definition Kruskal_step (acc : DisjointSet.t * Dst.t float64)
    (edge : WeightedEdge float64) : DisjointSet.t * Dst.t float64 :=
  let s1 := DisjointSet.Find acc.1 (Edge edge).1 in
  let s2 := DisjointSet.Find acc.1 (Edge edge).2 in
  if decide (s1 ≠ s2)
  then (DisjointSet.Union s1 s2 acc.1, add_to_dst edge acc.2)
  else acc.

(** [edgeWeights] of [Kruskal] after [sort.Sort]. *)
Definition Kruskal_sorted (Cost : Z → Z → float64) (graph : Graph float64)
    : list (WeightedEdge float64) :=
  sort_Sort edgeSorter_Less
    ((λ edge, {| Edge := edge; Weight := Cost edge.1 edge.2 |})
       <$> EdgeList graph).

Definition Kruskal (dst : Dst.t float64) (graph : Graph float64)
    (Cost : option (Z → Z → float64)) : Dst.t float64 :=
  let Cost :=
    match Cost with
    | Some c => c
    | None =>
        match Coster_Cost graph with
        | Some c => c
        | None => UniformCost
        end
    end in
  let dst := Dst.EmptyGraph dst in
  let dst := Dst.SetDirected false dst in
  let edgeWeights := Kruskal_sorted Cost graph in
  let ds := foldl (λ ds node, DisjointSet.MakeSet node ds)
                  DisjointSet.NewDisjointSet (NodeList graph) in
  (foldl Kruskal_step (ds, dst) edgeWeights).2.

End MST.

(** ** [edgeSorter]: the slice of weighted edges as [sort.Sort] sees it *)

Section EdgeSorter.
Context {float64 : Type}.
Variable float64_lt : float64 → float64 → bool.

(** [el[i]] on a slice: a run-time panic when [i] is out of range. *)
Definition slice_at {A : Type} (el : list A) (i : Z) : result A :=
  if decide (0 ≤ i < Z.of_nat (length el))
  then match el !! Z.to_nat i with
       | Some x => Ok x
       | None => Panic
       end
  else Panic.

(** [func (el edgeSorter) Len() int] *)
Definition edgeSorter_Len (el : list (WeightedEdge float64)) : Z :=
  Z.of_nat (length el).

(** [func (el edgeSorter) Less(i, j int) bool], on the indices:
    [el[i].Weight < el[j].Weight]. *)
Definition edgeSorter_Less_at (el : list (WeightedEdge float64)) (i j : Z)
    : result bool :=
  a ←! slice_at el i;
  b ←! slice_at el j;
  Ok (edgeSorter_Less float64_lt a b).

(** [func (el edgeSorter) Swap(i, j int)]: [el[i], el[j] = el[j], el[i]]
    reads [el[j]] and [el[i]] before it writes [el[i]] and then [el[j]].
    The slice after the call is the result. *)
Definition edgeSorter_Swap (el : list (WeightedEdge float64)) (i j : Z)
    : result (list (WeightedEdge float64)) :=
  b ←! slice_at el j;
  a ←! slice_at el i;
  Ok (<[Z.to_nat j := a]> (<[Z.to_nat i := b]> el)).

End EdgeSorter.

(** ** Control flow graphs: [Dominators] and [PostDominators] *)

Section Dom.
Context {float64 : Type}.

(** [for _, node := range nlist { allNodes.Add(node) }] *)
Definition collect_nodes (nlist : list Z) : NodeSet :=
  foldl (λ allNodes node, {[node]} ∪ allNodes) ∅ nlist.

(** The loop that fills [dominators] before the fixed-point loop. *)
Definition dom_init (start : Z) (allNodes : NodeSet) (nlist : list Z)
    : gmap Z NodeSet :=
  foldl (λ dominators node,
           if decide (node = start)
           then <[node := {[start]} ∪ ∅]> dominators
           else <[node := allNodes]> dominators)
        ∅ nlist.

(** [dominators[k]] as the argument of [Copy] or [Intersection]: for an
    absent key the map yields a nil [*Set], on which the spec gives the
    set operations no meaning; the result is [Panic]. *)
Definition dom_get (dominators : gmap Z NodeSet) (k : Z) : result NodeSet :=
  match dominators !! k with
  | Some s => Ok s
  | None => Panic
  end.

(** [for _, pred := range preds[1:] { tmp.Intersection(tmp, dominators[pred]) }] *)
Fixpoint dom_meet (dominators : gmap Z NodeSet) (tmp : NodeSet)
    (rest : list Z) : result NodeSet :=
  match rest with
  | [] => Ok tmp
  | pred :: rest' =>
      s ←! dom_get dominators pred;
      dom_meet dominators (tmp ∩ s) rest'
  end.

(** The body of [for _, node := range nlist] from [preds] on, the same
    in both functions; [Equal(dom, dominators[node])] with an absent key
    compares against a nil set and panics like the other uses. *)
Definition dom_update (node : Z) (preds : list Z)
    (acc : gmap Z NodeSet * bool) : result (gmap Z NodeSet * bool) :=
  match preds with
  | [] => Ok acc
  | p0 :: rest =>
      s0 ←! dom_get acc.1 p0;
      tmp ←! dom_meet acc.1 s0 rest;
      let dom := ({[node]} ∪ ∅) ∪ tmp in
      old ←! dom_get acc.1 node;
      if decide (dom ≠ old) then Ok (<[node := dom]> acc.1, true)
      else Ok acc
  end.

(** One pass [for _, node := range nlist] of [Dominators]; [acc] holds
    [dominators] and [somethingChanged]. *)
Fixpoint Dominators_pass (start : Z) (graph : Graph float64)
    (nlist : list Z) (acc : gmap Z NodeSet * bool)
    : result (gmap Z NodeSet * bool) :=
  match nlist with
  | [] => Ok acc
  | node :: rest =>
      if decide (node = start) then Dominators_pass start graph rest acc
      else
        acc' ←! dom_update node (Predecessors graph node) acc;
        Dominators_pass start graph rest acc'
  end.

(** [for somethingChanged := true; somethingChanged; { ... }] *)
Fixpoint Dominators_loop (fuel : nat) (start : Z) (graph : Graph float64)
    (nlist : list Z) (dominators : gmap Z NodeSet)
    : result (gmap Z NodeSet) :=
  match fuel with
  | O => OutOfFuel
  | S fuel' =>
      acc ←! Dominators_pass start graph nlist (dominators, false);
      if acc.2 then Dominators_loop fuel' start graph nlist acc.1
      else Ok acc.1
  end.

Definition Dominators (fuel : nat) (start : Z) (graph : Graph float64)
    : result (gmap Z NodeSet) :=
  let nlist := NodeList graph in
  let allNodes := collect_nodes nlist in
  Dominators_loop fuel start graph nlist (dom_init start allNodes nlist).

(** One pass of [PostDominators]. *)
Fixpoint PostDominators_pass (end_ : Z) (graph : Graph float64)
    (nlist : list Z) (acc : gmap Z NodeSet * bool)
    : result (gmap Z NodeSet * bool) :=
  match nlist with
  | [] => Ok acc
  | node :: rest =>
      if decide (node = end_) then PostDominators_pass end_ graph rest acc
      else
        acc' ←! dom_update node (Successors graph node) acc;
        PostDominators_pass end_ graph rest acc'
  end.

Fixpoint PostDominators_loop (fuel : nat) (end_ : Z) (graph : Graph float64)
    (nlist : list Z) (dominators : gmap Z NodeSet)
    : result (gmap Z NodeSet) :=
  match fuel with
  | O => OutOfFuel
  | S fuel' =>
      acc ←! PostDominators_pass end_ graph nlist (dominators, false);
      if acc.2 then PostDominators_loop fuel' end_ graph nlist acc.1
      else Ok acc.1
  end.

Definition PostDominators (fuel : nat) (end_ : Z) (graph : Graph float64)
    : result (gmap Z NodeSet) :=
  let nlist := NodeList graph in
  let allNodes := collect_nodes nlist in
  PostDominators_loop fuel end_ graph nlist (dom_init end_ allNodes nlist).

(** The graph with every edge turned around: successors and predecessors
    exchanged, each pair of the edge list swapped. *)
Definition reverse_graph (graph : Graph float64) : Graph float64 :=
  {| Successors := Predecessors graph;
     IsSuccessor := IsPredecessor graph;
     Predecessors := Successors graph;
     IsPredecessor := IsSuccessor graph;
     IsAdjacent := IsAdjacent graph;
     NodeExists := NodeExists graph;
     Degree := Degree graph;
     EdgeList := (λ e, (e.2, e.1)) <$> EdgeList graph;
     NodeList := NodeList graph;
     IsDirected := IsDirected graph;
     Coster_Cost := (λ c a b, c b a) <$> Coster_Cost graph |}.

End Dom.

(** ** A concrete graph for the examples *)

(** Modelled from the spec: no implementation of [Graph] is in graph.go.
    [graph_of nodes edges cost] answers every query of the interface from
    a node list and an edge list, as the comments of the interface ask;
    the graph is undirected when the edge list holds every edge in both
    directions. *)
Definition graph_of {float64 : Type} (nodes : list Z) (edges : list (Z * Z))
    (cost : option (Z → Z → float64)) : Graph float64 :=
  {| Successors := λ n, (λ e, e.2) <$> filter (λ e, e.1 = n) edges;
     IsSuccessor := λ a b, bool_decide ((a, b) ∈ edges);
     Predecessors := λ n, (λ e, e.1) <$> filter (λ e, e.2 = n) edges;
     IsPredecessor := λ a b, bool_decide ((b, a) ∈ edges);
     IsAdjacent := λ a b, bool_decide ((a, b) ∈ edges ∨ (b, a) ∈ edges);
     NodeExists := λ n, bool_decide (n ∈ nodes);
     Degree := λ n,
       Z.of_nat (length (filter (λ e, e.1 = n) edges)
                 + length (filter (λ e, e.2 = n) edges));
     EdgeList := edges;
     NodeList := nodes;
     IsDirected := negb (forallb (λ e, bool_decide ((e.2, e.1) ∈ edges)) edges);
     Coster_Cost := cost |}.

(** ** Vocabulary of the statements *)

Section Vocabulary.
Context {float64 : Type}.

(** [i] is the first index of [path] whose pair [path[i], path[i+1]]
    is not an edge. *)
Definition first_violation (graph : Graph float64) (path : list Z) (i : nat)
    : Prop :=
  (∃ a b, path !! i = Some a ∧ path !! S i = Some b
          ∧ IsSuccessor graph a b = false)
  ∧ ∀ j a b, (j < i)%nat → path !! j = Some a → path !! S j = Some b →
             IsSuccessor graph a b = true.

(** [graph] with its [Coster] capability replaced: [Some c] makes the
    type assertion [graph.(Coster)] succeed with [Cost = c], [None] makes
    it fail. *)
Definition with_Coster (graph : Graph float64)
    (cost : option (Z → Z → float64)) : Graph float64 :=
  {| Successors := Successors graph;
     IsSuccessor := IsSuccessor graph;
     Predecessors := Predecessors graph;
     IsPredecessor := IsPredecessor graph;
     IsAdjacent := IsAdjacent graph;
     NodeExists := NodeExists graph;
     Degree := Degree graph;
     EdgeList := EdgeList graph;
     NodeList := NodeList graph;
     IsDirected := IsDirected graph;
     Coster_Cost := cost |}.

End Vocabulary.

(** *** Vocabulary for [Tarjan] *)

Section Tarjan_vocabulary.
Context {float64 : Type} (graph : Graph float64).

(** The successors of a listed node are listed nodes. *)
Definition succs_listed : Prop :=
  ∀ node succ, node ∈ NodeList graph → succ ∈ Successors graph node →
               succ ∈ NodeList graph.

(** A finite set of nodes that the traversal cannot leave: it holds the
    listed nodes and the successors of its members. *)
Variable U : NodeSet.

Definition successor_closed : Prop :=
  (∀ node, node ∈ NodeList graph → node ∈ U)
  ∧ ∀ node succ, node ∈ U → succ ∈ Successors graph node → succ ∈ U.

(** [v] has been given a discovery index. *)
Definition indexed (st : tarjan_state) (v : Z) : Prop :=
  is_Some (indices st !! v).

(** The number of nodes of [U] without a discovery index. *)
Definition unvisited (st : tarjan_state) : nat :=
  size (U ∖ dom (indices st)).

(** What every call of [strongconnect] finds and leaves behind.  [B] is
    a discovery index below which no low-link of a node on the stack
    lies. *)
Record tarjan_inv (B : Z) (st : tarjan_state) : Prop := {
  ti_bound : B ≤ index st;
  ti_set : ∀ v, v ∈ stackSet st ↔ v ∈ vStack st;
  ti_nodup : NoDup (vStack st);
  ti_stack : ∀ v, v ∈ vStack st → indexed st v;
  ti_low : ∀ v, v ∈ vStack st → B ≤ map_get (lowlinks st) v;
  ti_le : ∀ v, indexed st v →
               map_get (lowlinks st) v ≤ map_get (indices st) v;
  ti_pushes_nodup : NoDup (pushes st);
  ti_pushes : ∀ v, v ∈ pushes st ↔ indexed st v;
  ti_pops_nodup : NoDup (pops st);
  ti_pops : ∀ v, v ∈ pops st → indexed st v ∧ v ∉ vStack st;
  ti_listed : ∀ v, indexed st v → v ∈ U
}.

(** [st] comes after [st0]: the stack has grown by nodes that had no
    index in [st0], and the indices given in [st0] are as they were. *)
Record tarjan_ext (st0 st : tarjan_state) : Prop := {
  te_stack : ∃ s', vStack st = s' ++ vStack st0
                   ∧ ∀ v, v ∈ s' → indices st0 !! v = None;
  te_indices : ∀ v, indexed st0 v → indices st !! v = indices st0 !! v;
  te_index : index st0 ≤ index st
}.

(** What a call [strongconnect(node)] made in state [st] has done when
    it returns [scc] in state [st']: either it returns nil, [node] stays
    on the stack and its low-link is not its index; or the stack is what
    it was, the low-link of [node] is its index, and [scc] is a list
    without repetition that ends in [node] and holds nodes that got
    their index during the call. *)
Definition strongconnect_post (B node : Z) (st : tarjan_state)
    (scc : list Z) (st' : tarjan_state) : Prop :=
  tarjan_inv B st' ∧ tarjan_ext st st'
  ∧ indices st' !! node = Some (index st)
  ∧ B ≤ map_get (lowlinks st') node
  ∧ ((scc = [] ∧ node ∈ vStack st' ∧ map_get (lowlinks st') node ≠ index st)
     ∨ (vStack st' = vStack st ∧ map_get (lowlinks st') node = index st
        ∧ (∃ s', scc = s' ++ [node]) ∧ NoDup scc
        ∧ ∀ v, v ∈ scc → indices st !! v = None ∧ indexed st' v)).

(** With [fuel], every call of [strongconnect] on a node of [U] without
    index returns, provided no more than [fuel] nodes of [U] are without
    index. *)
Definition strongconnect_spec (fuel : nat) : Prop :=
  ∀ node st B,
    tarjan_inv B st → indices st !! node = None → node ∈ U →
    (unvisited st ≤ fuel)%nat →
    ∃ scc st', strongconnect fuel graph node st = Ok (scc, st')
               ∧ strongconnect_post B node st scc st'.

(** What the loop of [Tarjan] keeps true of its state and of [sccs]:
    the stack is empty between top-level calls, and the components
    gathered so far are non-nil and hold, each once, nodes that have an
    index. *)
Definition driver_inv (st : tarjan_state) (sccs : list (list Z)) : Prop :=
  tarjan_inv (index st) st ∧ vStack st = []
  ∧ Forall (λ scc, scc ≠ []) sccs
  ∧ NoDup (concat sccs)
  ∧ ∀ v, v ∈ concat sccs → indexed st v.

(** The states in which the loop of [Tarjan] stands before a node of the
    node list, with the nodes still to come. *)
Inductive driver_at (fuel : nat) : list Z → tarjan_state → Prop :=
| driver_at_init : driver_at fuel (NodeList graph) tarjan_init
| driver_at_skip n rest st :
    driver_at fuel (n :: rest) st → indexed st n → driver_at fuel rest st
| driver_at_call n rest st scc st' :
    driver_at fuel (n :: rest) st → indices st !! n = None →
    strongconnect fuel graph n st = Ok (scc, st') →
    driver_at fuel rest st'.

End Tarjan_vocabulary.

(** *** Vocabulary for the dominator maps *)

Section Dom_vocabulary.
Context {float64 : Type}.

(** The predecessors of a listed node are listed nodes. *)
Definition preds_listed (graph : Graph float64) : Prop :=
  ∀ node pred, node ∈ NodeList graph → pred ∈ Predecessors graph node →
               pred ∈ NodeList graph.

(** The set a map holds for [k], empty when it holds none. *)
Definition look (d : gmap Z NodeSet) (k : Z) : NodeSet := default ∅ (d !! k).

(** [d'] has the keys of [d], and under each key a subset of what [d]
    has. *)
Definition shrinks (d' d : gmap Z NodeSet) : Prop :=
  ∀ node, match d' !! node, d !! node with
          | Some s', Some s => s' ⊆ s
          | None, None => True
          | _, _ => False
          end.

(** The maps that [dominators] holds at the head of the fixed-point loop
    of [Dominators], and after its last pass. *)
Inductive dom_reachable (start : Z) (graph : Graph float64)
    : gmap Z NodeSet → Prop :=
| dom_reachable_init :
    dom_reachable start graph
      (dom_init start (collect_nodes (NodeList graph)) (NodeList graph))
| dom_reachable_pass d d' c :
    dom_reachable start graph d →
    Dominators_pass start graph (NodeList graph) (d, false) = Ok (d', c) →
    dom_reachable start graph d'.

(** The sizes of the sets of the listed nodes, added up. *)
Definition dom_potential (nlist : list Z) (d : gmap Z NodeSet) : nat :=
  sum_list_with (λ n, size (look d n)) nlist.

(** [tmp] after the loop over [preds[1:]]. *)
Definition meet_all (d : gmap Z NodeSet) (tmp : NodeSet) (rest : list Z)
    : NodeSet :=
  foldl (λ t p, t ∩ look d p) tmp rest.

(** The set [dom] that one round computes for [node]; the set the node
    has when it has no predecessor and the round is skipped. *)
Definition dom_new (d : gmap Z NodeSet) (node : Z) (preds : list Z) : NodeSet :=
  match preds with
  | [] => look d node
  | p0 :: rest => ({[node]} ∪ ∅) ∪ meet_all d (look d p0) rest
  end.

(** What the fixed-point loop keeps true of [dominators]. *)
Record dom_inv (start : Z) (graph : Graph float64) (d : gmap Z NodeSet)
    : Prop := {
  inv_keys : ∀ n, is_Some (d !! n) ↔ n ∈ NodeList graph;
  inv_start : start ∈ NodeList graph → d !! start = Some {[start]};
  inv_post : ∀ n, n ∈ NodeList graph → n ≠ start →
                  dom_new d n (Predecessors graph n) ⊆ look d n
}.

End Dom_vocabulary.

(** *** What [sort.Sort] promises, and a sort that keeps the promise *)

Section Sorting.
Context {A : Type} (less : A → A → bool).

(** The documentation of [sort.Sort]: it "sorts data in ascending order
    as determined by the Less method" and "is not guaranteed to be
    stable".  The result holds the elements of the input, and no element
    is less than one that comes before it. *)
Definition sort_contract (sort : list A → list A) : Prop :=
  ∀ l, sort l ≡ₚ l ∧ StronglySorted (λ a b, less b a = false) (sort l).

(** Insertion of [x] in front of the elements that are not smaller. *)
Fixpoint insert_before (x : A) (l : list A) : list A :=
  match l with
  | [] => [x]
  | y :: l' => if less y x then y :: insert_before x l' else x :: l
  end.

(** Elements are inserted from the last to the first, each in front of
    the elements that are not smaller, so ties keep the input order. *)
Definition stable_sort (l : list A) : list A := foldr insert_before [] l.

End Sorting.

(** *** Vocabulary for the minimum spanning trees *)

Section MST_vocabulary.
Context {float64 : Type}.
Variable float64_lt : float64 → float64 → bool.
Variable sort_Sort :
  (WeightedEdge float64 → WeightedEdge float64 → bool) →
  list (WeightedEdge float64) → list (WeightedEdge float64).

(** A graph as the interface comments describe it: the node list names
    every node once, and the edges of the edge list join listed nodes. *)
Definition graph_wf (graph : Graph float64) : Prop :=
  NoDup (NodeList graph)
  ∧ ∀ e, e ∈ EdgeList graph → e.1 ∈ NodeList graph ∧ e.2 ∈ NodeList graph.

(** [b] is reached from [a] along edges of the edge list. *)
Definition reach (graph : Graph float64) : Z → Z → Prop :=
  rtc (λ a b, (a, b) ∈ EdgeList graph).

(** Every listed node is reached from every listed node.  For an
    undirected graph, whose edge list holds both directions of every
    edge, this is connectedness. *)
Definition connected (graph : Graph float64) : Prop :=
  ∀ a b, a ∈ NodeList graph → b ∈ NodeList graph → reach graph a b.

(** The edge list holds every edge in both directions, as the interface
    asks of an undirected graph. *)
Definition undirected (graph : Graph float64) : Prop :=
  ∀ a b, (a, b) ∈ EdgeList graph → (b, a) ∈ EdgeList graph.

(** Every listed node is joined to every listed node by a chain of
    edges, each taken in either direction. *)
Definition weakly_connected (graph : Graph float64) : Prop :=
  ∀ a b, a ∈ NodeList graph → b ∈ NodeList graph →
         rtc (λ x y, (x, y) ∈ EdgeList graph ∨ (y, x) ∈ EdgeList graph) a b.

(** [dst] as [Prim] has it when it enters its loop. *)
Definition Prim_dst0 (n0 : Z) : Dst.t float64 :=
  Dst.AddNode n0 []
    (Dst.SetDirected false
       (Dst.EmptyGraph {| Dst.nodes := ∅; Dst.edges := ∅; Dst.costs := ∅;
                          Dst.directed := false |})).

(** The values of [dst] and [remainingNodes] at the head of the loop of
    [Prim], round after round. *)
Inductive Prim_reachable (Cost : Z → Z → float64) (graph : Graph float64)
    : Dst.t float64 → NodeSet → Prop :=
| Prim_reachable_init n0 rest :
    NodeList graph = n0 :: rest →
    Prim_reachable Cost graph (Prim_dst0 n0)
      (foldl (λ s node, {[node]} ∪ s) ∅ rest)
| Prim_reachable_round dst remainingNodes myEdge others :
    Prim_reachable Cost graph dst remainingNodes →
    size remainingNodes ≠ 0%nat →
    sort_Sort (edgeSorter_Less float64_lt)
      (Prim_scan Cost dst remainingNodes (EdgeList graph)) = myEdge :: others →
    Prim_reachable Cost graph (add_to_dst myEdge dst)
      (remainingNodes ∖ {[(Edge myEdge).2]}).

(** The cost function that the precedence rule names: the argument when
    it is not nil, else the [Cost] of the graph when the graph is a
    [Coster], else the uniform cost [one]. *)
Definition resolved_cost (one : float64) (graph : Graph float64)
    (Cost : option (Z → Z → float64)) : Z → Z → float64 :=
  default (default (λ _ _, one) (Coster_Cost graph)) Cost.

(** Every cost that [dst] records for an edge is the value of [cost] on
    the edge, taken in one direction or the other. *)
Definition costs_from (cost : Z → Z → float64) (dst : Dst.t float64) : Prop :=
  ∀ a b w, Dst.costs dst !! (a, b) = Some w → w = cost a b ∨ w = cost b a.

(** [dst] records a cost for each of its edges, and the cost is the value
    of [cost] on the edge of the edge list that was put into [dst]: the
    edge itself, or the edge in the other direction. *)
Definition costs_recorded (cost : Z → Z → float64) (graph : Graph float64)
    (dst : Dst.t float64) : Prop :=
  ∀ a b, (a, b) ∈ Dst.edges dst →
         ∃ w, Dst.costs dst !! (a, b) = Some w
              ∧ (((a, b) ∈ EdgeList graph ∧ w = cost a b)
                 ∨ ((b, a) ∈ EdgeList graph ∧ w = cost b a)).

End MST_vocabulary.

(** Two cycles 0⇄1 and 2⇄3 joined by the edge 1→2, the node list
    starting in the second cycle. *)
Definition two_cycles : Graph Z :=
  graph_of [2; 1; 0; 3] [(0, 1); (1, 0); (2, 3); (3, 2); (1, 2)] None.

(** The graph with nodes 0 and 1 and the single edge 0→1. *)
Definition two_chain : Graph Z := graph_of [0; 1] [(0, 1)] None.

(** The undirected path 0 - 1 - 2, both directions of each edge listed,
    with the cost of an edge the sum of its end points. *)
Definition path3 : Graph Z :=
  graph_of [0; 1; 2] [(0, 1); (1, 0); (1, 2); (2, 1)] (Some Z.add).

(** The cycle 0 - 1 - 2 - 3 - 0 as an undirected graph, and the weights
    1, 2, 3 and 4 on its four edges. *)
Definition square : Graph Z :=
  graph_of [0; 1; 2; 3]
    [(0, 1); (1, 0); (1, 2); (2, 1); (2, 3); (3, 2); (3, 0); (0, 3)] None.

Definition square_cost (a b : Z) : Z :=
  if decide (Z.min a b = 0 ∧ Z.max a b = 1) then 1
  else if decide (Z.min a b = 1 ∧ Z.max a b = 2) then 2
  else if decide (Z.min a b = 2 ∧ Z.max a b = 3) then 3
  else 4.

(** Two nodes and no edge. *)
Definition two_islands : Graph Z := graph_of [0; 1] [] None.

(** The cycle 0→1→2→0. *)
Definition triangle : Graph Z := graph_of [0; 1; 2] [(0, 1); (1, 2); (2, 0)] None.

(** A directed graph whose two nodes are joined by an edge that does not
    lead away from the first listed node: the nodes 1 and 0, in this
    order, and the single edge 0→1. *)
Definition one_way : Graph Z := graph_of [1; 0] [(0, 1)] None.

(** An empty destination graph. *)
Definition dst_empty : Dst.t Z :=
  {| Dst.nodes := ∅; Dst.edges := ∅; Dst.costs := ∅; Dst.directed := true |}.

(** The diamond with edges 0→1, 0→2, 1→3 and 2→3. *)
Definition diamond : Graph Z :=
  graph_of [0; 1; 2; 3] [(0, 1); (0, 2); (1, 3); (2, 3)] None.

(** [edgeSorter.Less] on integer weights, for the examples. *)
Definition less_Z : WeightedEdge Z → WeightedEdge Z → bool :=
  edgeSorter_Less Z.ltb.

(** *** Vocabulary for what the dominator maps mean *)

Section Dominance.
Context {float64 : Type} (graph : Graph float64).

(** [w] is a walk from [start] to [n] along predecessor links, its
    nodes listed from [n] back to [start]: every node of the walk but the
    first is entered from one of its predecessors. *)
Inductive walk_to (start : Z) : Z → list Z → Prop :=
| walk_to_start : walk_to start start [start]
| walk_to_step n m w :
    walk_to start m w → m ∈ Predecessors graph n →
    walk_to start n (n :: w).

(** [a] dominates [n]: it lies on every walk from [start] to [n]. *)
Definition dominates (start a n : Z) : Prop :=
  ∀ w, walk_to start n w → a ∈ w.

(** The same along successor links, towards [end_]: [w] lists the nodes
    from [n] on to [end_]. *)
Inductive walk_from (end_ : Z) : Z → list Z → Prop :=
| walk_from_end : walk_from end_ end_ [end_]
| walk_from_step n m w :
    walk_from end_ m w → m ∈ Successors graph n →
    walk_from end_ n (n :: w).

(** [a] post-dominates [n]: it lies on every walk from [n] to [end_]. *)
Definition postdominates (end_ a n : Z) : Prop :=
  ∀ w, walk_from end_ n w → a ∈ w.

(** Every dominator of a listed node that is itself listed is in the set
    the map holds for the node. *)
Definition dom_complete (start : Z) (d : gmap Z NodeSet) : Prop :=
  ∀ n a, n ∈ NodeList graph → a ∈ NodeList graph →
         dominates start a n → a ∈ look d n.

End Dominance.

(** *** Vocabulary for spanning forests *)

Section Forest_vocabulary.
Context {float64 : Type}.

(** [b] is reached from [a] along the edges of the set [E]. *)
Definition joined (E : gset (Z * Z)) : Z → Z → Prop :=
  rtc (λ a b, (a, b) ∈ E).

(** An undirected edge set without a cycle: it is built by adding, one at
    a time, an edge (in both directions) between two nodes that the edges
    before it do not join. *)
Inductive forest : gset (Z * Z) → Prop :=
| forest_empty : forest ∅
| forest_add E a b :
    forest E → ¬ joined E a b → forest ({[(a, b); (b, a)]} ∪ E).

(** The edges of the edge list join listed nodes. *)
Definition edges_listed (graph : Graph float64) : Prop :=
  ∀ e, e ∈ EdgeList graph → e.1 ∈ NodeList graph ∧ e.2 ∈ NodeList graph.

(** [b] is reached from [a] along edges of the edge list, each taken in
    either direction. *)
Definition linked (graph : Graph float64) : Z → Z → Prop :=
  rtc (λ x y, (x, y) ∈ EdgeList graph ∨ (y, x) ∈ EdgeList graph).

(** What the loop of [Kruskal] keeps true of the disjoint sets and of
    [dst]: the sets are those of the listed nodes, [dst] is an undirected
    forest of edges of the source, and two listed nodes have one
    representative exactly when [dst] joins them. *)
Record Kruskal_inv (graph : Graph float64)
    (acc : DisjointSet.t * Dst.t float64) : Prop := {
  ki_keys : ∀ n, is_Some (DisjointSet.Find acc.1 n) ↔ n ∈ NodeList graph;
  ki_undirected : Dst.directed acc.2 = false;
  ki_edges : ∀ a b, (a, b) ∈ Dst.edges acc.2 →
                    a ∈ NodeList graph ∧ b ∈ NodeList graph
                    ∧ ((a, b) ∈ EdgeList graph ∨ (b, a) ∈ EdgeList graph);
  ki_rep : ∀ a b, a ∈ NodeList graph → b ∈ NodeList graph →
                  (DisjointSet.Find acc.1 a = DisjointSet.Find acc.1 b
                   ↔ joined (Dst.edges acc.2) a b);
  ki_forest : forest (Dst.edges acc.2);
  ki_nodes : ∀ n, n ∈ Dst.nodes acc.2 → n ∈ NodeList graph
}.

(** What the loop of [Prim] keeps true: the nodes of [dst] and the
    outstanding nodes are disjoint and make up the node list, and [dst]
    is an undirected tree on its nodes, made of edges of the source that
    lead away from the first node [n0]. *)
Record Prim_tree_inv (graph : Graph float64) (n0 : Z)
    (dst : Dst.t float64) (remainingNodes : NodeSet) : Prop := {
  pt_first : n0 ∈ Dst.nodes dst;
  pt_disjoint : Dst.nodes dst ## remainingNodes;
  pt_cover : Dst.nodes dst ∪ remainingNodes = list_to_set (NodeList graph);
  pt_undirected : Dst.directed dst = false;
  pt_edges : ∀ a b, (a, b) ∈ Dst.edges dst →
                    a ∈ Dst.nodes dst ∧ b ∈ Dst.nodes dst
                    ∧ ((a, b) ∈ EdgeList graph ∨ (b, a) ∈ EdgeList graph);
  pt_forest : forest (Dst.edges dst);
  pt_joined : ∀ n, n ∈ Dst.nodes dst → joined (Dst.edges dst) n0 n;
  pt_reach : ∀ n, n ∈ Dst.nodes dst → reach graph n0 n
}.

End Forest_vocabulary.

(** *** Vocabulary for the weights of the edges that [Kruskal] keeps *)

Section Weight_vocabulary.
Context {float64 : Type}.
Variable float64_lt : float64 → float64 → bool.

(** [b] is reached from [a] along edges of [dst] that are not heavier
    than [w]: [w] is less than none of the costs that [dst] records for
    them. *)
Inductive light_path (dst : Dst.t float64) (w : float64) : Z → Z → Prop :=
| light_path_refl a : light_path dst w a a
| light_path_step a x b wf :
    (a, x) ∈ Dst.edges dst → Dst.costs dst !! (a, x) = Some wf →
    float64_lt w wf = false → light_path dst w x b →
    light_path dst w a b.

(** What the loop of [Kruskal] keeps true of [dst] once it has passed the
    weighted edges [passed]: [dst] records costs for its edges and for
    nothing else, each the weight of an edge passed; and the end points of
    every edge passed are joined by edges that are not heavier. *)
Record Kruskal_weights (passed : list (WeightedEdge float64))
    (dst : Dst.t float64) : Prop := {
  kw_costs : ∀ a b, (a, b) ∈ Dst.edges dst →
               ∃ f, f ∈ passed ∧ Dst.costs dst !! (a, b) = Some (Weight f);
  kw_keys : ∀ a b, is_Some (Dst.costs dst !! (a, b)) →
                   (a, b) ∈ Dst.edges dst;
  kw_light : ∀ e, e ∈ passed →
               light_path dst (Weight e) (Edge e).1 (Edge e).2
}.

End Weight_vocabulary.

(** *** Vocabulary for what the components of [Tarjan] are *)

Section SCC_vocabulary.
Context {float64 : Type}.
Variable graph : Graph float64.

(** [b] is reached from [a] along successor edges. *)
Definition sreach : Z → Z → Prop := rtc (λ x y, y ∈ Successors graph x).

(** [scc] holds the nodes that [n] reaches and that reach [n]: the
    strongly connected component of [n]. *)
Definition component_of (n : Z) (scc : list Z) : Prop :=
  ∀ b, b ∈ scc ↔ sreach n b ∧ sreach b n.

(** The successors [succs] have been dealt with: each has an index, and
    the bound [b] is at most the index of each that is on the stack. *)
Definition succs_done (st : tarjan_state) (b : Z) (succs : list Z) : Prop :=
  ∀ y, y ∈ succs →
       indexed st y ∧ (y ∈ vStack st → b ≤ map_get (indices st) y).

(** The loop of [strongconnect(v)] over the successors of [v] has come to
    its end. *)
Definition done_on (st : tarjan_state) (v : Z) : Prop :=
  succs_done st (map_get (lowlinks st) v) (Successors graph v).

(** What holds of the state between any two statements of
    [strongconnect]: indices lie below the counter and fall from the top
    of the stack to its bottom; the low-link of a node on the stack is
    the index of a node on the stack that the node reaches; and no edge
    leaves the nodes that have been popped. *)
Record conn_inv (st : tarjan_state) : Prop := {
  ci_lt : ∀ v i, indices st !! v = Some i → i < index st;
  ci_sorted : ∀ s1 v s2, vStack st = s1 ++ v :: s2 →
                ∀ u, u ∈ s2 → map_get (indices st) u < map_get (indices st) v;
  ci_low : ∀ v, v ∈ vStack st →
             ∃ w, w ∈ vStack st
                  ∧ map_get (indices st) w = map_get (lowlinks st) v
                  ∧ sreach v w;
  ci_closed : ∀ x y, indexed st x → x ∉ vStack st →
                y ∈ Successors graph x → indexed st y ∧ y ∉ vStack st
}.

(** What the loop of [strongconnect(node)], entered in state [st0], keeps
    true of its state [st]: every node on the stack reaches [node];
    [node] reaches every node indexed since [st0]; these have indices
    from the counter of [st0] on; low-links of nodes indexed before are
    as they were; and the nodes stacked above [node] have run to their
    end with low-links not below [b]. *)
Record scc_frame (node : Z) (st0 st : tarjan_state) (b : Z) : Prop := {
  fr_to : ∀ v, v ∈ vStack st → sreach v node;
  fr_from : ∀ v, indices st0 !! v = None → indexed st v → sreach node v;
  fr_new : ∀ v i, indices st0 !! v = None → indices st !! v = Some i →
                  index st0 ≤ i;
  fr_low : ∀ v, indexed st0 v →
                map_get (lowlinks st) v = map_get (lowlinks st0) v;
  fr_done : ∀ v, v ∈ vStack st → indices st0 !! v = None → v ≠ node →
                 done_on st v ∧ b ≤ map_get (lowlinks st) v
}.

(** What a call [strongconnect(node)] made in state [st] has done when it
    returns [scc] in state [st'], beyond [strongconnect_post]. *)
Definition conn_post (node : Z) (st : tarjan_state) (scc : list Z)
    (st' : tarjan_state) : Prop :=
  conn_inv st'
  ∧ (∀ v, indices st !! v = None → indexed st' v → sreach node v)
  ∧ (∀ v i, indices st !! v = None → indices st' !! v = Some i →
            index st ≤ i)
  ∧ (∀ v, indexed st v →
          map_get (lowlinks st') v = map_get (lowlinks st) v)
  ∧ (∀ v, v ∈ vStack st' → indices st !! v = None →
          sreach v node ∧ done_on st' v
          ∧ map_get (lowlinks st') node ≤ map_get (lowlinks st') v)
  ∧ (scc ≠ [] → component_of node scc).

(** With [fuel], every call of [strongconnect] on a node of [U] without
    index that every node on the stack reaches returns, and leaves what
    [strongconnect_post] and [conn_post] say. *)
Definition strongconnect_scc_spec (U : NodeSet) (fuel : nat) : Prop :=
  ∀ node st B,
    tarjan_inv U B st → conn_inv st →
    (∀ v, v ∈ vStack st → sreach v node) →
    indices st !! node = None → node ∈ U →
    (unvisited U st ≤ fuel)%nat →
    ∃ scc st', strongconnect fuel graph node st = Ok (scc, st')
               ∧ strongconnect_post U B node st scc st'
               ∧ conn_post node st scc st'.

(** [n] stands in the node list where no node listed before it reaches
    it. *)
Definition first_reached (pre : list Z) (n : Z) : Prop :=
  ∃ l1 l2, pre = l1 ++ n :: l2 ∧ ∀ x, x ∈ l1 → ¬ sreach x n.

(** What the loop of [Tarjan] keeps true once it has passed the nodes
    [pre]: the indexed nodes are those that a node of [pre] reaches, and
    the components gathered are the strongly connected components of the
    nodes of [pre] that no node before them reaches. *)
Definition driver_scc (pre : list Z) (st : tarjan_state)
    (sccs : list (list Z)) : Prop :=
  conn_inv st
  ∧ (∀ v, indexed st v ↔ ∃ x, x ∈ pre ∧ sreach x v)
  ∧ (∀ scc, scc ∈ sccs →
       ∃ n, first_reached pre n ∧ last scc = Some n ∧ component_of n scc)
  ∧ ∀ n, first_reached pre n → ∃ scc, scc ∈ sccs ∧ last scc = Some n.

End SCC_vocabulary.

(** * Properties *)

(** ** [IsPath] *)

Section IsPath_facts.
Context {float64 : Type} (graph : Graph float64).

Lemma IsPath_loop_None path k :
  IsPath_loop graph path k = None ↔
  ∀ i a b, path !! i = Some a → path !! S i = Some b →
           IsSuccessor graph a b = true.
Proof.
  revert k. induction path as [|a [|b rest] IH]; intros k.
  - split; [intros _ i a b Ha; by destruct i | done].
  - split; [intros _ [|i] x y Hx Hy; by simplify_eq/= | done].
  - change (IsPath_loop graph (a :: b :: rest) k)
      with (if IsSuccessor graph a b
            then IsPath_loop graph (b :: rest) (S k) else Some k).
    destruct (IsSuccessor graph a b) eqn:Hab.
    + rewrite IH. split.
      * intros H [|i] x y Hx Hy; simplify_eq/=; [done | by eapply H].
      * intros H i x y Hx Hy. by apply (H (S i)).
    + split; [done |]. intros H. specialize (H 0%nat a b eq_refl eq_refl).
      congruence.
Qed.

Lemma IsPath_loop_Some path k i :
  IsPath_loop graph path k = Some i ↔
  ∃ j, i = (k + j)%nat ∧ first_violation graph path j.
Proof.
  revert k i. induction path as [|a [|b rest] IH]; intros k i.
  - split; [done |]. by intros (j & _ & (x & y & Hx & _) & _).
  - split; [done |]. intros (j & _ & (x & y & Hx & Hy & _) & _).
    destruct j; simplify_eq/=.
  - change (IsPath_loop graph (a :: b :: rest) k)
      with (if IsSuccessor graph a b
            then IsPath_loop graph (b :: rest) (S k) else Some k).
    destruct (IsSuccessor graph a b) eqn:Hab.
    + rewrite IH. split.
      * intros (j & -> & (x & y & Hx & Hy & Hxy) & Hlt).
        exists (S j). split; [lia |]. split; [by exists x, y |].
        intros [|j'] u v Hj' Hu Hv; simplify_eq/=; [done |].
        eapply (Hlt j'); [lia | done..].
      * intros (j & -> & (x & y & Hx & Hy & Hxy) & Hlt).
        destruct j as [|j]; [simplify_eq/=; congruence |].
        exists j. split; [lia |]. split; [by exists x, y |].
        intros j' u v Hj' Hu Hv. apply (Hlt (S j')); [lia | done..].
    + split.
      * intros [= <-]. exists 0%nat. split; [lia |].
        split; [by exists a, b | intros; lia].
      * intros (j & -> & (x & y & Hx & Hy & Hxy) & Hlt).
        destruct j as [|j]; [f_equal; lia |].
        specialize (Hlt 0%nat a b ltac:(lia) eq_refl eq_refl). congruence.
Qed.

(** C5.  [IsPath] is true on the empty (or nil) sequence; on a sequence
    of one node it is [NodeExists] of that node; on a longer sequence it
    is true exactly when every [path[i+1]] is a successor of [path[i]],
    and when it is false its loop has stopped at the first pair that is
    not an edge. *)
Theorem IsPath_spec :
  IsPath [] graph = true
  ∧ (∀ n, IsPath [n] graph = NodeExists graph n)
  ∧ ∀ path, (2 ≤ length path)%nat →
      (IsPath path graph = true ↔
         ∀ i a b, path !! i = Some a → path !! S i = Some b →
                  IsSuccessor graph a b = true)
      ∧ (IsPath path graph = false ↔
         ∃ i, IsPath_loop graph path 0 = Some i)
      ∧ (∀ i, IsPath_loop graph path 0 = Some i ↔
              first_violation graph path i).
Proof.
  split; [done |]. split; [done |].
  intros path Hlen.
  destruct path as [|a [|b rest]]; simpl in Hlen; [lia.. |].
  assert (IsPath (a :: b :: rest) graph
          = match IsPath_loop graph (a :: b :: rest) 0 with
            | Some _ => false | None => true end) as -> by done.
  split; [| split].
  - rewrite <- IsPath_loop_None with (k := 0%nat).
    by destruct (IsPath_loop graph (a :: b :: rest) 0).
  - destruct (IsPath_loop graph (a :: b :: rest) 0) as [i|]; [| split].
    + split; [by exists i | done].
    + done.
    + by intros [i ?].
  - intros i. rewrite IsPath_loop_Some. split.
    + by intros (j & -> & Hj).
    + intros Hi. by exists i.
Qed.

End IsPath_facts.

(** The walk 0, 1, 2 in the graph with edges 0→1 and 1→2. *)
Lemma IsPath_spec_witness :
  IsPath [0; 1; 2] (graph_of (float64 := Z) [0; 1; 2] [(0, 1); (1, 2)] None)
  = true.
Proof.
  pose proof (IsPath_spec (graph_of (float64 := Z) [0; 1; 2] [(0, 1); (1, 2)] None))
    as (_ & _ & H).
  destruct (H [0; 1; 2] ltac:(simpl; lia)) as (Hiff & _).
  apply Hiff. intros [|[|[|i]]] a b Ha Hb; simplify_eq/=; reflexivity.
Defined.

(** ** Cost precedence and the empty source graph *)

Section MST_facts.
Context {float64 : Type}.
Variable float64_lt : float64 → float64 → bool.
Variable float64_one : float64.
Variable sort_Sort :
  (WeightedEdge float64 → WeightedEdge float64 → bool) →
  list (WeightedEdge float64) → list (WeightedEdge float64).

Local Abbreviation prim := (Prim float64_lt float64_one sort_Sort).
Local Abbreviation kruskal := (Kruskal float64_lt float64_one sort_Sort).
Local Abbreviation uniform := (UniformCost float64_one).

(** [Prim] and [Kruskal] resolve the cost function alike.  With a
    non-nil argument the graph's own [Coster] capability makes no
    difference; with a nil argument and a graph that implements [Coster]
    they run as if the graph's [Cost] had been the argument; with a nil
    argument and no [Coster] they run as if [UniformCost] had been, and
    [UniformCost] is 1 on every pair. *)
Lemma cost_resolution_runs (fuel : nat) (dst : Dst.t float64)
    (graph : Graph float64) (c : Z → Z → float64)
    (other : option (Z → Z → float64)) :
  (prim fuel dst (with_Coster graph other) (Some c)
     = prim fuel dst graph (Some c)
   ∧ prim fuel dst (with_Coster graph (Some c)) None
     = prim fuel dst graph (Some c)
   ∧ prim fuel dst (with_Coster graph None) None
     = prim fuel dst graph (Some uniform))
  ∧ (kruskal dst (with_Coster graph other) (Some c)
       = kruskal dst graph (Some c)
     ∧ kruskal dst (with_Coster graph (Some c)) None
       = kruskal dst graph (Some c)
     ∧ kruskal dst (with_Coster graph None) None
       = kruskal dst graph (Some uniform))
  ∧ ∀ node1 node2, uniform node1 node2 = float64_one.
Proof. repeat split. Qed.

(** The same resolution read off the graph as it is given. *)
Lemma cost_precedence_graph (fuel : nat) (dst : Dst.t float64)
    (graph : Graph float64) :
  prim fuel dst graph None
    = prim fuel dst graph (Some (default uniform (Coster_Cost graph)))
  ∧ kruskal dst graph None
    = kruskal dst graph (Some (default uniform (Coster_Cost graph))).
Proof.
  unfold Prim, Kruskal.
  by destruct (Coster_Cost graph).
Qed.

(** C8.  On a source graph whose node list is nil or empty [Prim]
    returns normally, whatever the fuel, and leaves in [dst] exactly the
    cleared, undirected graph: no node, no edge, no cost. *)
Theorem Prim_empty_source (fuel : nat) (dst : Dst.t float64)
    (graph : Graph float64) (Cost : option (Z → Z → float64)) :
  NodeList graph = [] →
  ∃ dst', prim fuel dst graph Cost = Ok dst'
          ∧ dst' = Dst.SetDirected false (Dst.EmptyGraph dst)
          ∧ Dst.nodes dst' = ∅ ∧ Dst.edges dst' = ∅ ∧ Dst.costs dst' = ∅
          ∧ Dst.directed dst' = false
          ∧ ∀ node, Dst.NodeExists dst' node = false.
Proof.
  intros Hnil. unfold Prim. rewrite Hnil.
  eexists. split; [reflexivity |]. repeat split.
Qed.

End MST_facts.

(** ** The insertion sort on integer weights *)

Section Sorts_on_Z.

Lemma insert_before_perm x l : insert_before less_Z x l ≡ₚ x :: l.
Proof.
  induction l as [|y l IH]; simpl; [done |].
  destruct (less_Z y x); [| done]. rewrite IH. apply Permutation_swap.
Qed.

Lemma insert_before_sorted x l :
  StronglySorted (λ a b, less_Z b a = false) l →
  StronglySorted (λ a b, less_Z b a = false) (insert_before less_Z x l).
Proof.
  unfold less_Z, edgeSorter_Less.
  induction 1 as [|y l Hl IH Hy]; simpl.
  - repeat constructor.
  - destruct (Weight y <? Weight x) eqn:Hyx.
    + constructor; [done |]. rewrite insert_before_perm.
      constructor; [lia | done].
    + constructor; [by constructor |]. constructor; [done |].
      eapply Forall_impl; [exact Hy |]. simpl. intros z. lia.
Qed.

Lemma stable_sort_contract : sort_contract less_Z (stable_sort less_Z).
Proof.
  intros l. induction l as [|x l [IHp IHs]]; simpl.
  - split; [done | constructor].
  - split; [by rewrite insert_before_perm, IHp |].
    by apply insert_before_sorted.
Qed.

End Sorts_on_Z.

(** [Prim] on the graph without nodes, with integer weights. *)
Lemma Prim_empty_source_witness :
  ∃ dst', Prim Z.ltb 1 stable_sort 0
               (Dst.AddNode 7 [8] (Dst.EmptyGraph
                  {| Dst.nodes := ∅; Dst.edges := ∅; Dst.costs := ∅;
                     Dst.directed := true |}))
               (graph_of [] [] None) None = Ok dst'
          ∧ Dst.nodes dst' = ∅.
Proof.
  destruct (Prim_empty_source Z.ltb 1 stable_sort 0%nat
              (Dst.AddNode 7 [8] (Dst.EmptyGraph
                  {| Dst.nodes := ∅; Dst.edges := ∅; Dst.costs := ∅;
                     Dst.directed := true |}))
              (graph_of [] [] None) None eq_refl)
    as (dst' & Hrun & _ & Hnodes & _).
  by exists dst'.
Defined.

(** ** [PostDominators] is [Dominators] on the reversed graph *)

Section Reverse.
Context {float64 : Type}.

Lemma PostDominators_pass_reverse (e : Z) (graph : Graph float64) nlist acc :
  PostDominators_pass e graph nlist acc
  = Dominators_pass e (reverse_graph graph) nlist acc.
Proof.
  revert acc. induction nlist as [|node rest IH]; intros acc; simpl; [done |].
  case_decide; [done |].
  destruct (dom_update node (Successors graph node) acc); simpl; done.
Qed.

Lemma PostDominators_loop_reverse fuel (e : Z) (graph : Graph float64) nlist d :
  PostDominators_loop fuel e graph nlist d
  = Dominators_loop fuel e (reverse_graph graph) nlist d.
Proof.
  revert d. induction fuel as [|fuel IH]; intros d; simpl; [done |].
  rewrite PostDominators_pass_reverse.
  destruct (Dominators_pass e (reverse_graph graph) nlist (d, false))
    as [[d' []]| |]; simpl; done.
Qed.

(** C9.  For every graph and node [e], and with any fuel,
    [PostDominators e graph] is the result of [Dominators e] on the graph
    with successors and predecessors exchanged: the same map, or the same
    failure. *)
Theorem PostDominators_is_Dominators_reversed (fuel : nat) (e : Z)
    (graph : Graph float64) :
  PostDominators fuel e graph = Dominators fuel e (reverse_graph graph).
Proof. unfold PostDominators, Dominators. apply PostDominators_loop_reverse. Qed.

(** Reversing twice gives the queries of the graph back, so the
    exchange works in the other direction too. *)
Lemma Dominators_is_PostDominators_reversed (fuel : nat) (s : Z)
    (graph : Graph float64) :
  Dominators fuel s graph = PostDominators fuel s (reverse_graph graph).
Proof.
  unfold PostDominators. rewrite PostDominators_loop_reverse.
  unfold Dominators. simpl.
  generalize (dom_init s (collect_nodes (NodeList graph)) (NodeList graph)).
  generalize (NodeList graph).
  induction fuel as [|fuel IH]; intros nlist d; simpl; [done |].
  assert (∀ l acc, Dominators_pass s graph l acc
                   = Dominators_pass s (reverse_graph (reverse_graph graph)) l acc)
    as ->.
  { induction l as [|n l IHl]; intros acc; simpl; [done |].
    case_decide; [done |]. destruct (dom_update _ _ _); simpl; done. }
  destruct (Dominators_pass _ _ _ _) as [[d' []]| |]; simpl; done.
Qed.

End Reverse.

(** ** [Tarjan] loses the components found below the top-level call *)

(** C1, at the input on which it fails.  With any fuel of two or more,
    [Tarjan] on [two_chain] returns the one component [[0]]: the
    component [[1]], found by the nested call, is dropped, and node 1 of
    the node list is in no returned component. *)
Lemma Tarjan_two_chain (fuel : nat) :
  Tarjan (S (S fuel)) two_chain = Ok [[0]]
  ∧ ¬ (∀ n, n ∈ NodeList two_chain → ∃ scc, scc ∈ [[0]] ∧ n ∈ scc).
Proof.
  split; [vm_compute; reflexivity |].
  intros H. destruct (H 1) as (scc & Hscc & H1).
  - set_solver.
  - apply list_elem_of_singleton in Hscc as ->. set_solver.
Qed.

(** ** The fixed-point loop of [Dominators] *)

Section Dom_facts.
Context {float64 : Type} (start : Z) (graph : Graph float64).

Lemma collect_nodes_spec (nlist : list Z) :
  collect_nodes nlist = list_to_set nlist.
Proof.
  unfold collect_nodes.
  assert (∀ acc : NodeSet,
            foldl (λ allNodes node, {[node]} ∪ allNodes) acc nlist
            = list_to_set nlist ∪ acc) as H.
  { induction nlist as [|n l IH]; intros acc; simpl; [set_solver |].
    rewrite IH. set_solver. }
  rewrite H. set_solver.
Qed.

Lemma dom_init_lookup (allNodes : NodeSet) (nlist : list Z) (n : Z) :
  dom_init start allNodes nlist !! n
  = if decide (n ∈ nlist)
    then Some (if decide (n = start) then {[start]} else allNodes)
    else None.
Proof.
  unfold dom_init.
  set (f := λ (dominators : gmap Z NodeSet) (node : Z),
              if decide (node = start)
              then <[node := {[start]} ∪ ∅]> dominators
              else <[node := allNodes]> dominators).
  assert (∀ acc : gmap Z NodeSet,
            foldl f acc nlist !! n
            = if decide (n ∈ nlist)
              then Some (if decide (n = start) then {[start]} else allNodes)
              else acc !! n) as H.
  { induction nlist as [|x l IH]; intros acc; cbn [foldl].
    - destruct (decide (n ∈ [])) as [Hn|_]; [by apply elem_of_nil in Hn | done].
    - rewrite IH. destruct (decide (n ∈ l)) as [Hl|Hl].
      + destruct (decide (n ∈ x :: l)) as [_|Hn]; [done |].
        exfalso. apply Hn. by right.
      + destruct (decide (n ∈ x :: l)) as [Hn|Hn].
        * apply elem_of_cons in Hn as [-> | Hn]; [| done]. unfold f.
          destruct (decide (x = start)); simplify_map_eq;
            [by rewrite union_empty_r_L | done].
        * assert (x ≠ n) by (intros ->; apply Hn; by left).
          unfold f. destruct (decide (x = start)); by simplify_map_eq. }
  rewrite H. by case_decide.
Qed.

Lemma elem_of_meet_all (d : gmap Z NodeSet) tmp rest x :
  x ∈ meet_all d tmp rest ↔ x ∈ tmp ∧ ∀ p, p ∈ rest → x ∈ look d p.
Proof.
  unfold meet_all. revert tmp.
  induction rest as [|p rest IH]; intros tmp; simpl.
  - set_solver.
  - rewrite IH. set_solver.
Qed.

Lemma dom_get_ok (d : gmap Z NodeSet) k :
  is_Some (d !! k) → dom_get d k = Ok (look d k).
Proof. intros [s Hs]. unfold dom_get, look. by rewrite Hs. Qed.

Lemma dom_meet_ok (d : gmap Z NodeSet) tmp rest :
  (∀ p, p ∈ rest → is_Some (d !! p)) →
  dom_meet d tmp rest = Ok (meet_all d tmp rest).
Proof.
  revert tmp. induction rest as [|p rest IH]; intros tmp Hall; simpl; [done |].
  rewrite dom_get_ok by (apply Hall; set_solver). simpl.
  apply IH. intros q Hq. apply Hall. set_solver.
Qed.

Lemma dom_update_ok (d : gmap Z NodeSet) c node preds :
  (∀ p, p ∈ preds → is_Some (d !! p)) → is_Some (d !! node) →
  dom_update node preds (d, c)
  = Ok (if decide (dom_new d node preds = look d node) then (d, c)
        else (<[node := dom_new d node preds]> d, true)).
Proof.
  intros Hall Hnode. destruct preds as [|p0 rest]; simpl.
  - by rewrite decide_True.
  - rewrite dom_get_ok by (apply Hall; set_solver). simpl.
    rewrite dom_meet_ok by (intros q Hq; apply Hall; set_solver). simpl.
    rewrite dom_get_ok by done. simpl.
    destruct (decide (_ = look d node)) as [Heq|Hne].
    + rewrite decide_False; [done |]. intros H. by apply H.
    + by rewrite decide_True.
Qed.

Lemma dom_new_mono (d' d : gmap Z NodeSet) n preds :
  (∀ k, look d' k ⊆ look d k) → dom_new d' n preds ⊆ dom_new d n preds.
Proof.
  intros Hle. destruct preds as [|p0 rest]; simpl; [apply Hle |].
  intros x. rewrite !elem_of_union, !elem_of_meet_all.
  intros [Hx | [H0 Hrest]]; [by left | right]. split; [by apply Hle |].
  intros p Hp. by apply Hle, Hrest.
Qed.

Lemma look_insert (d : gmap Z NodeSet) n s k :
  look (<[n := s]> d) k = if decide (n = k) then s else look d k.
Proof. unfold look. rewrite lookup_insert. by case_decide. Qed.

Lemma shrinks_refl (d : gmap Z NodeSet) : shrinks d d.
Proof. intros k. by destruct (d !! k). Qed.

Lemma shrinks_trans (d1 d2 d3 : gmap Z NodeSet) :
  shrinks d1 d2 → shrinks d2 d3 → shrinks d1 d3.
Proof.
  intros H12 H23 k. specialize (H12 k). specialize (H23 k).
  destruct (d1 !! k), (d2 !! k), (d3 !! k); try done. set_solver.
Qed.

Lemma shrinks_insert (d : gmap Z NodeSet) n s :
  is_Some (d !! n) → s ⊆ look d n → shrinks (<[n := s]> d) d.
Proof.
  intros [t Ht] Hs k. rewrite lookup_insert. case_decide as Hk.
  - subst k. unfold look in Hs. by rewrite Ht in Hs |- *.
  - by destruct (d !! k).
Qed.

Lemma sum_list_with_lt {A} (f' f : A → nat) (l : list A) (x : A) :
  (∀ y, (f' y ≤ f y)%nat) → x ∈ l → (f' x < f x)%nat →
  (sum_list_with f' l < sum_list_with f l)%nat.
Proof.
  intros Hle Hx Hlt.
  assert (∀ k : list A, (sum_list_with f' k ≤ sum_list_with f k)%nat) as Hall.
  { induction k as [|y k IH]; simpl; [lia |]. specialize (Hle y). lia. }
  induction l as [|y l IH]; [by apply elem_of_nil in Hx |].
  simpl. apply elem_of_cons in Hx as [<- | Hx].
  - specialize (Hall l). lia.
  - specialize (IH Hx). specialize (Hle y). lia.
Qed.

Lemma dom_potential_insert (nlist : list Z) (d : gmap Z NodeSet) n s :
  n ∈ nlist → s ⊆ look d n → s ≠ look d n →
  (dom_potential nlist (<[n := s]> d) < dom_potential nlist d)%nat.
Proof.
  intros Hn Hsub Hne. unfold dom_potential.
  apply sum_list_with_lt with (x := n); [| done |].
  - intros k. rewrite look_insert. case_decide; [subst | lia].
    by apply subseteq_size.
  - rewrite look_insert, decide_True by done.
    apply subset_size. split; [done |]. intros H. apply Hne. set_solver.
Qed.

Lemma dom_inv_insert (d : gmap Z NodeSet) n :
  dom_inv start graph d → n ∈ NodeList graph → n ≠ start →
  dom_inv start graph (<[n := dom_new d n (Predecessors graph n)]> d).
Proof.
  intros [Hkeys Hstart Hpost] Hn Hne.
  assert (∀ k, look (<[n := dom_new d n (Predecessors graph n)]> d) k
               ⊆ look d k) as Hle.
  { intros k. rewrite look_insert. case_decide; [subst; by apply Hpost | done]. }
  split.
  - intros k. rewrite lookup_insert. case_decide; [subst | apply Hkeys].
    split; [done | by eexists].
  - intros Hs. rewrite lookup_insert_ne by done. by apply Hstart.
  - intros m Hm Hms. etrans; [by apply dom_new_mono |].
    rewrite look_insert. case_decide; [by subst | by apply Hpost].
Qed.

Lemma dom_init_inv :
  dom_inv start graph
    (dom_init start (collect_nodes (NodeList graph)) (NodeList graph)).
Proof.
  set (nlist := NodeList graph).
  assert (∀ k, look (dom_init start (collect_nodes nlist) nlist) k
               ⊆ list_to_set nlist) as Hsub.
  { intros k. unfold look. rewrite dom_init_lookup, collect_nodes_spec.
    destruct (decide (k ∈ nlist)); [| set_solver].
    destruct (decide (k = start)); simpl; set_solver. }
  split.
  - intros n. rewrite dom_init_lookup. case_decide; [| by split; [intros [] |]].
    split; [done | by eexists].
  - intros Hs. rewrite dom_init_lookup.
    rewrite (decide_True (P := start ∈ nlist)) by done.
    by rewrite decide_True.
  - intros n Hn Hne.
    assert (look (dom_init start (collect_nodes nlist) nlist) n
            = list_to_set nlist) as Hlook.
    { unfold look. rewrite dom_init_lookup.
      rewrite (decide_True (P := n ∈ nlist)) by done.
      rewrite (decide_False (P := n = start)) by done.
      apply collect_nodes_spec. }
    destruct (Predecessors graph n) as [|p0 rest]; unfold dom_new.
    + done.
    + rewrite Hlook. intros x. rewrite !elem_of_union, elem_of_meet_all.
      intros [[Hx | Hx] | [Hx _]]; [set_solver.. |]. by eapply Hsub.
Qed.

Lemma dom_meet_panic (d : gmap Z NodeSet) tmp rest :
  ¬ Forall (λ p, is_Some (d !! p)) rest → dom_meet d tmp rest = Panic.
Proof.
  revert tmp. induction rest as [|p rest IH]; intros tmp Hn; simpl.
  - destruct Hn. constructor.
  - unfold dom_get. destruct (d !! p) as [s|] eqn:Hp; simpl; [| done].
    apply IH. intros HF. apply Hn. constructor; [by eexists | done].
Qed.

Lemma dom_update_panic (d : gmap Z NodeSet) c node preds :
  ¬ Forall (λ p, is_Some (d !! p)) preds →
  dom_update node preds (d, c) = Panic.
Proof.
  destruct preds as [|p0 rest]; intros Hn; simpl.
  - destruct Hn. constructor.
  - unfold dom_get at 1. destruct (d !! p0) as [s|] eqn:Hp; simpl; [| done].
    rewrite dom_meet_panic; [done |].
    intros HF. apply Hn. constructor; [by eexists | done].
Qed.

(** A pass either fails on a predecessor that is not a listed node, or
    it succeeds, keeps the invariant, and shrinks. *)
Lemma Dominators_pass_cases (l : list Z) (d : gmap Z NodeSet) (c : bool) :
  l ⊆ NodeList graph → dom_inv start graph d →
  (Dominators_pass start graph l (d, c) = Panic ∧ ¬ preds_listed graph)
  ∨ ∃ d' c', Dominators_pass start graph l (d, c) = Ok (d', c')
             ∧ dom_inv start graph d' ∧ shrinks d' d
             ∧ ((d' = d ∧ c' = c)
                ∨ (c' = true ∧ (dom_potential (NodeList graph) d'
                                < dom_potential (NodeList graph) d)%nat)).
Proof.
  revert d c. induction l as [|node rest IH]; intros d c Hl Hinv; simpl.
  - right. exists d, c. split; [done |]. split; [done |].
    split; [apply shrinks_refl |]. by left.
  - assert (rest ⊆ NodeList graph) as Hrest by set_solver.
    assert (node ∈ NodeList graph) as Hnode by set_solver.
    case_decide as Hst; [by apply IH |].
    destruct (decide (Forall (λ p, is_Some (d !! p))
                             (Predecessors graph node))) as [Hall | Hnot].
    + rewrite dom_update_ok; cycle 1.
      { by apply Forall_forall. }
      { by apply (inv_keys _ _ _ Hinv). }
      simpl. case_decide as Heq; [by apply IH |].
      pose proof (inv_post _ _ _ Hinv node Hnode Hst) as Hsub.
      destruct (IH (<[node := dom_new d node (Predecessors graph node)]> d)
                  true Hrest (dom_inv_insert d node Hinv Hnode Hst))
        as [Hpanic | (d' & c' & Hrun & Hinv' & Hshr & Hcase)]; [by left |].
      right. exists d', c'. split; [done |]. split; [done |].
      split.
      { eapply shrinks_trans; [done |]. apply shrinks_insert; [| done].
        by apply (inv_keys _ _ _ Hinv). }
      right.
      pose proof (dom_potential_insert (NodeList graph) d node _
                    Hnode Hsub Heq).
      destruct Hcase as [[-> ->] | [-> Hlt]]; [done |]. split; [done | lia].
    + left. rewrite dom_update_panic by done. split; [done |].
      intros Hlisted. apply Hnot. apply Forall_forall. intros p Hp.
      apply (inv_keys _ _ _ Hinv). by eapply Hlisted.
Qed.

Lemma dom_reachable_inv (d : gmap Z NodeSet) :
  dom_reachable start graph d → dom_inv start graph d.
Proof.
  induction 1 as [|d d' c _ IH Hrun]; [apply dom_init_inv |].
  destruct (Dominators_pass_cases (NodeList graph) d false)
    as [[Hpanic _] | (d1 & c1 & Hrun1 & Hinv1 & _)]; [done.. | |];
    congruence.
Qed.

Lemma Dominators_pass_shrinks (d d' : gmap Z NodeSet) (c : bool) :
  dom_reachable start graph d →
  Dominators_pass start graph (NodeList graph) (d, false) = Ok (d', c) →
  shrinks d' d
  ∧ (c = true → (dom_potential (NodeList graph) d'
                 < dom_potential (NodeList graph) d)%nat)
  ∧ (c = false → d' = d).
Proof.
  intros Hreach Hrun.
  destruct (Dominators_pass_cases (NodeList graph) d false)
    as [[Hpanic _] | (d1 & c1 & Hrun1 & _ & Hshr & Hcase)];
    [done | by apply dom_reachable_inv | congruence |].
  assert (d1 = d' ∧ c1 = c) as [-> ->] by (split; congruence).
  split; [done |].
  destruct Hcase as [[-> ->] | [-> Hlt]]; split; done.
Qed.

Lemma dom_reachable_shrinks (d : gmap Z NodeSet) :
  dom_reachable start graph d →
  shrinks d (dom_init start (collect_nodes (NodeList graph)) (NodeList graph)).
Proof.
  induction 1 as [|d d' c Hreach IH Hrun]; [apply shrinks_refl |].
  destruct (Dominators_pass_shrinks d d' c Hreach Hrun) as [Hshr _].
  by eapply shrinks_trans.
Qed.

(** The loop fails in its first pass or reaches a pass without change. *)
Lemma Dominators_loop_cases (n : nat) (d : gmap Z NodeSet) :
  (dom_potential (NodeList graph) d ≤ n)%nat → dom_reachable start graph d →
  ((∀ fuel, (n < fuel)%nat →
      Dominators_loop fuel start graph (NodeList graph) d = Panic)
   ∧ ¬ preds_listed graph)
  ∨ ∃ d', (∀ fuel, (n < fuel)%nat →
             Dominators_loop fuel start graph (NodeList graph) d = Ok d')
          ∧ dom_reachable start graph d'
          ∧ Dominators_pass start graph (NodeList graph) (d', false)
            = Ok (d', false).
Proof.
  revert d. induction n as [|n IH]; intros d Hpot Hreach;
    (destruct (Dominators_pass_cases (NodeList graph) d false)
      as [[Hpanic Hnl] | (d1 & c1 & Hrun & Hinv1 & _ & Hcase)];
     [done | by apply dom_reachable_inv | |]).
  - left. split; [| done]. intros [|fuel] Hf; [lia |]. simpl. by rewrite Hpanic.
  - destruct Hcase as [[-> ->] | [_ Hlt]]; [| lia].
    right. exists d. split; [| done]. intros [|fuel] Hf; [lia |]. simpl.
    by rewrite Hrun.
  - left. split; [| done]. intros [|fuel] Hf; [lia |]. simpl. by rewrite Hpanic.
  - destruct Hcase as [[-> ->] | [-> Hlt]].
    + right. exists d. split; [| done]. intros [|fuel] Hf; [lia |]. simpl.
      by rewrite Hrun.
    + destruct (IH d1) as [[Hfuel Hnl] | (d' & Hfuel & Hreach' & Hfix)];
        [lia | by eapply dom_reachable_pass | |].
      * left. split; [| done]. intros [|fuel] Hf; [lia |]. simpl.
        rewrite Hrun. simpl. apply Hfuel. lia.
      * right. exists d'. split; [| done]. intros [|fuel] Hf; [lia |]. simpl.
        rewrite Hrun. simpl. apply Hfuel. lia.
Qed.

Lemma Dominators_pass_ok (d : gmap Z NodeSet) :
  preds_listed graph → dom_reachable start graph d →
  ∃ d' c, Dominators_pass start graph (NodeList graph) (d, false) = Ok (d', c).
Proof.
  intros Hlisted Hreach.
  destruct (Dominators_pass_cases (NodeList graph) d false)
    as [[_ Hnl] | (d1 & c1 & Hrun & _)];
    [done | by apply dom_reachable_inv | done | by eauto].
Qed.

Lemma Dominators_loop_ok (n : nat) (d : gmap Z NodeSet) :
  preds_listed graph →
  (dom_potential (NodeList graph) d ≤ n)%nat → dom_reachable start graph d →
  ∃ d', (∀ fuel, (n < fuel)%nat →
           Dominators_loop fuel start graph (NodeList graph) d = Ok d')
        ∧ dom_reachable start graph d'
        ∧ Dominators_pass start graph (NodeList graph) (d', false)
          = Ok (d', false).
Proof.
  intros Hlisted Hpot Hreach.
  by destruct (Dominators_loop_cases n d Hpot Hreach) as [[_ Hnl] | Hok].
Qed.

Lemma dom_update_start (node : Z) preds (acc acc' : gmap Z NodeSet * bool) :
  node ≠ start → dom_update node preds acc = Ok acc' →
  acc'.1 !! start = acc.1 !! start.
Proof.
  intros Hne. destruct preds as [|p0 rest]; simpl; [by intros [= <-] |].
  destruct (dom_get acc.1 p0); simpl; [| done..].
  destruct (dom_meet acc.1 _ rest); simpl; [| done..].
  destruct (dom_get acc.1 node); simpl; [| done..].
  case_decide; intros [= <-]; simpl; [| done]. by rewrite lookup_insert_ne.
Qed.

Lemma Dominators_pass_start (l : list Z) (acc acc' : gmap Z NodeSet * bool) :
  Dominators_pass start graph l acc = Ok acc' →
  acc'.1 !! start = acc.1 !! start.
Proof.
  revert acc. induction l as [|node rest IH]; intros acc; simpl.
  - by intros [= <-].
  - case_decide as Hst; [apply IH |].
    destruct (dom_update node (Predecessors graph node) acc) as [acc1| |] eqn:Hup;
      simpl; [| done..].
    intros Hrun. rewrite (IH _ Hrun). by eapply dom_update_start.
Qed.

End Dom_facts.

Section Dom_theorems.
Context {float64 : Type}.

(** C6.  The fixed-point loop of [Dominators] terminates for every
    graph and start node: from some fuel on (the sum of the sizes of the
    initial sets is enough) [Dominators] gives one and the same result,
    and fuel is not what it lacks.  Every pass that succeeds from a map
    the loop has reached gives each node a subset of the set it had, so
    every set the loop reaches is a subset of the set of the
    initialization; a pass that reports a change makes the sum of the
    sizes strictly smaller, a pass that reports none leaves the map as it
    was.  When listed nodes have listed predecessors no pass fails, and
    the result is a map at which a pass changes nothing. *)
Theorem Dominators_terminates (start : Z) (graph : Graph float64) :
  let nlist := NodeList graph in
  let d0 := dom_init start (collect_nodes nlist) nlist in
  (∃ r, r ≠ OutOfFuel
        ∧ ∀ fuel, (dom_potential nlist d0 < fuel)%nat →
                  Dominators fuel start graph = r)
  ∧ (∀ d1, dom_reachable start graph d1 → shrinks d1 d0)
  ∧ (∀ d1 d2 c,
       dom_reachable start graph d1 →
       Dominators_pass start graph nlist (d1, false) = Ok (d2, c) →
       shrinks d2 d1
       ∧ (c = true → (dom_potential nlist d2 < dom_potential nlist d1)%nat)
       ∧ (c = false → d2 = d1))
  ∧ (preds_listed graph →
     (∃ d, (∀ fuel, (dom_potential nlist d0 < fuel)%nat →
              Dominators fuel start graph = Ok d)
           ∧ Dominators_pass start graph nlist (d, false) = Ok (d, false))
     ∧ ∀ d1, dom_reachable start graph d1 →
             ∃ d2 c, Dominators_pass start graph nlist (d1, false)
                     = Ok (d2, c)).
Proof.
  intros nlist d0. split; [| split; [| split]].
  - destruct (Dominators_loop_cases start graph (dom_potential nlist d0) d0)
      as [[Hfuel _] | (d & Hfuel & _)]; [done | constructor | |].
    + by exists Panic.
    + by exists (Ok d).
  - apply dom_reachable_shrinks.
  - apply Dominators_pass_shrinks.
  - intros Hlisted. split.
    + destruct (Dominators_loop_ok start graph (dom_potential nlist d0) d0)
        as (d & Hfuel & _ & Hfix); [done | done | constructor |].
      by exists d.
    + intros d1 Hd1. by apply Dominators_pass_ok.
Qed.

(** C7.  When the start node is in the node list, every map that
    [Dominators] returns holds for the start node exactly the set with
    the start node alone: the initialization puts that set there, and no
    pass, nor any part of one, changes what the map holds for the start
    node, so every map the loop reaches holds it.  And [Dominators] does
    return, from some fuel on, when listed nodes have listed
    predecessors. *)
Theorem Dominators_start_singleton (start : Z) (graph : Graph float64) :
  start ∈ NodeList graph →
  let nlist := NodeList graph in
  let d0 := dom_init start (collect_nodes nlist) nlist in
  d0 !! start = Some {[start]}
  ∧ (∀ l acc acc', Dominators_pass start graph l acc = Ok acc' →
                   acc'.1 !! start = acc.1 !! start)
  ∧ (∀ d1, dom_reachable start graph d1 → d1 !! start = Some {[start]})
  ∧ (∀ fuel d, Dominators fuel start graph = Ok d →
               d !! start = Some {[start]})
  ∧ (preds_listed graph →
     ∃ d, (∀ fuel, (dom_potential nlist d0 < fuel)%nat →
             Dominators fuel start graph = Ok d)
          ∧ d !! start = Some {[start]}).
Proof.
  intros Hstart nlist d0.
  assert (d0 !! start = Some {[start]}) as H0.
  { unfold d0. rewrite dom_init_lookup.
    rewrite (decide_True (P := start ∈ nlist)) by done.
    by rewrite decide_True. }
  assert (∀ fuel d d', Dominators_loop fuel start graph nlist d = Ok d' →
                       d' !! start = d !! start) as Hloop.
  { induction fuel as [|fuel IH]; intros d d'; simpl; [done |].
    destruct (Dominators_pass start graph nlist (d, false))
      as [acc| |] eqn:Hpass; simpl; [| done..].
    apply Dominators_pass_start in Hpass. simpl in Hpass.
    destruct acc.2; [| intros [= <-]; done].
    intros Hrun. by rewrite (IH _ _ Hrun). }
  split; [done |]. split; [apply Dominators_pass_start |].
  split.
  { induction 1 as [|d d' c _ IH Hrun]; [done |].
    apply Dominators_pass_start in Hrun. simpl in Hrun. by rewrite Hrun. }
  split.
  { intros fuel d Hrun. unfold Dominators in Hrun.
    by rewrite (Hloop _ _ _ Hrun). }
  intros Hlisted.
  destruct (Dominators_loop_ok start graph (dom_potential nlist d0) d0)
    as (d & Hfuel & _ & _); [done | done | constructor |].
  exists d. split; [exact Hfuel |].
  specialize (Hfuel (S (dom_potential nlist d0)) ltac:(lia)).
  by rewrite (Hloop _ _ _ Hfuel).
Qed.

End Dom_theorems.

Lemma graph_of_preds_listed {float64 : Type} nodes edges
    (cost : option (Z → Z → float64)) :
  Forall (λ e, e.1 ∈ nodes) edges → preds_listed (graph_of nodes edges cost).
Proof.
  intros Hall node pred _. simpl.
  intros (e & -> & He)%list_elem_of_fmap.
  apply list_elem_of_filter in He as [_ He].
  by apply (proj1 (Forall_forall _ _) Hall).
Qed.

Lemma diamond_preds_listed : preds_listed diamond.
Proof. apply graph_of_preds_listed. repeat constructor; set_solver. Qed.

Lemma Dominators_terminates_witness :
  ∃ d, Dominators 20 0 diamond = Ok d
       ∧ Dominators_pass 0 diamond (NodeList diamond) (d, false) = Ok (d, false).
Proof.
  destruct (Dominators_terminates 0 diamond) as (_ & _ & _ & Htotal).
  destruct (Htotal diamond_preds_listed) as ((d & Hfuel & Hfix) & _).
  exists d. split; [| exact Hfix]. apply Hfuel. vm_compute. lia.
Defined.

Lemma Dominators_start_singleton_witness :
  ∃ d, Dominators 20 0 diamond = Ok d ∧ d !! 0 = Some {[0]}.
Proof.
  destruct (Dominators_start_singleton 0 diamond ltac:(set_solver))
    as (_ & _ & _ & _ & Htotal).
  destruct (Htotal diamond_preds_listed) as (d & Hfuel & Hd).
  exists d. split; [| exact Hd]. apply Hfuel. vm_compute. lia.
Defined.

(** ** The rounds of [Prim] *)

Section Prim_rounds.
Context {float64 : Type}.
Variable float64_lt : float64 → float64 → bool.
Variable sort_Sort :
  (WeightedEdge float64 → WeightedEdge float64 → bool) →
  list (WeightedEdge float64) → list (WeightedEdge float64).
Variable Cost : Z → Z → float64.
Variable graph : Graph float64.

Local Abbreviation sorted_scan dst remainingNodes :=
  (sort_Sort (edgeSorter_Less float64_lt)
     (Prim_scan Cost dst remainingNodes (EdgeList graph))).

Lemma Prim_loop_unfold fuel edgeList (dst : Dst.t float64) remainingNodes :
  Prim_loop float64_lt sort_Sort fuel Cost edgeList dst remainingNodes
  = if decide (size remainingNodes = 0%nat) then Ok dst
    else match fuel with
         | O => OutOfFuel
         | S fuel' =>
             match sort_Sort (edgeSorter_Less float64_lt)
                     (Prim_scan Cost dst remainingNodes edgeList) with
             | [] => Panic
             | myEdge :: _ =>
                 Prim_loop float64_lt sort_Sort fuel' Cost edgeList
                   (add_to_dst myEdge dst)
                   (remainingNodes ∖ {[(Edge myEdge).2]})
             end
         end.
Proof. by destruct fuel. Qed.

Lemma elem_of_Prim_scan (dst : Dst.t float64) remainingNodes edgeList we :
  we ∈ Prim_scan Cost dst remainingNodes edgeList ↔
  Edge we ∈ edgeList ∧ (Edge we).1 ∈ Dst.nodes dst
  ∧ (Edge we).2 ∈ remainingNodes
  ∧ Weight we = Cost (Edge we).1 (Edge we).2.
Proof.
  induction edgeList as [|edge rest IH]; simpl.
  - split; [by intros ?%elem_of_nil | by intros [?%elem_of_nil _]].
  - unfold Dst.NodeExists.
    destruct (bool_decide (edge.1 ∈ Dst.nodes dst)) eqn:H1;
      [apply bool_decide_eq_true in H1 | apply bool_decide_eq_false in H1];
      (destruct (bool_decide (edge.2 ∈ remainingNodes)) eqn:H2;
       [apply bool_decide_eq_true in H2 | apply bool_decide_eq_false in H2]);
      simpl; rewrite ?elem_of_cons, IH; clear IH.
    1: { split.
         - intros [-> | ?]; [simpl; auto | naive_solver].
         - intros ([Heq | ?] & ? & ? & Hw); [left | naive_solver].
           destruct we as [e w]; simpl in *. by subst. }
    all: split; [naive_solver |];
         intros ([Heq | ?] & ? & ? & ?); [subst; done | done].
Qed.

Lemma add_to_dst_nodes (myEdge : WeightedEdge float64) (dst : Dst.t float64) :
  (Edge myEdge).1 ∈ Dst.nodes dst →
  Dst.nodes (add_to_dst myEdge dst) = {[(Edge myEdge).2]} ∪ Dst.nodes dst.
Proof.
  intros H1. unfold add_to_dst, Dst.NodeExists.
  by rewrite bool_decide_eq_true_2.
Qed.

(** An edge leaves every set of nodes that holds the origin of a path
    and not its end. *)
Lemma reach_crossing (D : NodeSet) a b :
  reach graph a b → a ∈ D → b ∉ D →
  ∃ u v, (u, v) ∈ EdgeList graph ∧ u ∈ D ∧ v ∉ D.
Proof.
  intros Hreach Ha. induction Hreach as [a | a m b Hedge _ IH]; [done |].
  intros Hb. destruct (decide (m ∈ D)) as [Hm | Hm].
  - by apply IH.
  - by exists a, m.
Qed.

End Prim_rounds.

Lemma graph_of_wf {float64 : Type} nodes edges
    (cost : option (Z → Z → float64)) :
  NoDup nodes → Forall (λ e, e.1 ∈ nodes ∧ e.2 ∈ nodes) edges →
  graph_wf (graph_of nodes edges cost).
Proof.
  intros Hnd Hall. split; [done |]. simpl.
  by apply (proj1 (Forall_forall _ _) Hall).
Qed.

Lemma path3_wf : graph_wf path3.
Proof.
  apply graph_of_wf.
  - repeat (apply NoDup_cons; split; [set_solver |]). apply NoDup_nil_2.
  - repeat constructor; set_solver.
Qed.

Lemma path3_connected : connected path3.
Proof.
  assert (reach path3 0 1) as H01 by (apply rtc_once; simpl; set_solver).
  assert (reach path3 1 0) as H10 by (apply rtc_once; simpl; set_solver).
  assert (reach path3 1 2) as H12 by (apply rtc_once; simpl; set_solver).
  assert (reach path3 2 1) as H21 by (apply rtc_once; simpl; set_solver).
  intros a b Ha Hb. simpl in Ha, Hb.
  repeat (apply elem_of_cons in Ha as [-> | Ha]);
    try (by apply elem_of_nil in Ha);
    repeat (apply elem_of_cons in Hb as [-> | Hb]);
    try (by apply elem_of_nil in Hb);
    first [ reflexivity | assumption
          | by (etrans; [exact H01 | exact H12])
          | by (etrans; [exact H21 | exact H10]) ].
Qed.

(** ** The stack discipline of [Tarjan] *)

Section Tarjan_facts.
Context {float64 : Type} (graph : Graph float64) (U : NodeSet).

Lemma map_get_insert (m : gmap Z Z) k v : map_get (<[k := v]> m) k = v.
Proof. unfold map_get. by rewrite lookup_insert_eq. Qed.

Lemma map_get_insert_ne (m : gmap Z Z) k k' v :
  k ≠ k' → map_get (<[k := v]> m) k' = map_get m k'.
Proof. intros. unfold map_get. by rewrite lookup_insert_ne. Qed.

Lemma tarjan_ext_refl st : tarjan_ext st st.
Proof.
  split; [| done | lia].
  exists []. split; [done |]. by intros v Hv%elem_of_nil.
Qed.

Lemma tarjan_ext_indexed st0 st v :
  tarjan_ext st0 st → indexed st0 v → indexed st v.
Proof. intros Hext Hv. unfold indexed. by rewrite (te_indices _ _ Hext). Qed.

Lemma tarjan_ext_trans a b c :
  tarjan_ext a b → tarjan_ext b c → tarjan_ext a c.
Proof.
  intros Hab Hbc.
  destruct (te_stack _ _ Hab) as (s1 & Hs1 & Hn1).
  destruct (te_stack _ _ Hbc) as (s2 & Hs2 & Hn2). split.
  - exists (s2 ++ s1). split; [by rewrite Hs2, Hs1, app_assoc |].
    intros v [Hv | Hv]%elem_of_app; [| by apply Hn1].
    destruct (indices a !! v) as [i|] eqn:Ha; [| done].
    assert (indexed b v) as [j Hj].
    { eapply tarjan_ext_indexed; [done |]. by exists i. }
    specialize (Hn2 v Hv). congruence.
  - intros v Hv. rewrite (te_indices _ _ Hbc).
    + by apply (te_indices _ _ Hab).
    + by eapply tarjan_ext_indexed.
  - pose proof (te_index _ _ Hab). pose proof (te_index _ _ Hbc). lia.
Qed.

Lemma unvisited_ext st0 st :
  tarjan_ext st0 st → (unvisited U st ≤ unvisited U st0)%nat.
Proof.
  intros Hext. unfold unvisited. apply subseteq_size.
  intros v [HN Hv]%elem_of_difference. apply elem_of_difference.
  split; [done |]. intros H0. apply Hv.
  apply elem_of_dom. apply elem_of_dom in H0.
  by eapply tarjan_ext_indexed.
Qed.

Lemma unvisited_discover node st :
  indices st !! node = None → node ∈ U →
  unvisited U st = S (unvisited U (discover node st)).
Proof.
  intros Hnone Hnode. unfold unvisited. simpl. rewrite dom_insert_L.
  assert (node ∈ U ∖ dom (indices st)) as Hin.
  { apply elem_of_difference. split; [done |]. by apply not_elem_of_dom. }
  revert Hin. generalize (dom (indices st)). intros D Hin.
  clear Hnone Hnode.
  assert (U ∖ ({[node]} ∪ D) = (U ∖ D) ∖ {[node]}) as -> by set_solver.
  rewrite (size_difference (U ∖ D) {[node]}) by set_solver.
  rewrite size_singleton.
  assert (size (U ∖ D) ≠ 0)%nat; [| lia].
  apply size_non_empty_iff. set_solver.
Qed.

Lemma discover_ext node st :
  indices st !! node = None → tarjan_ext st (discover node st).
Proof.
  intros Hnone. split; simpl.
  - exists [node]. split; [done |]. by intros v ->%list_elem_of_singleton.
  - intros v [i Hv]. rewrite lookup_insert_ne; [done | congruence].
  - lia.
Qed.

Lemma discover_inv B node st :
  tarjan_inv U B st → indices st !! node = None → node ∈ U →
  tarjan_inv U B (discover node st).
Proof.
  intros Hinv Hnone Hnode.
  assert (¬ indexed st node) as Hnot.
  { intros [i Hv]. congruence. }
  assert (∀ v, indexed st v → node ≠ v) as Hne.
  { intros v Hv ->. by apply Hnot. }
  assert (∀ v, indexed (discover node st) v ↔ v = node ∨ indexed st v) as Hidx.
  { intros v. unfold indexed. simpl. rewrite lookup_insert.
    case_decide; [subst | naive_solver].
    split; [by left | by eexists]. }
  split; simpl.
  - pose proof (ti_bound _ _ _ Hinv). lia.
  - intros v. rewrite elem_of_union, elem_of_singleton, elem_of_cons.
    by rewrite (ti_set _ _ _ Hinv).
  - apply NoDup_cons. split; [| by apply (ti_nodup _ _ _ Hinv)].
    intros Hin. by apply Hnot, (ti_stack _ _ _ Hinv).
  - intros v Hv. apply Hidx. apply elem_of_cons in Hv as [-> | Hv]; [by left |].
    right. by apply (ti_stack _ _ _ Hinv).
  - intros v [-> | Hv]%elem_of_cons.
    + rewrite map_get_insert. apply (ti_bound _ _ _ Hinv).
    + rewrite map_get_insert_ne; [by apply (ti_low _ _ _ Hinv) |].
      by apply Hne, (ti_stack _ _ _ Hinv).
  - intros v [-> | Hv]%Hidx.
    + by rewrite !map_get_insert.
    + rewrite !map_get_insert_ne by (by apply Hne).
      by apply (ti_le _ _ _ Hinv).
  - apply NoDup_cons. split; [| by apply (ti_pushes_nodup _ _ _ Hinv)].
    intros Hin. by apply Hnot, (ti_pushes _ _ _ Hinv).
  - intros v. rewrite elem_of_cons, Hidx. by rewrite (ti_pushes _ _ _ Hinv).
  - by apply (ti_pops_nodup _ _ _ Hinv).
  - intros v Hv. destruct (ti_pops _ _ _ Hinv v Hv) as [Hi Hs].
    split; [apply Hidx; by right |].
    intros [-> | ?]%elem_of_cons; [by apply Hnot | done].
  - intros v [-> | Hv]%Hidx; [done | by apply (ti_listed _ _ _ Hinv)].
Qed.

Lemma tighten_ext node succ st0 st :
  tarjan_ext st0 st → tarjan_ext st0 (tighten node succ st).
Proof. intros [? ? ?]. by split. Qed.

Lemma tighten_inv B node succ st :
  tarjan_inv U B st → node ∈ vStack st → B ≤ map_get (lowlinks st) succ →
  tarjan_inv U B (tighten node succ st).
Proof.
  intros Hinv Hnode Hsucc.
  pose proof (ti_low _ _ _ Hinv node Hnode) as Hlow.
  destruct Hinv. split; simpl; try done.
  - intros v Hv. destruct (decide (node = v)) as [-> | Hne].
    + rewrite map_get_insert. unfold int_min. lia.
    + rewrite map_get_insert_ne by done. by apply ti_low0.
  - intros v Hv. destruct (decide (node = v)) as [-> | Hne].
    + rewrite map_get_insert. specialize (ti_le0 v Hv). unfold int_min. lia.
    + rewrite map_get_insert_ne by done. by apply ti_le0.
Qed.

Lemma strongconnect_pop_ok node s' stack0 sset log scc :
  node ∉ s' →
  ∃ sset' log',
    strongconnect_pop node (s' ++ node :: stack0) sset log scc
    = Ok (scc ++ s' ++ [node], (stack0, sset', log'))
    ∧ (∀ v, v ∈ sset' ↔ v ≠ node ∧ v ∈ sset ∧ v ∉ s')
    ∧ (log' ≡ₚ s' ++ node :: log).
Proof.
  revert sset log scc. induction s' as [|x s' IH]; intros sset log scc Hnot.
  - simpl. rewrite decide_True by done.
    eexists _, _. split; [done |]. split; [| done].
    intros v. rewrite elem_of_difference, elem_of_singleton.
    split; [intros [? ?]; split_and!; [done | done | by intros ?%elem_of_nil]
           | naive_solver].
  - apply not_elem_of_cons in Hnot as [Hne Hnot]. simpl.
    rewrite decide_False by done.
    destruct (IH (sset ∖ {[x]}) (x :: log) (scc ++ [x]) Hnot)
      as (sset' & log' & -> & Hset & Hlog).
    exists sset', log'. split; [by rewrite <- !app_assoc |]. split.
    + intros v. rewrite Hset, elem_of_difference, elem_of_singleton,
        not_elem_of_cons. naive_solver.
    + etrans; [exact Hlog |]. simpl.
      change (s' ++ node :: x :: log) with (s' ++ [node] ++ x :: log).
      rewrite app_assoc, <- Permutation_middle. simpl.
      by rewrite <- app_assoc.
Qed.

Lemma strongconnect_pop_inv B st node s' stack0 sset' log' :
  tarjan_inv U B st → vStack st = s' ++ node :: stack0 →
  (∀ v, v ∈ sset' ↔ v ≠ node ∧ v ∈ stackSet st ∧ v ∉ s') →
  log' ≡ₚ s' ++ node :: pops st →
  tarjan_inv U B {| index := index st; vStack := stack0;
                        stackSet := sset'; lowlinks := lowlinks st;
                        indices := indices st; pushes := pushes st;
                        pops := log' |}.
Proof.
  intros Hinv Hstack Hset Hlog.
  pose proof (ti_nodup _ _ _ Hinv) as Hnd. rewrite Hstack in Hnd.
  apply NoDup_app in Hnd as (Hnd1 & Hdisj & Hnd2).
  apply NoDup_cons in Hnd2 as [Hnode Hnd0].
  assert (∀ v, v ∈ stack0 → v ∈ vStack st) as Hsub.
  { intros v Hv. rewrite Hstack. apply elem_of_app. right. by right. }
  assert (node ∈ vStack st) as Hnode_in.
  { rewrite Hstack. apply elem_of_app. right. by left. }
  assert (∀ v, v ∈ s' → v ∈ vStack st) as Hsub'.
  { intros v Hv. rewrite Hstack. apply elem_of_app. by left. }
  split; simpl.
  - apply (ti_bound _ _ _ Hinv).
  - intros v. rewrite Hset, (ti_set _ _ _ Hinv), Hstack, elem_of_app,
      elem_of_cons. split.
    + intros (Hne & [Hv | [-> | Hv]] & Hns); done.
    + intros Hv. split_and!; [by intros -> | by right; right |].
      intros Hs. apply (Hdisj v Hs). by right.
  - done.
  - intros v Hv. by apply (ti_stack _ _ _ Hinv), Hsub.
  - intros v Hv. by apply (ti_low _ _ _ Hinv), Hsub.
  - apply (ti_le _ _ _ Hinv).
  - apply (ti_pushes_nodup _ _ _ Hinv).
  - apply (ti_pushes _ _ _ Hinv).
  - rewrite Hlog. apply NoDup_app. split_and!; [done | |].
    + intros v Hv [-> | Hp]%elem_of_cons.
      * apply (Hdisj node Hv). by left.
      * by apply (ti_pops _ _ _ Hinv v Hp), Hsub'.
    + apply NoDup_cons. split; [| apply (ti_pops_nodup _ _ _ Hinv)].
      intros Hp. by apply (ti_pops _ _ _ Hinv node Hp).
  - intros v Hv. rewrite Hlog in Hv.
    change (indexed st v ∧ v ∉ stack0).
    apply elem_of_app in Hv as [Hv | [-> | Hv]%elem_of_cons].
    + split; [by apply (ti_stack _ _ _ Hinv), Hsub' |].
      intros H0. apply (Hdisj v Hv). by right.
    + split; [by apply (ti_stack _ _ _ Hinv) | done].
    + destruct (ti_pops _ _ _ Hinv v Hv) as [Hi Hs].
      split; [done |]. intros H0. by apply Hs, Hsub.
  - apply (ti_listed _ _ _ Hinv).
Qed.

Lemma strongconnect_succs_ok f node B :
  strongconnect_spec graph U f →
  ∀ succs st,
    (∀ s, s ∈ succs → s ∈ U) →
    tarjan_inv U B st → node ∈ vStack st →
    (unvisited U st ≤ f)%nat →
    ∃ st', strongconnect_succs (strongconnect f graph) node succs st = Ok st'
           ∧ tarjan_inv U B st' ∧ tarjan_ext st st'.
Proof.
  intros Hrec. induction succs as [|succ rest IH]; intros st Hl Hinv Hnode Hf.
  - exists st. split; [done |]. split; [done | apply tarjan_ext_refl].
  - assert (∀ s, s ∈ rest → s ∈ U) as Hl'.
    { intros s Hs. apply Hl. by right. }
    simpl. destruct (indices st !! succ) as [i|] eqn:Hsucc.
    + case_decide as Hon.
      * destruct (IH (tighten node succ st)) as (st' & Hrun & Hinv' & Hext');
          [done | | done | done |].
        { apply tighten_inv; [done.. |].
          by apply (ti_low _ _ _ Hinv), (ti_set _ _ _ Hinv). }
        exists st'. split; [done |]. split; [done |].
        destruct Hext'. by split.
      * by apply IH.
    + destruct (Hrec succ st B Hinv Hsucc) as (scc & st1 & -> & Hpost);
        [apply Hl; by left | done |].
      destruct Hpost as (Hinv1 & Hext1 & _ & Hlow1 & _). simpl.
      assert (node ∈ vStack st1) as Hnode1.
      { destruct (te_stack _ _ Hext1) as (s' & -> & _).
        apply elem_of_app. by right. }
      destruct (IH (tighten node succ st1)) as (st' & Hrun & Hinv' & Hext');
        [done | by apply tighten_inv | done | |].
      { pose proof (unvisited_ext _ _ Hext1). unfold unvisited in *. simpl. lia. }
      exists st'. split; [done |]. split; [done |].
      eapply tarjan_ext_trans; [exact Hext1 |].
      destruct Hext'. by split.
Qed.

Lemma strongconnect_ok :
  successor_closed graph U → ∀ fuel, strongconnect_spec graph U fuel.
Proof.
  intros Hsuccs. induction fuel as [|f IHf];
    intros node st B Hinv Hnone Hnode Hfuel;
    pose proof (unvisited_discover node st Hnone Hnode) as Hunv; [lia |].
  set (st1 := discover node st).
  destruct (strongconnect_succs_ok f node B IHf (Successors graph node) st1)
    as (st2 & Hrun & Hinv2 & Hext2).
  { intros s Hs. by eapply (proj2 Hsuccs). }
  { by apply discover_inv. }
  { by left. }
  { fold st1 in Hunv. lia. }
  pose proof (discover_ext node st Hnone) as Hext1. fold st1 in Hext1.
  pose proof (tarjan_ext_trans _ _ _ Hext1 Hext2) as Hext.
  assert (indices st2 !! node = Some (index st)) as Hidx.
  { rewrite (te_indices _ _ Hext2); simpl; [by rewrite lookup_insert_eq |].
    unfold indexed. simpl. rewrite lookup_insert_eq. by eexists. }
  destruct (te_stack _ _ Hext2) as (s' & Hstack & Hnew). simpl in Hstack.
  assert (node ∈ vStack st2) as Hnode2.
  { rewrite Hstack. apply elem_of_app. right. by left. }
  assert (node ∉ s') as Hnot.
  { pose proof (ti_nodup _ _ _ Hinv2) as Hnd. rewrite Hstack in Hnd.
    apply NoDup_app in Hnd as (_ & Hdisj & _).
    intros Hs. apply (Hdisj node Hs). by left. }
  pose proof (ti_low _ _ _ Hinv2 node Hnode2) as Hlow.
  change (strongconnect (S f) graph node st)
    with (st1' ←! strongconnect_succs (strongconnect f graph) node
                    (Successors graph node) st1;
          if decide (map_get (lowlinks st1') node = map_get (indices st1') node)
          then
            r ←! strongconnect_pop node (vStack st1') (stackSet st1')
                   (pops st1') [];
            Ok (r.1, {| index := index st1';
                        vStack := r.2.1.1;
                        stackSet := r.2.1.2;
                        lowlinks := lowlinks st1';
                        indices := indices st1';
                        pushes := pushes st1';
                        pops := r.2.2 |})
          else Ok ([], st1')).
  rewrite Hrun. simpl.
  assert (map_get (indices st2) node = index st) as Hget.
  { unfold map_get. by rewrite Hidx. }
  rewrite Hget. case_decide as Hroot.
  - destruct (strongconnect_pop_ok node s' (vStack st) (stackSet st2)
                (pops st2) [] Hnot) as (sset' & log' & Hpop & Hset & Hlog).
    rewrite Hstack, Hpop. simpl.
    eexists _, _. split; [done |].
    split; [by eapply strongconnect_pop_inv |].
    split.
    { split; simpl.
      - exists []. split; [done |]. by intros v Hv%elem_of_nil.
      - apply (te_indices _ _ Hext).
      - apply (te_index _ _ Hext). }
    split; [done |]. split; [done |]. right.
    split; [done |]. split; [done |]. split; [by exists s' |].
    split.
    { pose proof (ti_nodup _ _ _ Hinv2) as Hnd. rewrite Hstack in Hnd.
      apply NoDup_app in Hnd as (Hnd1 & Hdisj & _).
      apply NoDup_app. split_and!; [done | | apply NoDup_singleton].
      intros v Hv ->%list_elem_of_singleton. by apply Hnot. }
    intros v Hv. split.
    + apply elem_of_app in Hv as [Hv | ->%list_elem_of_singleton]; [| done].
      specialize (Hnew v Hv). simpl in Hnew.
      apply lookup_insert_None in Hnew as [Hnew _]. done.
    + apply (ti_stack _ _ _ Hinv2). rewrite Hstack.
      apply elem_of_app in Hv as [Hv | ->%list_elem_of_singleton];
        apply elem_of_app; [by left | right; by left].
  - eexists _, _. split; [done |].
    split; [done |]. split; [done |]. split; [done |]. split; [done |].
    left. done.
Qed.

Lemma tarjan_inv_rebase B st :
  tarjan_inv U B st → vStack st = [] → tarjan_inv U (index st) st.
Proof.
  intros Hinv Hnil. destruct Hinv. split; try done.
  rewrite Hnil. by intros v Hv%elem_of_nil.
Qed.

(** A call made by the loop of [Tarjan] finds the stack empty, returns a
    component that ends in its starting node, and leaves the stack
    empty. *)
Lemma strongconnect_toplevel fuel n st :
  successor_closed graph U →
  tarjan_inv U (index st) st → vStack st = [] →
  indices st !! n = None → n ∈ U →
  (unvisited U st ≤ fuel)%nat →
  ∃ scc st', strongconnect fuel graph n st = Ok (scc, st')
             ∧ tarjan_inv U (index st') st' ∧ vStack st' = []
             ∧ tarjan_ext st st'
             ∧ (∃ s', scc = s' ++ [n]) ∧ NoDup scc
             ∧ ∀ v, v ∈ scc → indices st !! v = None ∧ indexed st' v.
Proof.
  intros Hsuccs Hinv Hnil Hnone Hn Hfuel.
  destruct (strongconnect_ok Hsuccs fuel n st (index st) Hinv Hnone Hn Hfuel)
    as (scc & st' & Hrun & Hinv' & Hext & Hidx & Hlow & Hcase).
  exists scc, st'. split; [done |].
  assert (map_get (lowlinks st') n ≤ index st) as Hle.
  { pose proof (ti_le _ _ _ Hinv' n ltac:(by eexists)) as H.
    unfold map_get at 2 in H. by rewrite Hidx in H. }
  destruct Hcase as [(_ & _ & Hne) | (Hst & _ & Hs & Hnd & Hall)]; [lia |].
  rewrite Hnil in Hst.
  split; [by eapply tarjan_inv_rebase |]. done.
Qed.

Lemma elem_of_concat (l : list (list Z)) v :
  v ∈ concat l ↔ ∃ x, x ∈ l ∧ v ∈ x.
Proof.
  induction l as [|y l IH]; simpl.
  - split; [by intros ?%elem_of_nil | by intros (x & ?%elem_of_nil & _)].
  - rewrite elem_of_app, IH. split.
    + intros [Hv | (x & Hx & Hv)]; [exists y | exists x];
        (split; [| done]); [by left | by right].
    + intros (x & [-> | Hx]%elem_of_cons & Hv); [by left | right; by exists x].
Qed.

Lemma NoDup_concat_disjoint (l : list (list Z)) i j a b v :
  NoDup (concat l) → i ≠ j → l !! i = Some a → l !! j = Some b →
  v ∈ a → v ∉ b.
Proof.
  revert i j. induction l as [|x l IH]; intros i j Hnd Hij Hi Hj Ha Hb;
    [done |].
  simpl in Hnd. apply NoDup_app in Hnd as (_ & Hdisj & Hnd).
  destruct i as [|i], j as [|j]; simplify_eq/=.
  - apply (Hdisj v Ha). apply elem_of_concat. exists b.
    split; [by eapply list_elem_of_lookup_2 | done].
  - apply (Hdisj v Hb). apply elem_of_concat. exists a.
    split; [by eapply list_elem_of_lookup_2 | done].
  - apply (IH i j); [done | congruence | done..].
Qed.

Lemma Tarjan_loop_ok fuel :
  successor_closed graph U →
  ∀ l st sccs,
    (∀ n, n ∈ l → n ∈ U) →
    driver_inv U st sccs → (unvisited U st ≤ fuel)%nat →
    ∃ sccs' st', Tarjan_loop fuel graph l st sccs = Ok (sccs', st')
                 ∧ driver_inv U st' sccs'.
Proof.
  intros Hsuccs. induction l as [|n rest IH]; intros st sccs Hl Hdrv Hfuel.
  - by exists sccs, st.
  - assert (∀ m, m ∈ rest → m ∈ U) as Hl'.
    { intros m Hm. apply Hl. by right. }
    simpl. destruct (indices st !! n) as [i|] eqn:Hn; [by apply IH |].
    destruct Hdrv as (Hinv & Hnil & Hne & Hnd & Hidx).
    destruct (strongconnect_toplevel fuel n st Hsuccs Hinv Hnil Hn)
      as (scc & st' & -> & Hinv' & Hnil' & Hext & (s' & Hs) & Hnd' & Hall);
      [apply Hl; by left | done |].
    simpl. apply IH; [done | |].
    + split; [done |]. split; [done |]. split; [| split].
      * apply Forall_app. split; [done |]. apply Forall_singleton.
        rewrite Hs. by destruct s'.
      * rewrite concat_app. simpl. rewrite app_nil_r.
        apply NoDup_app. split; [done |]. split; [| done].
        intros v Hv Hscc. destruct (Hidx v Hv) as [j Hj].
        destruct (Hall v Hscc) as [Hnone _]. congruence.
      * intros v. rewrite concat_app. simpl. rewrite app_nil_r.
        intros [Hv | Hv]%elem_of_app.
        -- eapply tarjan_ext_indexed; [done |]. by apply Hidx.
        -- by apply Hall.
    + pose proof (unvisited_ext _ _ Hext). lia.
Qed.

Lemma tarjan_init_inv : driver_inv U tarjan_init [].
Proof.
  assert (∀ v, ¬ indexed tarjan_init v) as Hno.
  { intros v [i Hi]. simpl in Hi. by rewrite lookup_empty in Hi. }
  split; [| split; [done |]; split; [done |]; split;
             [constructor | by intros v Hv%elem_of_nil]].
  split; simpl.
  - done.
  - intros v. split; [by intros ?%elem_of_empty | by intros ?%elem_of_nil].
  - apply NoDup_nil_2.
  - by intros v Hv%elem_of_nil.
  - by intros v Hv%elem_of_nil.
  - intros v Hv. by destruct (Hno v).
  - apply NoDup_nil_2.
  - intros v. split; [by intros ?%elem_of_nil | intros Hv; by destruct (Hno v)].
  - apply NoDup_nil_2.
  - by intros v Hv%elem_of_nil.
  - intros v Hv. by destruct (Hno v).
Qed.

Lemma unvisited_le_size st : (unvisited U st ≤ size U)%nat.
Proof. unfold unvisited. apply subseteq_size. set_solver. Qed.

Lemma driver_at_inv fuel l st :
  successor_closed graph U → (size U ≤ fuel)%nat →
  driver_at graph fuel l st →
  (∀ n, n ∈ l → n ∈ U)
  ∧ tarjan_inv U (index st) st ∧ vStack st = [].
Proof.
  intros Hsuccs Hfuel.
  induction 1 as [| n rest st _ (Hl & Hinv & Hnil) _
                  | n rest st scc st' _ (Hl & Hinv & Hnil) Hn Hrun].
  - split; [apply (proj1 Hsuccs) |]. by destruct tarjan_init_inv as (? & ? & _).
  - split; [| done]. intros m Hm. apply Hl. by right.
  - split; [intros m Hm; apply Hl; by right |].
    destruct (strongconnect_toplevel fuel n st Hsuccs Hinv Hnil Hn)
      as (scc1 & st1 & Hrun1 & Hinv1 & Hnil1 & _);
      [apply Hl; by left | |].
    { pose proof (unvisited_le_size st). lia. }
    rewrite Hrun1 in Hrun. by simplify_eq.
Qed.

End Tarjan_facts.

Section Tarjan_theorems.
Context {float64 : Type}.

(** C10.  Let [U] be a finite set of nodes that holds the listed nodes
    and the successors of its members (the node list itself when listed
    nodes have listed successors), and let the fuel allow a recursion as
    deep as [U] is large.  Then [Tarjan] returns.  The components it
    returns are non-nil and pairwise disjoint (no node occurs twice in
    all of them together).  A node is pushed on the stack at most once,
    namely when it gets its discovery index, and popped at most once.
    Every call [strongconnect(n)] that the loop of [Tarjan] makes returns
    a component that holds [n], as its last element. *)
Theorem Tarjan_components (graph : Graph float64) (U : NodeSet) (fuel : nat) :
  successor_closed graph U → (size U ≤ fuel)%nat →
  ∃ sccs st,
    Tarjan_run fuel graph = Ok (sccs, st)
    ∧ Tarjan fuel graph = Ok sccs
    ∧ Forall (λ scc, scc ≠ []) sccs
    ∧ (∀ i j a b v, i ≠ j → sccs !! i = Some a → sccs !! j = Some b →
                    v ∈ a → v ∉ b)
    ∧ NoDup (concat sccs)
    ∧ NoDup (pushes st)
    ∧ (∀ v, v ∈ pushes st ↔ indexed st v)
    ∧ NoDup (pops st)
    ∧ ∀ n rest st0,
        driver_at graph fuel (n :: rest) st0 → indices st0 !! n = None →
        ∃ s' st1, strongconnect fuel graph n st0 = Ok (s' ++ [n], st1).
Proof.
  intros Hclosed Hfuel.
  destruct (Tarjan_loop_ok graph U fuel Hclosed (NodeList graph) tarjan_init [])
    as (sccs & st & Hrun & Hinv & Hnil & Hne & Hnd & Hidx).
  { apply (proj1 Hclosed). }
  { apply tarjan_init_inv. }
  { pose proof (unvisited_le_size U tarjan_init). lia. }
  exists sccs, st. split; [done |].
  split; [unfold Tarjan, Tarjan_run; by rewrite Hrun |].
  split; [done |].
  split; [intros i j a b v; by apply NoDup_concat_disjoint |].
  split; [done |].
  split; [apply (ti_pushes_nodup _ _ _ Hinv) |].
  split; [apply (ti_pushes _ _ _ Hinv) |].
  split; [apply (ti_pops_nodup _ _ _ Hinv) |].
  intros n rest st0 Hat Hn.
  destruct (driver_at_inv graph U fuel _ _ Hclosed Hfuel Hat)
    as (Hl & Hinv0 & Hnil0).
  destruct (strongconnect_toplevel graph U fuel n st0 Hclosed Hinv0 Hnil0 Hn)
    as (scc & st1 & Hcall & _ & _ & _ & (s' & ->) & _);
    [apply Hl; by left | |].
  { pose proof (unvisited_le_size U st0). lia. }
  by exists s', st1.
Qed.

(** When listed nodes have listed successors, the node list is such a
    set. *)
Lemma succs_listed_closed (graph : Graph float64) :
  succs_listed graph →
  successor_closed graph (list_to_set (NodeList graph)).
Proof.
  intros Hsuccs. split.
  - intros node Hnode. by apply elem_of_list_to_set.
  - intros node succ Hnode%elem_of_list_to_set Hsucc.
    apply elem_of_list_to_set. by eapply Hsuccs.
Qed.

End Tarjan_theorems.

Lemma graph_of_succs_listed {float64 : Type} nodes edges
    (cost : option (Z → Z → float64)) :
  Forall (λ e, e.2 ∈ nodes) edges → succs_listed (graph_of nodes edges cost).
Proof.
  intros Hall node succ _. simpl.
  intros (e & -> & He)%list_elem_of_fmap.
  apply list_elem_of_filter in He as [_ He].
  by apply (proj1 (Forall_forall _ _) Hall).
Qed.

Lemma two_cycles_succs_listed : succs_listed two_cycles.
Proof. apply graph_of_succs_listed. repeat constructor; set_solver. Qed.

(** [Tarjan] on [two_cycles]: two top-level calls, two components. *)
Lemma Tarjan_components_witness :
  ∃ sccs, Tarjan 4 two_cycles = Ok sccs
          ∧ Forall (λ scc, scc ≠ []) sccs ∧ NoDup (concat sccs).
Proof.
  destruct (Tarjan_components two_cycles (list_to_set (NodeList two_cycles)) 4
              (succs_listed_closed _ two_cycles_succs_listed)
              ltac:(vm_compute; lia))
    as (sccs & st & _ & Hrun & Hne & _ & Hnd & _).
  by exists sccs.
Defined.

(** ** The cost function that [Prim] and [Kruskal] use *)

Section Cost_precedence.
Context {float64 : Type}.
Variable float64_lt : float64 → float64 → bool.
Variable float64_one : float64.
Variable sort_Sort :
  (WeightedEdge float64 → WeightedEdge float64 → bool) →
  list (WeightedEdge float64) → list (WeightedEdge float64).

Lemma add_to_dst_costs cost (myEdge : WeightedEdge float64) dst :
  Weight myEdge = cost (Edge myEdge).1 (Edge myEdge).2 →
  costs_from cost dst → costs_from cost (add_to_dst myEdge dst).
Proof.
  intros Hw Hdst a b w. unfold add_to_dst, Dst.SetEdgeCost.
  destruct myEdge as [[e1 e2] we]. simpl in *. subst we.
  set (dst1 := if negb (Dst.NodeExists dst e1)
               then Dst.AddNode e1 [e2] dst else Dst.AddEdge e1 e2 dst).
  assert (Dst.costs dst1 = Dst.costs dst) as Hc.
  { unfold dst1. by destruct (negb (Dst.NodeExists dst e1)). }
  simpl. rewrite Hc. destruct (Dst.directed dst1).
  - rewrite lookup_insert. case_decide as Heq; [| apply Hdst].
    intros [= <-]. left. congruence.
  - rewrite lookup_insert. case_decide as Heq.
    + intros [= <-]. right. congruence.
    + rewrite lookup_insert. case_decide as Heq'; [| apply Hdst].
      intros [= <-]. left. congruence.
Qed.

Hypothesis Hsort :
  sort_contract (edgeSorter_Less float64_lt)
                (sort_Sort (edgeSorter_Less float64_lt)).

Lemma Prim_loop_costs cost fuel edgeList (dst dst' : Dst.t float64) rem :
  costs_from cost dst →
  Prim_loop float64_lt sort_Sort fuel cost edgeList dst rem = Ok dst' →
  costs_from cost dst'.
Proof.
  revert dst rem. induction fuel as [|fuel IH]; intros dst rem Hdst;
    rewrite Prim_loop_unfold; case_decide; try by intros [= <-]. 
  destruct (sort_Sort _ (Prim_scan cost dst rem edgeList))
    as [|myEdge others] eqn:Hsorted; [done |].
  apply IH. apply add_to_dst_costs; [| done].
  assert (myEdge ∈ Prim_scan cost dst rem edgeList) as Hin.
  { destruct (Hsort (Prim_scan cost dst rem edgeList)) as [Hperm _].
    rewrite <- Hperm, Hsorted. by left. }
  by apply elem_of_Prim_scan in Hin as (_ & _ & _ & Hw).
Qed.

Lemma Kruskal_fold_costs cost (l : list (WeightedEdge float64)) acc :
  (∀ we, we ∈ l → Weight we = cost (Edge we).1 (Edge we).2) →
  costs_from cost acc.2 →
  costs_from cost (foldl (Kruskal_step (float64 := float64)) acc l).2.
Proof.
  revert acc. induction l as [|we l IH]; intros acc Hl Hacc; simpl; [done |].
  apply IH; [intros x Hx; apply Hl; by right |].
  unfold Kruskal_step. case_decide; [| done]. simpl.
  apply add_to_dst_costs; [apply Hl; by left | done].
Qed.

Lemma add_to_dst_recorded cost (graph : Graph float64)
    (myEdge : WeightedEdge float64) dst :
  Dst.directed dst = false → Edge myEdge ∈ EdgeList graph →
  Weight myEdge = cost (Edge myEdge).1 (Edge myEdge).2 →
  costs_recorded cost graph dst →
  costs_recorded cost graph (add_to_dst myEdge dst)
  ∧ Dst.directed (add_to_dst myEdge dst) = false.
Proof.
  intros Hd He Hw Hdst.
  destruct myEdge as [[e1 e2] we]. simpl in *. subst we.
  unfold add_to_dst, Dst.SetEdgeCost. simpl.
  set (dst1 := if negb (Dst.NodeExists dst e1)
               then Dst.AddNode e1 [e2] dst else Dst.AddEdge e1 e2 dst).
  assert (Dst.costs dst1 = Dst.costs dst ∧ Dst.directed dst1 = false
          ∧ Dst.edges dst1 = {[(e1, e2); (e2, e1)]} ∪ Dst.edges dst)
    as (Hc & Hd1 & HE).
  { unfold dst1. destruct (negb (Dst.NodeExists dst e1)); simpl;
      by rewrite Hd. }
  rewrite Hc, Hd1, HE. split; [| done].
  intros a b Hab. simpl in Hab |- *.
  destruct (decide ((e2, e1) = (a, b))) as [[= <- <-] | Hn21].
  { exists (cost e1 e2). rewrite lookup_insert_eq. split; [done |].
    right. done. }
  rewrite lookup_insert_ne by done.
  destruct (decide ((e1, e2) = (a, b))) as [[= <- <-] | Hn12].
  { exists (cost e1 e2). rewrite lookup_insert_eq. split; [done |].
    left. done. }
  rewrite lookup_insert_ne by done.
  apply Hdst. set_solver.
Qed.

Lemma Prim_loop_recorded cost (graph : Graph float64) fuel
    (dst dst' : Dst.t float64) rem :
  Dst.directed dst = false → costs_recorded cost graph dst →
  Prim_loop float64_lt sort_Sort fuel cost (EdgeList graph) dst rem = Ok dst' →
  costs_recorded cost graph dst'.
Proof.
  revert dst rem. induction fuel as [|fuel IH]; intros dst rem Hd Hdst;
    rewrite Prim_loop_unfold; case_decide; try by intros [= <-].
  destruct (sort_Sort _ (Prim_scan cost dst rem (EdgeList graph)))
    as [|myEdge others] eqn:Hsorted; [done |].
  assert (myEdge ∈ Prim_scan cost dst rem (EdgeList graph)) as Hin.
  { destruct (Hsort (Prim_scan cost dst rem (EdgeList graph))) as [Hperm _].
    rewrite <- Hperm, Hsorted. by left. }
  apply elem_of_Prim_scan in Hin as (He & _ & _ & Hw).
  destruct (add_to_dst_recorded cost graph myEdge dst Hd He Hw Hdst)
    as [Hdst1 Hd1].
  by apply IH.
Qed.

Lemma Kruskal_fold_recorded cost (graph : Graph float64)
    (l : list (WeightedEdge float64)) acc :
  (∀ we, we ∈ l → Edge we ∈ EdgeList graph
                  ∧ Weight we = cost (Edge we).1 (Edge we).2) →
  Dst.directed acc.2 = false → costs_recorded cost graph acc.2 →
  costs_recorded cost graph
    (foldl (Kruskal_step (float64 := float64)) acc l).2.
Proof.
  revert acc. induction l as [|we l IH]; intros acc Hl Hd Hacc; simpl;
    [done |].
  destruct (Hl we) as [He Hw]; [by left |].
  assert (Dst.directed (Kruskal_step acc we).2 = false
          ∧ costs_recorded cost graph (Kruskal_step acc we).2) as [Hd1 Hacc1].
  { unfold Kruskal_step. case_decide; [| done]. cbn [snd].
    destruct (add_to_dst_recorded cost graph we acc.2 Hd He Hw Hacc). done. }
  apply IH; [| done | done]. intros x Hx. apply Hl. by right.
Qed.

(** C4.  [Prim] and [Kruskal] resolve the cost function by the same
    precedence.  Each runs as it runs on the cost function that the rule
    names, given explicitly: the argument when it is not nil, otherwise
    the [Cost] of the graph when the graph implements [Coster], otherwise
    [UniformCost], which is 1 on every pair.  That function is the one
    that is used.  Every cost that either of them records in the
    destination is its value on the recorded edge; every edge that either
    of them puts into the destination has a recorded cost, the value of
    that function on the edge of the edge list that was put in; the
    rounds of [Prim] are the rounds of its loop with that function
    weighing the candidates; and the scan of [Kruskal] is the scan over
    the edge list sorted with that function giving the weights. *)
Theorem cost_precedence (graph : Graph float64)
    (Cost : option (Z → Z → float64)) :
  let cost := resolved_cost float64_one graph Cost in
  (∀ c, Cost = Some c → cost = c)
  ∧ (∀ c, Cost = None → Coster_Cost graph = Some c → cost = c)
  ∧ (Cost = None → Coster_Cost graph = None →
     cost = UniformCost float64_one ∧ ∀ a b, cost a b = float64_one)
  ∧ (∀ fuel dst,
       Prim float64_lt float64_one sort_Sort fuel dst graph Cost
       = Prim float64_lt float64_one sort_Sort fuel dst graph (Some cost))
  ∧ (∀ dst,
       Kruskal float64_lt float64_one sort_Sort dst graph Cost
       = Kruskal float64_lt float64_one sort_Sort dst graph (Some cost))
  ∧ (∀ fuel dst dst',
       Prim float64_lt float64_one sort_Sort fuel dst graph Cost = Ok dst' →
       costs_from cost dst')
  ∧ (∀ dst,
       costs_from cost
         (Kruskal float64_lt float64_one sort_Sort dst graph Cost))
  ∧ (∀ fuel dst dst',
       Prim float64_lt float64_one sort_Sort fuel dst graph Cost = Ok dst' →
       costs_recorded cost graph dst')
  ∧ (∀ dst,
       costs_recorded cost graph
         (Kruskal float64_lt float64_one sort_Sort dst graph Cost))
  ∧ (∀ fuel dst n0 rest,
       NodeList graph = n0 :: rest →
       Prim float64_lt float64_one sort_Sort fuel dst graph Cost
       = Prim_loop float64_lt sort_Sort fuel cost (EdgeList graph)
           (Prim_dst0 n0) (foldl (λ s node, {[node]} ∪ s) ∅ rest))
  ∧ ∀ dst,
      Kruskal float64_lt float64_one sort_Sort dst graph Cost
      = (foldl Kruskal_step
           (foldl (λ ds node, DisjointSet.MakeSet node ds)
                  DisjointSet.NewDisjointSet (NodeList graph),
            Dst.SetDirected false (Dst.EmptyGraph dst))
           (Kruskal_sorted float64_lt sort_Sort cost graph)).2.
Proof.
  intros cost.
  assert (cost = match Cost with
                 | Some c => c
                 | None => match Coster_Cost graph with
                           | Some c => c
                           | None => UniformCost float64_one
                           end
                 end) as Hcost.
  { unfold cost, resolved_cost. destruct Cost; [done |].
    by destruct (Coster_Cost graph). }
  assert (∀ we, we ∈ Kruskal_sorted float64_lt sort_Sort cost graph →
                Edge we ∈ EdgeList graph
                ∧ Weight we = cost (Edge we).1 (Edge we).2) as Hsorted.
  { intros we Hwe. unfold Kruskal_sorted in Hwe.
    destruct (Hsort ((λ edge, {| Edge := edge;
                                 Weight := cost edge.1 edge.2 |})
                       <$> EdgeList graph)) as [Hperm _].
    rewrite Hperm in Hwe.
    by apply list_elem_of_fmap in Hwe as (e & -> & He). }
  split; [intros c HC; rewrite Hcost; by rewrite HC |].
  split; [intros c HC HG; rewrite Hcost; by rewrite HC, HG |].
  split; [intros HC HG; rewrite Hcost; by rewrite HC, HG |].
  split; [intros fuel dst; unfold Prim; by rewrite <- Hcost |].
  split; [intros dst; unfold Kruskal; by rewrite <- Hcost |].
  split.
  { intros fuel dst dst'. unfold Prim. rewrite <- Hcost.
    destruct (NodeList graph) as [|n0 rest].
    + intros [= <-]. intros a b w. simpl. by rewrite lookup_empty.
    + apply Prim_loop_costs. intros a b w. simpl. by rewrite lookup_empty. }
  split.
  { intros dst. unfold Kruskal. rewrite <- Hcost.
    apply Kruskal_fold_costs.
    + intros we Hwe. by apply Hsorted.
    + intros a b w. simpl. by rewrite lookup_empty. }
  split.
  { intros fuel dst dst'. unfold Prim. rewrite <- Hcost.
    destruct (NodeList graph) as [|n0 rest].
    + intros [= <-]. intros a b Hab. simpl in Hab.
      by apply elem_of_empty in Hab.
    + apply Prim_loop_recorded; [done |].
      intros a b Hab. simpl in Hab. by apply elem_of_empty in Hab. }
  split.
  { intros dst. unfold Kruskal. rewrite <- Hcost.
    apply Kruskal_fold_recorded; [done | done |].
    intros a b Hab. simpl in Hab. by apply elem_of_empty in Hab. }
  split.
  { intros fuel dst n0 rest Hn. unfold Prim. rewrite <- Hcost.
    by rewrite Hn. }
  intros dst. unfold Kruskal. by rewrite <- Hcost.
Qed.

End Cost_precedence.

(** With the stable insertion sort on integer weights, on [path3], whose
    own [Cost] is the sum of the end points: [Prim] and [Kruskal] put the
    edge 1 - 2 into the destination. *)
Example Prim_path3_edge :
  (∃ dst', Prim Z.ltb 1 stable_sort 3 dst_empty path3 (Some Z.mul) = Ok dst'
           ∧ (1, 2) ∈ Dst.edges dst')
  ∧ (∃ dst', Prim Z.ltb 1 stable_sort 3 dst_empty path3 None = Ok dst'
             ∧ (1, 2) ∈ Dst.edges dst')
  ∧ (∃ dst', Prim Z.ltb 1 stable_sort 3 dst_empty (with_Coster path3 None)
               None = Ok dst'
             ∧ (1, 2) ∈ Dst.edges dst')
  ∧ (1, 2) ∈ Dst.edges (Kruskal Z.ltb 1 stable_sort dst_empty path3
                          (Some Z.mul)).
Proof.
  split; [eexists; split; [by vm_compute | by vm_compute] |].
  split; [eexists; split; [by vm_compute | by vm_compute] |].
  split; [eexists; split; [by vm_compute | by vm_compute] |].
  by vm_compute.
Qed.

(** The cost that [Prim] records for the edge 1 - 2 of [path3] is the
    product 2 when the product is the argument, the sum 3 of the graph's
    own [Cost] when the argument is nil, and 1 when the argument is nil
    and the graph has no [Cost]; [Kruskal] records the product as well
    when the product is the argument. *)
Lemma cost_precedence_witness :
  (∃ dst', Prim Z.ltb 1 stable_sort 3 dst_empty path3 (Some Z.mul) = Ok dst'
           ∧ Dst.costs dst' !! (1, 2) = Some 2)
  ∧ (∃ dst', Prim Z.ltb 1 stable_sort 3 dst_empty path3 None = Ok dst'
             ∧ Dst.costs dst' !! (1, 2) = Some 3)
  ∧ (∃ dst', Prim Z.ltb 1 stable_sort 3 dst_empty (with_Coster path3 None)
               None = Ok dst'
             ∧ Dst.costs dst' !! (1, 2) = Some 1)
  ∧ Dst.costs (Kruskal Z.ltb 1 stable_sort dst_empty path3 (Some Z.mul))
      !! (1, 2) = Some 2.
Proof.
  destruct Prim_path3_edge
    as ((d1 & Hrun1 & Hin1) & (d2 & Hrun2 & Hin2) & (d3 & Hrun3 & Hin3) & HinK).
  split; [| split; [| split]].
  - exists d1. split; [done |].
    destruct (cost_precedence Z.ltb 1 stable_sort stable_sort_contract
                path3 (Some Z.mul))
      as (_ & _ & _ & _ & _ & _ & _ & HP & _).
    destruct (HP 3%nat dst_empty d1 Hrun1 1 2 Hin1)
      as (w & Hw & [[_ ->] | [_ ->]]); exact Hw.
  - exists d2. split; [done |].
    destruct (cost_precedence Z.ltb 1 stable_sort stable_sort_contract
                path3 None)
      as (_ & _ & _ & _ & _ & _ & _ & HP & _).
    destruct (HP 3%nat dst_empty d2 Hrun2 1 2 Hin2)
      as (w & Hw & [[_ ->] | [_ ->]]); exact Hw.
  - exists d3. split; [done |].
    destruct (cost_precedence Z.ltb 1 stable_sort stable_sort_contract
                (with_Coster path3 None) None)
      as (_ & _ & _ & _ & _ & _ & _ & HP & _).
    destruct (HP 3%nat dst_empty d3 Hrun3 1 2 Hin3)
      as (w & Hw & [[_ ->] | [_ ->]]); exact Hw.
  - destruct (cost_precedence Z.ltb 1 stable_sort stable_sort_contract
                path3 (Some Z.mul))
      as (_ & _ & _ & _ & _ & _ & _ & _ & HK & _).
    destruct (HK dst_empty 1 2 HinK) as (w & Hw & [[_ ->] | [_ ->]]);
      exact Hw.
Defined.

(** ** The examples of the specification, run on the model *)

(** On an undirected graph, being connected in the usual sense is being
    [connected]. *)
Lemma undirected_connected {float64 : Type} (graph : Graph float64) :
  undirected graph → weakly_connected graph → connected graph.
Proof.
  intros Hsym Hweak a b Ha Hb. specialize (Hweak a b Ha Hb). clear Ha Hb.
  induction Hweak as [x | x y z [Hxy | Hyx] _ IH]; [done | |].
  - by eapply rtc_l.
  - eapply rtc_l; [| done]. by apply Hsym.
Qed.

(** Without the precondition the loop of [Prim] does index out of range:
    on two nodes without an edge the first round finds no candidate. *)
Example Prim_two_islands :
  Prim Z.ltb 1 stable_sort 5 dst_empty two_islands None = Panic.
Proof. by vm_compute. Qed.

(** [Kruskal] on the square with weights 1, 2, 3, 4 keeps the three
    lightest edges, of total weight 6, and leaves the edge 3 - 0 out;
    [Prim] builds the same tree. *)
Example Kruskal_square :
  let dst := Kruskal Z.ltb 1 stable_sort dst_empty square (Some square_cost) in
  Dst.edges dst = {[ (0, 1); (1, 0); (1, 2); (2, 1); (2, 3); (3, 2) ]}
  ∧ Dst.costs dst !! (0, 1) = Some 1 ∧ Dst.costs dst !! (1, 2) = Some 2
  ∧ Dst.costs dst !! (2, 3) = Some 3 ∧ Dst.costs dst !! (3, 0) = None
  ∧ Prim Z.ltb 1 stable_sort 4 dst_empty square (Some square_cost) = Ok dst.
Proof. by vm_compute. Qed.

(** On a single cycle [Tarjan] returns one component with its three
    nodes. *)
Example Tarjan_triangle : Tarjan 3 triangle = Ok [[2; 1; 0]].
Proof. by vm_compute. Qed.

(** On the diamond the node 3 is dominated by 0 and by itself only. *)
Example Dominators_diamond :
  ∃ d, Dominators 20 0 diamond = Ok d ∧ d !! 3 = Some {[0; 3]}
       ∧ d !! 0 = Some {[0]}.
Proof. eexists. split; [by vm_compute |]. by vm_compute. Qed.

(** ** What the dominator maps mean *)

Section Dominance_facts.
Context {float64 : Type} (start : Z) (graph : Graph float64).

Lemma walk_to_head n w : walk_to graph start n w → n ∈ w.
Proof. destruct 1; by left. Qed.

(** A change flag that is set stays set. *)
Lemma dom_update_flag node preds (d d' : gmap Z NodeSet) c' :
  dom_update node preds (d, true) = Ok (d', c') → c' = true.
Proof.
  destruct preds as [|p0 rest]; simpl; [by intros [= _ <-] |].
  destruct (dom_get d p0); simpl; [| done..].
  destruct (dom_meet d _ rest); simpl; [| done..].
  destruct (dom_get d node); simpl; [| done..].
  case_decide; by intros [= _ <-].
Qed.

Lemma Dominators_pass_flag l (d d' : gmap Z NodeSet) c' :
  Dominators_pass start graph l (d, true) = Ok (d', c') → c' = true.
Proof.
  revert d. induction l as [|node rest IH]; intros d; simpl.
  - by intros [= _ <-].
  - case_decide; [apply IH |].
    destruct (dom_update node (Predecessors graph node) (d, true))
      as [[d1 c1]| |] eqn:Hup; simpl; [| done..].
    apply dom_update_flag in Hup as ->. apply IH.
Qed.

(** A pass that reports no change has found, at every node it visited,
    the set it computed equal to the set the map held. *)
Lemma Dominators_pass_unchanged l (d d' : gmap Z NodeSet) :
  (∀ n, n ∈ l → is_Some (d !! n)) →
  (∀ n p, n ∈ l → p ∈ Predecessors graph n → is_Some (d !! p)) →
  Dominators_pass start graph l (d, false) = Ok (d', false) →
  d' = d
  ∧ ∀ n, n ∈ l → n ≠ start →
         dom_new d n (Predecessors graph n) = look d n.
Proof.
  induction l as [|node rest IH]; intros Hkeys Hpreds; simpl.
  - intros [= <-]. split; [done |]. by intros n Hn%elem_of_nil.
  - assert (∀ n, n ∈ rest → is_Some (d !! n)) as Hkeys'.
    { intros n Hn. apply Hkeys. by right. }
    assert (∀ n p, n ∈ rest → p ∈ Predecessors graph n → is_Some (d !! p))
      as Hpreds'.
    { intros n p Hn. apply Hpreds. by right. }
    case_decide as Hst.
    + intros Hrun. destruct (IH Hkeys' Hpreds' Hrun) as [-> Hall].
      split; [done |]. intros n [-> | Hn]%elem_of_cons Hne; [done |].
      by apply Hall.
    + rewrite dom_update_ok; cycle 1.
      { intros p Hp. eapply Hpreds; [by left | done]. }
      { apply Hkeys. by left. }
      simpl. case_decide as Heq.
      * intros Hrun. destruct (IH Hkeys' Hpreds' Hrun) as [-> Hall].
        split; [done |]. intros n [-> | Hn]%elem_of_cons Hne; [done |].
        by apply Hall.
      * intros Hrun. by apply Dominators_pass_flag in Hrun.
Qed.

(** What [Dominators] returns is a map that its loop has reached and
    that a pass leaves as it is. *)
Lemma Dominators_loop_result fuel (d d' : gmap Z NodeSet) :
  dom_reachable start graph d →
  Dominators_loop fuel start graph (NodeList graph) d = Ok d' →
  dom_reachable start graph d'
  ∧ Dominators_pass start graph (NodeList graph) (d', false) = Ok (d', false).
Proof.
  revert d. induction fuel as [|fuel IH]; intros d Hreach; simpl; [done |].
  destruct (Dominators_pass start graph (NodeList graph) (d, false))
    as [[d1 c1]| |] eqn:Hpass; simpl; [| done..].
  destruct c1.
  - apply IH. by eapply dom_reachable_pass.
  - intros [= <-].
    destruct (Dominators_pass_shrinks start graph d d1 false Hreach Hpass)
      as (_ & _ & Heq).
    rewrite (Heq eq_refl) in Hpass |- *. done.
Qed.

Hypothesis Hlisted : preds_listed graph.

Lemma dom_complete_init :
  dom_complete graph start
    (dom_init start (collect_nodes (NodeList graph)) (NodeList graph)).
Proof.
  clear Hlisted. intros n a Hn Ha Hdom. unfold look.
  rewrite dom_init_lookup.
  rewrite (decide_True (P := n ∈ NodeList graph)) by done.
  case_decide as Hst; simpl.
  - subst n. specialize (Hdom [start] (walk_to_start graph start)).
    apply list_elem_of_singleton in Hdom. set_solver.
  - rewrite collect_nodes_spec. by apply elem_of_list_to_set.
Qed.

Lemma dom_complete_insert (d : gmap Z NodeSet) node :
  dom_inv start graph d → dom_complete graph start d →
  node ∈ NodeList graph → node ≠ start →
  dom_complete graph start
    (<[node := dom_new d node (Predecessors graph node)]> d).
Proof.
  intros Hinv Hc Hnode Hne n a Hn Ha Hdom. rewrite look_insert.
  case_decide as Heq; [subst n | by apply Hc].
  destruct (Predecessors graph node) as [|p0 rest] eqn:Hp; simpl;
    [by apply Hc |].
  destruct (decide (a = node)) as [-> | Han]; [set_solver |].
  assert (∀ p, p ∈ p0 :: rest → a ∈ look d p) as Hall.
  { intros p Hpin. apply Hc; [| done |].
    - eapply Hlisted; [exact Hnode |]. by rewrite Hp.
    - intros w Hw.
      assert (a ∈ node :: w) as Hin.
      { apply Hdom. eapply walk_to_step; [done |]. by rewrite Hp. }
      apply elem_of_cons in Hin as [-> | Hin]; done. }
  apply elem_of_union. right. apply elem_of_meet_all.
  split; [apply Hall; by left |]. intros p Hpin. apply Hall. by right.
Qed.

Lemma Dominators_pass_complete l (d d' : gmap Z NodeSet) c c' :
  l ⊆ NodeList graph → dom_inv start graph d → dom_complete graph start d →
  Dominators_pass start graph l (d, c) = Ok (d', c') →
  dom_complete graph start d'.
Proof.
  revert d c. induction l as [|node rest IH]; intros d c Hl Hinv Hc; simpl.
  - by intros [= <- _].
  - assert (rest ⊆ NodeList graph) as Hrest by set_solver.
    assert (node ∈ NodeList graph) as Hnode by set_solver.
    case_decide as Hst; [by apply IH |].
    rewrite dom_update_ok; cycle 1.
    { intros p Hp. apply (inv_keys _ _ _ Hinv). by eapply Hlisted. }
    { by apply (inv_keys _ _ _ Hinv). }
    simpl. case_decide as Heq; [by apply IH |].
    apply IH; [done | by apply dom_inv_insert | by apply dom_complete_insert].
Qed.

Lemma dom_reachable_complete (d : gmap Z NodeSet) :
  dom_reachable start graph d → dom_complete graph start d.
Proof.
  induction 1 as [|d d' c Hreach IH Hrun]; [apply dom_complete_init |].
  eapply Dominators_pass_complete; [done | | done | done].
  by apply dom_reachable_inv.
Qed.

Lemma dom_sound (d : gmap Z NodeSet) n w a :
  (start ∈ NodeList graph → d !! start = Some {[start]}) →
  (∀ k, k ∈ NodeList graph → k ≠ start →
        dom_new d k (Predecessors graph k) = look d k) →
  walk_to graph start n w → n ∈ NodeList graph → a ∈ look d n → a ∈ w.
Proof.
  intros Hstart Hfix Hw. revert a.
  induction Hw as [|n m w Hw IH Hm]; intros a Hn Ha.
  - unfold look in Ha. rewrite (Hstart Hn) in Ha. simpl in Ha.
    apply elem_of_singleton in Ha as ->. by left.
  - destruct (decide (n = start)) as [-> | Hne].
    + unfold look in Ha. rewrite (Hstart Hn) in Ha. simpl in Ha.
      apply elem_of_singleton in Ha as ->. by left.
    + rewrite <- (Hfix n Hn Hne) in Ha.
      destruct (Predecessors graph n) as [|p0 rest] eqn:Hp;
        [by apply elem_of_nil in Hm |].
      simpl in Ha. apply elem_of_union in Ha as [Ha | Ha].
      { assert (a = n) as -> by set_solver. by left. }
      right. apply IH.
      * eapply Hlisted; [exact Hn |]. by rewrite Hp.
      * apply elem_of_meet_all in Ha as [H0 Hrest].
        apply elem_of_cons in Hm as [-> | Hm]; [done | by apply Hrest].
Qed.

(** The sets of a map the loop has reached hold listed nodes only. *)
Lemma dom_reachable_listed (d : gmap Z NodeSet) n a :
  dom_reachable start graph d → a ∈ look d n → a ∈ NodeList graph.
Proof.
  clear Hlisted. intros Hreach Ha.
  pose proof (dom_reachable_shrinks start graph d Hreach n) as Hshr.
  unfold look in Ha. rewrite dom_init_lookup in Hshr.
  destruct (d !! n) as [s|]; [| by apply elem_of_empty in Ha].
  simpl in Ha. destruct (decide (n ∈ NodeList graph)) as [Hn|]; [| done].
  destruct (decide (n = start)) as [-> | Hne].
  - assert (a = start) as -> by set_solver. done.
  - rewrite collect_nodes_spec in Hshr.
    apply (elem_of_list_to_set (C := NodeSet)). set_solver.
Qed.

(** The map that [Dominators] returns holds, for every listed node, the
    listed nodes that dominate it. *)
Lemma Dominators_result_exact fuel (d : gmap Z NodeSet) :
  Dominators fuel start graph = Ok d →
  (∀ n, is_Some (d !! n) ↔ n ∈ NodeList graph)
  ∧ ∀ n a, n ∈ NodeList graph →
           (a ∈ look d n ↔ a ∈ NodeList graph ∧ dominates graph start a n).
Proof.
  intros Hrun. unfold Dominators in Hrun.
  apply Dominators_loop_result in Hrun as [Hreach Hpass];
    [| apply dom_reachable_init].
  pose proof (dom_reachable_inv start graph d Hreach) as Hinv.
  split; [apply (inv_keys _ _ _ Hinv) |].
  apply Dominators_pass_unchanged in Hpass as [_ Hfix]; cycle 1.
  { intros n Hn. by apply (inv_keys _ _ _ Hinv). }
  { intros n p Hn Hp. apply (inv_keys _ _ _ Hinv). by eapply Hlisted. }
  intros n a Hn. split.
  - intros Ha. split; [by eapply dom_reachable_listed |].
    intros w Hw. eapply dom_sound; [| done..].
    apply (inv_start _ _ _ Hinv).
  - intros [Ha Hdom]. by apply dom_reachable_complete.
Qed.

End Dominance_facts.

Section Dominance_theorems.
Context {float64 : Type}.

(** X1.  When listed nodes have listed predecessors, the map that
    [Dominators] returns has the listed nodes as its keys, and the set it
    holds for a node is the set of the listed nodes that dominate the
    node: those that lie on every walk from the start node to it. *)
Theorem Dominators_exact (fuel : nat) (start : Z) (graph : Graph float64)
    (d : gmap Z NodeSet) :
  preds_listed graph → Dominators fuel start graph = Ok d →
  (∀ n, n ∈ NodeList graph ↔ is_Some (d !! n))
  ∧ ∀ n s, d !! n = Some s →
           ∀ a, a ∈ s ↔ a ∈ NodeList graph ∧ dominates graph start a n.
Proof.
  intros Hlisted Hrun.
  destruct (Dominators_result_exact start graph Hlisted fuel d Hrun)
    as [Hkeys Hex].
  split; [intros n; by rewrite Hkeys |].
  intros n s Hs a. rewrite <- (Hex n a).
  - unfold look. by rewrite Hs.
  - apply Hkeys. by eexists.
Qed.

(** X2.  A listed node other than the start node that has no
    predecessor is left with the set of all listed nodes, and every
    listed node is in its own set. *)
Theorem Dominators_untouched_and_reflexive (fuel : nat) (start : Z)
    (graph : Graph float64) (d : gmap Z NodeSet) :
  preds_listed graph → Dominators fuel start graph = Ok d →
  (∀ n, n ∈ NodeList graph → n ≠ start → Predecessors graph n = [] →
        d !! n = Some (list_to_set (NodeList graph)))
  ∧ ∀ n, n ∈ NodeList graph → ∃ s, d !! n = Some s ∧ n ∈ s.
Proof.
  intros Hlisted Hrun.
  destruct (Dominators_result_exact start graph Hlisted fuel d Hrun)
    as [Hkeys Hex].
  split.
  - intros n Hn Hne Hp. destruct (proj2 (Hkeys n) Hn) as [s Hs].
    rewrite Hs. f_equal. apply set_eq. intros a.
    rewrite elem_of_list_to_set.
    specialize (Hex n a Hn). unfold look in Hex. rewrite Hs in Hex.
    simpl in Hex. rewrite Hex. split; [by intros [? _] |].
    intros Ha. split; [done |]. intros w Hw.
    destruct Hw as [|n m w _ Hm]; [done |].
    rewrite Hp in Hm. by apply elem_of_nil in Hm.
  - intros n Hn. destruct (proj2 (Hkeys n) Hn) as [s Hs].
    exists s. split; [done |].
    specialize (Hex n n Hn). unfold look in Hex. rewrite Hs in Hex.
    apply Hex. split; [done |]. intros w. apply walk_to_head.
Qed.

Lemma walk_reverse (graph : Graph float64) (e n : Z) w :
  walk_to (reverse_graph graph) e n w ↔ walk_from graph e n w.
Proof.
  split; induction 1; econstructor; eauto.
Qed.

(** X3.  When listed nodes have listed successors, the map that
    [PostDominators] returns has the listed nodes as its keys, and the
    set it holds for a node is the set of the listed nodes that
    post-dominate the node: those that lie on every walk from it to the
    end node. *)
Theorem PostDominators_exact (fuel : nat) (end_ : Z) (graph : Graph float64)
    (d : gmap Z NodeSet) :
  succs_listed graph → PostDominators fuel end_ graph = Ok d →
  (∀ n, n ∈ NodeList graph ↔ is_Some (d !! n))
  ∧ ∀ n s, d !! n = Some s →
           ∀ a, a ∈ s ↔ a ∈ NodeList graph ∧ postdominates graph end_ a n.
Proof.
  intros Hlisted Hrun. unfold PostDominators in Hrun.
  rewrite PostDominators_loop_reverse in Hrun.
  destruct (Dominators_result_exact end_ (reverse_graph graph) Hlisted fuel d
              Hrun) as [Hkeys Hex].
  split; [intros n; by rewrite Hkeys |].
  intros n s Hs a.
  assert (n ∈ NodeList graph) as Hn by (apply Hkeys; by eexists).
  specialize (Hex n a Hn). unfold look in Hex. rewrite Hs in Hex.
  simpl in Hex. rewrite Hex.
  split; intros [Ha Hdom]; (split; [done |]); intros w Hw;
    apply Hdom; by apply walk_reverse.
Qed.

End Dominance_theorems.

Lemma Dominators_exact_witness :
  ∃ d s, Dominators 20 0 diamond = Ok d ∧ d !! 3 = Some s
         ∧ (0 ∈ s ↔ 0 ∈ NodeList diamond ∧ dominates diamond 0 0 3).
Proof.
  destruct (Dominators_diamond) as (d & Hrun & H3 & _).
  exists d, {[0; 3]}. split; [done |]. split; [done |].
  destruct (Dominators_exact 20 0 diamond d diamond_preds_listed Hrun)
    as [_ Hex].
  apply (Hex 3 _ H3 0).
Defined.

(** ** [Kruskal] builds a spanning forest *)

Section Kruskal_facts.
Context {float64 : Type}.

Lemma joined_add (E : gset (Z * Z)) e1 e2 a b :
  joined ({[(e1, e2); (e2, e1)]} ∪ E) a b ↔
  joined E a b ∨ (joined E a e1 ∧ joined E e2 b)
  ∨ (joined E a e2 ∧ joined E e1 b).
Proof.
  split.
  - induction 1 as [a | a x b Hax _ IH]; [left; done |].
    apply elem_of_union in Hax as [Hax | Hax].
    + apply elem_of_union in Hax as [Hax | Hax];
        apply elem_of_singleton in Hax; simplify_eq.
      * destruct IH as [H | [[H1 H2] | [H1 H2]]].
        -- right. left. split; [done | exact H].
        -- right. left. split; [done | exact H2].
        -- left. exact H2.
      * destruct IH as [H | [[H1 H2] | [H1 H2]]].
        -- right. right. split; [done | exact H].
        -- left. exact H2.
        -- right. right. split; [done | exact H2].
    + destruct IH as [H | [[H1 H2] | [H1 H2]]].
      * left. by eapply rtc_l.
      * right. left. split; [by eapply rtc_l | done].
      * right. right. split; [by eapply rtc_l | done].
  - assert (∀ x y, joined E x y → joined ({[(e1, e2); (e2, e1)]} ∪ E) x y)
      as Hmono.
    { intros x y. apply rtc_subrel. intros u v Huv. set_solver. }
    intros [H | [[H1 H2] | [H1 H2]]]; [by apply Hmono | |].
    + etrans; [by apply Hmono |]. eapply rtc_l; [| by apply Hmono].
      set_solver.
    + etrans; [by apply Hmono |]. eapply rtc_l; [| by apply Hmono].
      set_solver.
Qed.

Lemma joined_empty a b : joined ∅ a b ↔ a = b.
Proof.
  split; [| by intros ->].
  induction 1 as [|a x b Hax]; [done |]. by apply elem_of_empty in Hax.
Qed.

Lemma add_to_dst_edges (we : WeightedEdge float64) (dst : Dst.t float64) :
  Dst.directed dst = false →
  Dst.edges (add_to_dst we dst)
    = {[((Edge we).1, (Edge we).2); ((Edge we).2, (Edge we).1)]}
      ∪ Dst.edges dst
  ∧ Dst.directed (add_to_dst we dst) = false
  ∧ Dst.nodes (add_to_dst we dst)
    = {[(Edge we).1; (Edge we).2]} ∪ Dst.nodes dst.
Proof.
  intros Hd. unfold add_to_dst.
  destruct (negb (Dst.NodeExists dst (Edge we).1)) eqn:Hex; simpl;
    rewrite Hd; simpl.
  - split; [done |]. split; [done |]. set_solver.
  - split; [done |]. split; [done |].
    apply negb_false_iff, bool_decide_eq_true in Hex. set_solver.
Qed.

Lemma MakeSet_fold (nlist : list Z) n :
  DisjointSet.Find
    (foldl (λ ds node, DisjointSet.MakeSet node ds)
           DisjointSet.NewDisjointSet nlist) n
  = if decide (n ∈ nlist) then Some n else None.
Proof.
  assert (∀ ds : DisjointSet.t,
            DisjointSet.Find
              (foldl (λ ds node, DisjointSet.MakeSet node ds) ds nlist) n
            = match DisjointSet.Find ds n with
              | Some r => Some r
              | None => if decide (n ∈ nlist) then Some n else None
              end) as H.
  { induction nlist as [|x l IH]; intros ds; cbn [foldl].
    - destruct (DisjointSet.Find ds n); [done |].
      destruct (decide (n ∈ [])) as [Hn|]; [by apply elem_of_nil in Hn | done].
    - rewrite IH.
      assert (DisjointSet.Find (DisjointSet.MakeSet x ds) n
              = match DisjointSet.Find ds n with
                | Some r => Some r
                | None => if decide (n = x) then Some n else None
                end) as ->.
      { unfold DisjointSet.MakeSet, DisjointSet.Find, DisjointSet.t in *.
        destruct (decide (n = x)) as [-> | Hne].
        - destruct (ds !! x) as [r|] eqn:Hx; [by rewrite Hx |].
          by rewrite lookup_insert_eq.
        - destruct (ds !! x) as [r|] eqn:Hx.
          + by destruct (ds !! n).
          + rewrite lookup_insert_ne by done. by destruct (ds !! n). }
      destruct (DisjointSet.Find ds n); [done |].
      destruct (decide (n = x)) as [-> | Hne].
      + destruct (decide (x ∈ x :: l)) as [|Hn]; [done |].
        exfalso. apply Hn. by left.
      + destruct (decide (n ∈ l)) as [Hl | Hl],
                 (decide (n ∈ x :: l)) as [Hxl | Hxl]; try done.
        * exfalso. apply Hxl. by right.
        * apply elem_of_cons in Hxl as [? | ?]; done. }
  rewrite H.
  assert (DisjointSet.Find DisjointSet.NewDisjointSet n = None) as ->; [| done].
  unfold DisjointSet.Find, DisjointSet.NewDisjointSet, DisjointSet.t.
  apply lookup_empty.
Qed.

Variable graph : Graph float64.
Hypothesis Hedges : edges_listed graph.

Lemma Kruskal_inv_init (dst : Dst.t float64) :
  Kruskal_inv graph
    (foldl (λ ds node, DisjointSet.MakeSet node ds)
           DisjointSet.NewDisjointSet (NodeList graph),
     Dst.SetDirected false (Dst.EmptyGraph dst)).
Proof.
  clear Hedges. split; simpl.
  - intros n. rewrite MakeSet_fold.
    case_decide; [split; [done | by eexists] | split; [by intros [] | done]].
  - done.
  - intros a b Hab. by apply elem_of_empty in Hab.
  - intros a b Ha Hb. rewrite !MakeSet_fold.
    rewrite !decide_True by done. rewrite joined_empty.
    split; [by intros [= ->] | by intros ->].
  - constructor.
  - intros n Hn. by apply elem_of_empty in Hn.
Qed.

Lemma Kruskal_step_inv acc (we : WeightedEdge float64) :
  Edge we ∈ EdgeList graph → Kruskal_inv graph acc →
  Kruskal_inv graph (Kruskal_step acc we)
  ∧ DisjointSet.Find (Kruskal_step acc we).1 (Edge we).1
    = DisjointSet.Find (Kruskal_step acc we).1 (Edge we).2
  ∧ ∀ a b, DisjointSet.Find acc.1 a = DisjointSet.Find acc.1 b →
           DisjointSet.Find (Kruskal_step acc we).1 a
           = DisjointSet.Find (Kruskal_step acc we).1 b.
Proof.
  intros Hin Hinv. destruct we as [[e1 e2] w]. simpl in *.
  destruct (Hedges _ Hin) as [H1 H2]. simpl in H1, H2.
  unfold Kruskal_step. simpl.
  destruct (decide (DisjointSet.Find acc.1 e1 ≠ DisjointSet.Find acc.1 e2))
    as [Hne | Heq]; simpl.
  2: { split; [done |]. split; [| done].
       destruct (decide (DisjointSet.Find acc.1 e1
                         = DisjointSet.Find acc.1 e2)); [done |].
       by destruct Heq. }
  destruct (proj2 (ki_keys _ _ Hinv e1) H1) as [r1 Hr1].
  destruct (proj2 (ki_keys _ _ Hinv e2) H2) as [r2 Hr2].
  rewrite Hr1, Hr2 in Hne |- *. simpl.
  assert (r1 ≠ r2) as Hr by congruence.
  set (f := λ r : Z, if decide (r = r2) then r1 else r).
  assert (∀ n, DisjointSet.Find (f <$> acc.1) n
               = f <$> DisjointSet.Find acc.1 n) as Hfind.
  { intros n. unfold DisjointSet.Find, DisjointSet.t. apply lookup_fmap. }
  destruct (add_to_dst_edges {| Edge := (e1, e2); Weight := w |} acc.2
              (ki_undirected _ _ Hinv)) as (HE & HD & HN).
  simpl in HE, HN.
  split; [| split].
  - split; simpl.
    + intros n. rewrite Hfind, <- (ki_keys _ _ Hinv n).
      by rewrite fmap_is_Some.
    + done.
    + intros a b. rewrite HE.
      rewrite !elem_of_union, !elem_of_singleton.
      intros [[[= -> ->] | [= -> ->]] | Hab].
      * split; [done |]. split; [done |]. by left.
      * split; [done |]. split; [done |]. by right.
      * by apply (ki_edges _ _ Hinv).
    + intros a b Ha Hb. rewrite !Hfind, HE, joined_add.
      destruct (proj2 (ki_keys _ _ Hinv a) Ha) as [ra Hra].
      destruct (proj2 (ki_keys _ _ Hinv b) Hb) as [rb Hrb].
      rewrite <- !(ki_rep _ _ Hinv) by done.
      rewrite Hra, Hrb, Hr1, Hr2. simpl. unfold f.
      repeat case_decide; naive_solver.
    + rewrite HE. apply forest_add; [apply (ki_forest _ _ Hinv) |].
      rewrite <- (ki_rep _ _ Hinv) by done. congruence.
    + intros n. rewrite HN. rewrite !elem_of_union, !elem_of_singleton.
      intros [[-> | ->] | Hn]; [done.. |]. by apply (ki_nodes _ _ Hinv).
  - rewrite !Hfind, Hr1, Hr2. simpl. unfold f.
    rewrite decide_False by done. by rewrite decide_True.
  - intros a b Hab. by rewrite !Hfind, Hab.
Qed.

Lemma Kruskal_fold_inv (l : list (WeightedEdge float64)) acc :
  (∀ we, we ∈ l → Edge we ∈ EdgeList graph) → Kruskal_inv graph acc →
  Kruskal_inv graph (foldl Kruskal_step acc l)
  ∧ (∀ we, we ∈ l →
       DisjointSet.Find (foldl Kruskal_step acc l).1 (Edge we).1
       = DisjointSet.Find (foldl Kruskal_step acc l).1 (Edge we).2)
  ∧ ∀ a b, DisjointSet.Find acc.1 a = DisjointSet.Find acc.1 b →
           DisjointSet.Find (foldl Kruskal_step acc l).1 a
           = DisjointSet.Find (foldl Kruskal_step acc l).1 b.
Proof.
  revert acc. induction l as [|we l IH]; intros acc Hl Hinv; simpl.
  - split; [done |]. split; [by intros we Hwe%elem_of_nil | done].
  - destruct (Kruskal_step_inv acc we) as (Hinv1 & Hwe & Hmono1);
      [apply Hl; by left | done |].
    destruct (IH (Kruskal_step acc we)) as (Hinv' & Hall & Hmono);
      [intros x Hx; apply Hl; by right | done |].
    split; [done |]. split.
    + intros x [-> | Hx]%elem_of_cons; [by apply Hmono | by apply Hall].
    + intros a b Hab. by apply Hmono, Hmono1.
Qed.

End Kruskal_facts.

Section Kruskal_theorems.
Context {float64 : Type}.
Variable float64_lt : float64 → float64 → bool.
Variable float64_one : float64.
Variable sort_Sort :
  (WeightedEdge float64 → WeightedEdge float64 → bool) →
  list (WeightedEdge float64) → list (WeightedEdge float64).

Lemma forest_symmetric (E : gset (Z * Z)) a b :
  forest E → (a, b) ∈ E → (b, a) ∈ E.
Proof.
  induction 1 as [|E x y _ IH _]; [by intros ?%elem_of_empty |].
  rewrite !elem_of_union, !elem_of_singleton.
  intros [[[= -> ->] | [= -> ->]] | Hab]; [by left; right | by left; left |].
  right. by apply IH.
Qed.

Lemma Kruskal_result (dst : Dst.t float64) (graph : Graph float64)
    (Cost : option (Z → Z → float64)) :
  sort_contract (edgeSorter_Less float64_lt)
                (sort_Sort (edgeSorter_Less float64_lt)) →
  edges_listed graph →
  ∃ ds, Kruskal_inv graph
          (ds, Kruskal float64_lt float64_one sort_Sort dst graph Cost)
        ∧ ∀ e, e ∈ EdgeList graph →
               DisjointSet.Find ds e.1 = DisjointSet.Find ds e.2.
Proof.
  intros Hsort Hedges. unfold Kruskal.
  set (cost := match Cost with
               | Some c => c
               | None => match Coster_Cost graph with
                         | Some c => c
                         | None => UniformCost float64_one
                         end
               end).
  set (acc0 := (foldl (λ ds node, DisjointSet.MakeSet node ds)
                      DisjointSet.NewDisjointSet (NodeList graph),
                Dst.SetDirected false (Dst.EmptyGraph dst))).
  assert (∀ we, we ∈ Kruskal_sorted float64_lt sort_Sort cost graph ↔
                we ∈ (λ edge, {| Edge := edge;
                                 Weight := cost edge.1 edge.2 |})
                       <$> EdgeList graph) as Hmem.
  { intros we. unfold Kruskal_sorted.
    destruct (Hsort ((λ edge, {| Edge := edge;
                                 Weight := cost edge.1 edge.2 |})
                       <$> EdgeList graph)) as [Hperm _].
    by rewrite Hperm. }
  destruct (Kruskal_fold_inv graph Hedges
              (Kruskal_sorted float64_lt sort_Sort cost graph) acc0)
    as (Hinv & Hall & _).
  { intros we Hwe. apply Hmem in Hwe.
    by apply list_elem_of_fmap in Hwe as (e & -> & He). }
  { apply Kruskal_inv_init. }
  exists (foldl Kruskal_step acc0
            (Kruskal_sorted float64_lt sort_Sort cost graph)).1.
  split; [by destruct (foldl Kruskal_step acc0 _) |].
  intros e He.
  apply (Hall {| Edge := e; Weight := cost e.1 e.2 |}).
  apply Hmem. apply list_elem_of_fmap. by exists e.
Qed.

(** X4.  [Kruskal] builds a forest out of edges of the source: the
    destination is undirected, its edge set has no cycle (every edge was
    added between two nodes not joined before), holds each edge in both
    directions, and holds only edges of the edge list, between listed
    nodes. *)
Theorem Kruskal_forest (dst : Dst.t float64) (graph : Graph float64)
    (Cost : option (Z → Z → float64)) :
  sort_contract (edgeSorter_Less float64_lt)
                (sort_Sort (edgeSorter_Less float64_lt)) →
  edges_listed graph →
  let dst' := Kruskal float64_lt float64_one sort_Sort dst graph Cost in
  Dst.directed dst' = false
  ∧ forest (Dst.edges dst')
  ∧ (∀ a b, (a, b) ∈ Dst.edges dst' →
            (b, a) ∈ Dst.edges dst'
            ∧ ((a, b) ∈ EdgeList graph ∨ (b, a) ∈ EdgeList graph))
  ∧ ∀ n, n ∈ Dst.nodes dst' → n ∈ NodeList graph.
Proof.
  intros Hsort Hedges dst'.
  destruct (Kruskal_result dst graph Cost Hsort Hedges) as (ds & Hinv & _).
  split; [apply (ki_undirected _ _ Hinv) |].
  split; [apply (ki_forest _ _ Hinv) |].
  split; [| apply (ki_nodes _ _ Hinv)].
  intros a b Hab. split.
  - apply forest_symmetric; [apply (ki_forest _ _ Hinv) | done].
  - by apply (ki_edges _ _ Hinv).
Qed.

(** X5.  The forest that [Kruskal] builds spans the source: it joins two
    listed nodes exactly when a chain of edges of the edge list, each
    taken in either direction, links them. *)
Theorem Kruskal_spans (dst : Dst.t float64) (graph : Graph float64)
    (Cost : option (Z → Z → float64)) :
  sort_contract (edgeSorter_Less float64_lt)
                (sort_Sort (edgeSorter_Less float64_lt)) →
  edges_listed graph →
  ∀ a b, a ∈ NodeList graph → b ∈ NodeList graph →
         (joined (Dst.edges (Kruskal float64_lt float64_one sort_Sort
                               dst graph Cost)) a b
          ↔ linked graph a b).
Proof.
  intros Hsort Hedges a b Ha Hb.
  destruct (Kruskal_result dst graph Cost Hsort Hedges)
    as (ds & Hinv & Hall).
  split.
  - apply rtc_subrel. intros x y Hxy.
    by apply (ki_edges _ _ Hinv) in Hxy as (_ & _ & Hxy).
  - intros Hlink. clear Ha.
    induction Hlink as [x | x y z Hxy _ IH]; [done |].
    assert (x ∈ NodeList graph ∧ y ∈ NodeList graph
            ∧ DisjointSet.Find ds x = DisjointSet.Find ds y)
      as (Hx & Hy & Hrep).
    { destruct Hxy as [Hxy | Hxy].
      - destruct (Hedges _ Hxy) as [? ?]. split; [done |]. split; [done |].
        apply (Hall _ Hxy).
      - destruct (Hedges _ Hxy) as [? ?]. split; [done |]. split; [done |].
        symmetry. apply (Hall _ Hxy). }
    etrans; [| by apply IH].
    by apply (ki_rep _ _ Hinv).
Qed.

End Kruskal_theorems.

Lemma graph_of_edges_listed {float64 : Type} nodes edges
    (cost : option (Z → Z → float64)) :
  Forall (λ e, e.1 ∈ nodes ∧ e.2 ∈ nodes) edges →
  edges_listed (graph_of nodes edges cost).
Proof. intros Hall e He. by apply (proj1 (Forall_forall _ _) Hall). Qed.

Lemma square_edges_listed : edges_listed square.
Proof. apply graph_of_edges_listed. repeat constructor; set_solver. Qed.

Lemma Kruskal_forest_witness :
  forest (Dst.edges (Kruskal Z.ltb 1 stable_sort dst_empty square
                       (Some square_cost))).
Proof.
  destruct (Kruskal_forest Z.ltb 1 stable_sort dst_empty square
              (Some square_cost) stable_sort_contract square_edges_listed)
    as (_ & Hforest & _).
  exact Hforest.
Defined.

Lemma Kruskal_spans_witness :
  joined (Dst.edges (Kruskal Z.ltb 1 stable_sort dst_empty square
                       (Some square_cost))) 3 0.
Proof.
  apply (Kruskal_spans Z.ltb 1 stable_sort dst_empty square
           (Some square_cost) stable_sort_contract square_edges_listed 3 0);
    [simpl; set_solver.. |].
  apply rtc_once. left. simpl. set_solver.
Defined.

(** ** [Prim] builds a spanning tree, or fails on an unreachable node *)

Section Prim_tree.
Context {float64 : Type}.
Variable float64_lt : float64 → float64 → bool.
Variable sort_Sort :
  (WeightedEdge float64 → WeightedEdge float64 → bool) →
  list (WeightedEdge float64) → list (WeightedEdge float64).
Variable Cost : Z → Z → float64.
Variable graph : Graph float64.
Variable n0 : Z.
Variable rest : list Z.
Hypothesis Hnodes : NodeList graph = n0 :: rest.
Hypothesis Hwf : graph_wf graph.
Hypothesis Hsort :
  sort_contract (edgeSorter_Less float64_lt)
                (sort_Sort (edgeSorter_Less float64_lt)).

Lemma Prim_tree_inv_init :
  Prim_tree_inv graph n0 (Prim_dst0 n0)
    (foldl (λ s node, {[node]} ∪ s) ∅ rest).
Proof using Hnodes Hwf.
  clear Hsort sort_Sort float64_lt Cost.
  destruct Hwf as [Hnd _]. rewrite Hnodes in Hnd.
  apply NoDup_cons in Hnd as [Hn0 _].
  change (foldl (λ s node, {[node]} ∪ s) ∅ rest) with (collect_nodes rest).
  rewrite collect_nodes_spec. split; simpl.
  - set_solver.
  - set_solver.
  - rewrite Hnodes. set_solver.
  - done.
  - intros a b Hab. by apply elem_of_empty in Hab.
  - constructor.
  - intros n Hn. assert (n = n0) as -> by set_solver. done.
  - intros n Hn. assert (n = n0) as -> by set_solver. done.
Qed.

Lemma joined_inside (E : gset (Z * Z)) (D : NodeSet) a b :
  (∀ x y, (x, y) ∈ E → y ∈ D) → joined E a b → a = b ∨ b ∈ D.
Proof.
  intros HE. induction 1 as [a | a x b Hax _ IH]; [by left |].
  right. destruct IH as [<- | Hb]; [by eapply HE | done].
Qed.

Lemma Prim_tree_inv_round (dst : Dst.t float64) rem myEdge others :
  Prim_tree_inv graph n0 dst rem →
  sort_Sort (edgeSorter_Less float64_lt)
    (Prim_scan Cost dst rem (EdgeList graph)) = myEdge :: others →
  Prim_tree_inv graph n0 (add_to_dst myEdge dst) (rem ∖ {[(Edge myEdge).2]})
  ∧ (Edge myEdge).2 ∈ rem.
Proof using Hsort.
  clear Hnodes Hwf rest.
  intros Hinv Hsorted.
  assert (myEdge ∈ Prim_scan Cost dst rem (EdgeList graph)) as Hin.
  { destruct (Hsort (Prim_scan Cost dst rem (EdgeList graph))) as [Hperm _].
    rewrite <- Hperm, Hsorted. by left. }
  apply elem_of_Prim_scan in Hin as (He & H1 & H2 & _).
  destruct myEdge as [[e1 e2] w]. cbn [Edge fst snd] in *.
  destruct (add_to_dst_edges {| Edge := (e1, e2); Weight := w |} dst
              (pt_undirected _ _ _ _ Hinv)) as (HE & HD & HN).
  cbn [Edge fst snd] in HE, HN.
  pose proof (pt_disjoint _ _ _ _ Hinv) as Hdisj.
  assert (e2 ∉ Dst.nodes dst) as Hnew by set_solver.
  assert (e1 ≠ e2) as Hne by (intros ->; done).
  assert (∀ x y, joined (Dst.edges dst) x y →
                 joined (Dst.edges (add_to_dst {| Edge := (e1, e2);
                                                  Weight := w |} dst)) x y)
    as Hmono.
  { intros x y. apply rtc_subrel. intros u v Huv. rewrite HE. set_solver. }
  split; [| done]. split.
  - rewrite HN. pose proof (pt_first _ _ _ _ Hinv). set_solver.
  - rewrite HN. set_solver.
  - rewrite HN, <- (pt_cover _ _ _ _ Hinv). apply set_eq. intros x.
    destruct (decide (x = e2)); set_solver.
  - done.
  - intros a b. rewrite HE, HN.
    rewrite !elem_of_union, !elem_of_singleton.
    intros [[[= -> ->] | [= -> ->]] | Hab].
    + split; [by right |]. split; [left; by right |]. by left.
    + split; [left; by right |]. split; [by right |]. by right.
    + destruct (pt_edges _ _ _ _ Hinv a b Hab) as (Ha & Hb & Hsrc).
      split; [by right |]. split; [by right | done].
  - rewrite HE. apply forest_add; [apply (pt_forest _ _ _ _ Hinv) |].
    intros Hj.
    destruct (joined_inside (Dst.edges dst) (Dst.nodes dst) e1 e2) as [? | ?];
      [| done | done | done].
    intros x y Hxy. by apply (pt_edges _ _ _ _ Hinv) in Hxy as (_ & ? & _).
  - intros n. rewrite HN. rewrite !elem_of_union, !elem_of_singleton.
    intros [[-> | ->] | Hn].
    + by apply Hmono, (pt_joined _ _ _ _ Hinv).
    + eapply rtc_r; [by apply Hmono, (pt_joined _ _ _ _ Hinv) |].
      rewrite HE. set_solver.
    + by apply Hmono, (pt_joined _ _ _ _ Hinv).
  - intros n. rewrite HN. rewrite !elem_of_union, !elem_of_singleton.
    intros [[-> | ->] | Hn].
    + by apply (pt_reach _ _ _ _ Hinv).
    + eapply rtc_r; [by apply (pt_reach _ _ _ _ Hinv) | done].
    + by apply (pt_reach _ _ _ _ Hinv).
Qed.

(** If the loop returns, it returns a tree on all the listed nodes. *)
Lemma Prim_loop_tree fuel (dst dst' : Dst.t float64) rem :
  Prim_tree_inv graph n0 dst rem →
  Prim_loop float64_lt sort_Sort fuel Cost (EdgeList graph) dst rem = Ok dst' →
  Prim_tree_inv graph n0 dst' ∅.
Proof using Hsort.
  clear Hnodes Hwf rest.
  revert dst rem. induction fuel as [|fuel IH]; intros dst rem Hinv;
    rewrite Prim_loop_unfold; case_decide as Hsize; try done.
  - intros [= <-]. apply size_empty_inv in Hsize.
    assert (rem = ∅) as -> by set_solver. done.
  - intros [= <-]. apply size_empty_inv in Hsize.
    assert (rem = ∅) as -> by set_solver. done.
  - destruct (sort_Sort _ (Prim_scan Cost dst rem (EdgeList graph)))
      as [|myEdge others] eqn:Hsorted; [done |].
    apply IH. by eapply Prim_tree_inv_round.
Qed.

(** With fuel for one round per outstanding node the loop returns or
    panics. *)
Lemma Prim_loop_cases (n : nat) (dst : Dst.t float64) rem :
  size rem = n → Prim_tree_inv graph n0 dst rem →
  (∃ dst', ∀ fuel, (n ≤ fuel)%nat →
     Prim_loop float64_lt sort_Sort fuel Cost (EdgeList graph) dst rem
     = Ok dst')
  ∨ (∀ fuel, (n ≤ fuel)%nat →
       Prim_loop float64_lt sort_Sort fuel Cost (EdgeList graph) dst rem
       = Panic).
Proof using Hsort.
  clear Hnodes Hwf rest.
  revert dst rem. induction n as [|n IH]; intros dst rem Hsize Hinv.
  - left. exists dst. intros fuel _. rewrite Prim_loop_unfold.
    by rewrite decide_True.
  - assert (size rem ≠ 0%nat) as Hne by lia.
    destruct (sort_Sort (edgeSorter_Less float64_lt)
                (Prim_scan Cost dst rem (EdgeList graph)))
      as [|myEdge others] eqn:Hsorted.
    + right. intros [|fuel] Hfuel; [lia |]. rewrite Prim_loop_unfold.
      rewrite decide_False by done. by rewrite Hsorted.
    + destruct (Prim_tree_inv_round dst rem myEdge others Hinv Hsorted)
        as [Hinv' Hin].
      destruct (IH (add_to_dst myEdge dst) (rem ∖ {[(Edge myEdge).2]}))
        as [[dst' Hrun] | Hrun]; [| done | |].
      { rewrite size_difference by set_solver. rewrite size_singleton. lia. }
      * left. exists dst'. intros [|fuel] Hfuel; [lia |].
        rewrite Prim_loop_unfold, decide_False by done.
        rewrite Hsorted. apply Hrun. lia.
      * right. intros [|fuel] Hfuel; [lia |].
        rewrite Prim_loop_unfold, decide_False by done.
        rewrite Hsorted. apply Hrun. lia.
Qed.

(** When every listed node is reached from the first, a round with
    outstanding nodes finds a candidate. *)
Lemma Prim_scan_nonempty_from (dst : Dst.t float64) rem :
  (∀ b, b ∈ NodeList graph → reach graph n0 b) →
  Prim_tree_inv graph n0 dst rem → size rem ≠ 0%nat →
  Prim_scan Cost dst rem (EdgeList graph) ≠ [].
Proof using Hwf.
  clear Hsort sort_Sort float64_lt Hnodes rest.
  intros Hreach Hinv Hsize.
  apply size_non_empty_iff in Hsize.
  apply set_choose in Hsize as [r Hr].
  pose proof (pt_disjoint _ _ _ _ Hinv) as Hdisj.
  pose proof (pt_cover _ _ _ _ Hinv) as Hcover.
  destruct (reach_crossing graph (Dst.nodes dst) n0 r) as (u & v & Huv & Hu & Hv).
  - apply Hreach. apply (elem_of_list_to_set (C := NodeSet)).
    rewrite <- Hcover. set_solver.
  - apply (pt_first _ _ _ _ Hinv).
  - set_solver.
  - assert (v ∈ rem) as Hvr.
    { destruct Hwf as [_ Hedges]. destruct (Hedges _ Huv) as [_ Hvl].
      apply (elem_of_list_to_set (C := NodeSet)) in Hvl.
      rewrite <- Hcover in Hvl. set_solver. }
    intros Hnil.
    assert ({| Edge := (u, v); Weight := Cost u v |}
              ∈ Prim_scan Cost dst rem (EdgeList graph)) as Hin.
    { by apply elem_of_Prim_scan. }
    rewrite Hnil in Hin. by apply elem_of_nil in Hin.
Qed.

Lemma Prim_loop_reachable_ok (n : nat) (dst : Dst.t float64) rem :
  (∀ b, b ∈ NodeList graph → reach graph n0 b) →
  size rem = n → Prim_tree_inv graph n0 dst rem →
  ∃ dst', ∀ fuel, (n ≤ fuel)%nat →
    Prim_loop float64_lt sort_Sort fuel Cost (EdgeList graph) dst rem = Ok dst'.
Proof using Hwf Hsort.
  clear Hnodes rest.
  intros Hreach. revert dst rem.
  induction n as [|n IH]; intros dst rem Hsize Hinv.
  - exists dst. intros fuel _. rewrite Prim_loop_unfold.
    by rewrite decide_True.
  - assert (size rem ≠ 0%nat) as Hne by lia.
    pose proof (Prim_scan_nonempty_from dst rem Hreach Hinv Hne) as Hscan.
    destruct (sort_Sort (edgeSorter_Less float64_lt)
                (Prim_scan Cost dst rem (EdgeList graph)))
      as [|myEdge others] eqn:Hsorted.
    { destruct (Hsort (Prim_scan Cost dst rem (EdgeList graph))) as [Hperm _].
      rewrite Hsorted in Hperm. symmetry in Hperm.
      by apply Permutation_nil_r in Hperm. }
    destruct (Prim_tree_inv_round dst rem myEdge others Hinv Hsorted)
      as [Hinv' Hin].
    destruct (IH (add_to_dst myEdge dst) (rem ∖ {[(Edge myEdge).2]}))
      as [dst' Hrun]; [| done |].
    { rewrite size_difference by set_solver. rewrite size_singleton. lia. }
    exists dst'. intros [|fuel] Hfuel; [lia |].
    rewrite Prim_loop_unfold, decide_False by done.
    rewrite Hsorted. apply Hrun. lia.
Qed.

End Prim_tree.

Section Prim_tree_theorems.
Context {float64 : Type}.
Variable float64_lt : float64 → float64 → bool.
Variable float64_one : float64.
Variable sort_Sort :
  (WeightedEdge float64 → WeightedEdge float64 → bool) →
  list (WeightedEdge float64) → list (WeightedEdge float64).

Lemma joined_symmetric (E : gset (Z * Z)) a b :
  (∀ x y, (x, y) ∈ E → (y, x) ∈ E) → joined E a b → joined E b a.
Proof.
  intros Hsym. induction 1 as [a | a x b Hax _ IH]; [done |].
  eapply rtc_r; [done |]. by apply Hsym.
Qed.

Lemma Prim_remaining_size (graph : Graph float64) n0 rest :
  graph_wf graph → NodeList graph = n0 :: rest →
  size (foldl (λ s node, {[node]} ∪ s) (∅ : NodeSet) rest)
  = length rest.
Proof.
  intros [Hnd _] Hn. rewrite Hn in Hnd.
  apply NoDup_cons in Hnd as [_ Hnd].
  change (foldl (λ s node, {[node]} ∪ s) ∅ rest) with (collect_nodes rest).
  rewrite collect_nodes_spec. by rewrite size_list_to_set.
Qed.

(** X6.  [Prim] on a graph whose node list starts with [n0] returns
    exactly when every listed node is reached from [n0] along the edge
    list: then it returns with fuel for one round per node; when some
    listed node is not reached it panics on [edgeWeights[0]]; and whenever
    it returns, every listed node is reached from [n0]. *)
Theorem Prim_returns_iff_reachable (dst : Dst.t float64)
    (graph : Graph float64) (Cost : option (Z → Z → float64)) n0 rest :
  sort_contract (edgeSorter_Less float64_lt)
                (sort_Sort (edgeSorter_Less float64_lt)) →
  graph_wf graph → NodeList graph = n0 :: rest →
  ((∀ b, b ∈ NodeList graph → reach graph n0 b) →
   ∃ dst', ∀ fuel, (length (NodeList graph) ≤ fuel)%nat →
     Prim float64_lt float64_one sort_Sort fuel dst graph Cost = Ok dst')
  ∧ ((∃ b, b ∈ NodeList graph ∧ ¬ reach graph n0 b) →
     ∀ fuel, (length (NodeList graph) ≤ fuel)%nat →
       Prim float64_lt float64_one sort_Sort fuel dst graph Cost = Panic)
  ∧ ∀ fuel dst',
      Prim float64_lt float64_one sort_Sort fuel dst graph Cost = Ok dst' →
      ∀ b, b ∈ NodeList graph → reach graph n0 b.
Proof.
  intros Hsort Hwf Hn.
  pose proof (Prim_remaining_size graph n0 rest Hwf Hn) as Hsize.
  set (cost := match Cost with
               | Some c => c
               | None => match Coster_Cost graph with
                         | Some c => c
                         | None => UniformCost float64_one
                         end
               end).
  assert (∀ fuel,
    Prim float64_lt float64_one sort_Sort fuel dst graph Cost
    = Prim_loop float64_lt sort_Sort fuel cost (EdgeList graph) (Prim_dst0 n0)
        (foldl (λ s node, {[node]} ∪ s) ∅ rest)) as HPrim.
  { intros fuel. unfold Prim. by rewrite Hn. }
  pose proof (Prim_tree_inv_init graph n0 rest Hn Hwf) as Hinit.
  assert (∀ fuel dst',
    Prim float64_lt float64_one sort_Sort fuel dst graph Cost = Ok dst' →
    ∀ b, b ∈ NodeList graph → reach graph n0 b) as Honly.
  { intros fuel dst' Hrun b Hb. rewrite HPrim in Hrun.
    pose proof (Prim_loop_tree float64_lt sort_Sort cost graph n0 Hsort
                  fuel _ dst' _ Hinit Hrun) as Hfin.
    apply (pt_reach _ _ _ _ Hfin).
    apply (elem_of_list_to_set (C := NodeSet)) in Hb.
    rewrite <- (pt_cover _ _ _ _ Hfin) in Hb. set_solver. }
  split; [| split; [| done]].
  - intros Hreach.
    destruct (Prim_loop_reachable_ok float64_lt sort_Sort cost graph n0
                Hwf Hsort (length rest) (Prim_dst0 n0)
                (foldl (λ s node, {[node]} ∪ s) ∅ rest) Hreach Hsize Hinit)
      as [dst' Hrun].
    exists dst'. intros fuel Hfuel. rewrite HPrim. apply Hrun.
    rewrite Hn in Hfuel. simpl in Hfuel. lia.
  - intros (b & Hb & Hnot).
    destruct (Prim_loop_cases float64_lt sort_Sort cost graph n0 Hsort
                (length rest) (Prim_dst0 n0)
                (foldl (λ s node, {[node]} ∪ s) ∅ rest) Hsize Hinit)
      as [[dst' Hrun] | Hrun].
    + exfalso. apply Hnot. apply (Honly (length rest) dst'); [| done].
      rewrite HPrim. by apply Hrun.
    + intros fuel Hfuel. rewrite HPrim. apply Hrun.
      rewrite Hn in Hfuel. simpl in Hfuel. lia.
Qed.

(** X7.  Whatever [Prim] returns is an undirected spanning tree of the
    source: its nodes are the listed nodes, its edges come in both
    directions and are edges of the source (in one direction or the
    other), they hold no cycle, and they join every two listed nodes. *)
Theorem Prim_spanning_tree (fuel : nat) (dst dst' : Dst.t float64)
    (graph : Graph float64) (Cost : option (Z → Z → float64)) :
  sort_contract (edgeSorter_Less float64_lt)
                (sort_Sort (edgeSorter_Less float64_lt)) →
  graph_wf graph →
  Prim float64_lt float64_one sort_Sort fuel dst graph Cost = Ok dst' →
  Dst.directed dst' = false
  ∧ Dst.nodes dst' = list_to_set (NodeList graph)
  ∧ forest (Dst.edges dst')
  ∧ (∀ a b, (a, b) ∈ Dst.edges dst' →
            (b, a) ∈ Dst.edges dst'
            ∧ ((a, b) ∈ EdgeList graph ∨ (b, a) ∈ EdgeList graph))
  ∧ ∀ a b, a ∈ NodeList graph → b ∈ NodeList graph →
           joined (Dst.edges dst') a b.
Proof.
  intros Hsort Hwf. unfold Prim.
  destruct (NodeList graph) as [|n0 rest] eqn:Hn.
  - intros [= <-]. simpl. split; [done |]. split; [done |].
    split; [constructor |]. split.
    + intros a b Hab. by apply elem_of_empty in Hab.
    + intros a b Ha. by apply elem_of_nil in Ha.
  - intros Hrun.
    pose proof (Prim_tree_inv_init graph n0 rest Hn Hwf) as Hinit.
    pose proof (Prim_loop_tree float64_lt sort_Sort _ graph n0 Hsort
                  fuel _ dst' _ Hinit Hrun) as Hfin.
    assert (Dst.nodes dst' = list_to_set (n0 :: rest)) as Hnodes.
    { rewrite <- Hn, <- (pt_cover _ _ _ _ Hfin). set_solver. }
    assert (∀ a b, (a, b) ∈ Dst.edges dst' → (b, a) ∈ Dst.edges dst')
      as Hsym.
    { intros a b. apply forest_symmetric, (pt_forest _ _ _ _ Hfin). }
    split; [apply (pt_undirected _ _ _ _ Hfin) |].
    split; [done |].
    split; [apply (pt_forest _ _ _ _ Hfin) |].
    split.
    + intros a b Hab. split; [by apply Hsym |].
      by apply (pt_edges _ _ _ _ Hfin) in Hab as (_ & _ & ?).
    + intros a b Ha Hb.
      apply (elem_of_list_to_set (C := NodeSet)) in Ha, Hb.
      rewrite <- Hnodes in Ha, Hb.
      etrans; [| by apply (pt_joined _ _ _ _ Hfin)].
      apply joined_symmetric; [done |].
      by apply (pt_joined _ _ _ _ Hfin).
Qed.

End Prim_tree_theorems.

Lemma Prim_returns_iff_reachable_witness :
  ∃ dst', ∀ fuel, (3 ≤ fuel)%nat →
    Prim Z.ltb 1 stable_sort fuel dst_empty path3 None = Ok dst'.
Proof.
  destruct (Prim_returns_iff_reachable Z.ltb 1 stable_sort dst_empty path3
              None 0 [1; 2] stable_sort_contract path3_wf eq_refl)
    as (Hok & _ & _).
  apply Hok. intros b Hb. apply path3_connected; [simpl; set_solver | done].
Defined.

Example Prim_path3 :
  ∃ dst', Prim Z.ltb 1 stable_sort 3 dst_empty path3 None = Ok dst'.
Proof. eexists. by vm_compute. Qed.

Lemma Prim_spanning_tree_witness :
  ∃ dst', Prim Z.ltb 1 stable_sort 3 dst_empty path3 None = Ok dst'
          ∧ forest (Dst.edges dst') ∧ joined (Dst.edges dst') 2 0.
Proof.
  destruct Prim_path3 as [dst' Hrun]. exists dst'. split; [done |].
  destruct (Prim_spanning_tree Z.ltb 1 stable_sort 3 dst_empty dst' path3
              None stable_sort_contract path3_wf Hrun)
    as (_ & _ & Hforest & _ & Hjoin).
  split; [done |]. apply Hjoin; simpl; set_solver.
Defined.

Lemma Dominators_untouched_and_reflexive_witness :
  ∃ d s, Dominators 20 0 diamond = Ok d ∧ d !! 2 = Some s ∧ 2 ∈ s.
Proof.
  destruct (Dominators_diamond) as (d & Hrun & _).
  destruct (Dominators_untouched_and_reflexive 20 0 diamond d
              diamond_preds_listed Hrun) as [_ Hrefl].
  destruct (Hrefl 2) as (s & Hs & H2); [simpl; set_solver |].
  by exists d, s.
Defined.

Lemma diamond_succs_listed : succs_listed diamond.
Proof. apply graph_of_succs_listed. repeat constructor; set_solver. Qed.

(** On the diamond with end node 3, the node 0 is post-dominated by 3 and
    by itself only. *)
Example PostDominators_diamond :
  ∃ d, PostDominators 20 3 diamond = Ok d ∧ d !! 0 = Some {[0; 3]}.
Proof. eexists. split; by vm_compute. Qed.

Lemma PostDominators_exact_witness :
  ∃ d s, PostDominators 20 3 diamond = Ok d ∧ d !! 0 = Some s
         ∧ (1 ∈ s ↔ 1 ∈ NodeList diamond ∧ postdominates diamond 3 1 0).
Proof.
  destruct (PostDominators_diamond) as (d & Hrun & H0).
  exists d, {[0; 3]}. split; [done |]. split; [done |].
  destruct (PostDominators_exact 20 3 diamond d diamond_succs_listed Hrun)
    as [_ Hex].
  apply (Hex 0 _ H0 1).
Defined.

(** ** The components that [Tarjan] returns *)

Section SCC_facts.
Context {float64 : Type} (graph : Graph float64) (U : NodeSet).

(** No path leaves the nodes that have been popped. *)
Lemma closed_reach st x y :
  conn_inv graph st → indexed st x → x ∉ vStack st → sreach graph x y →
  indexed st y ∧ y ∉ vStack st.
Proof.
  intros Hci Hx Hs Hr. induction Hr as [x | x z y Hxz _ IH]; [done |].
  destruct (ci_closed _ _ Hci x z Hx Hs Hxz). by apply IH.
Qed.

Lemma conn_sorted_split st s' node stack0 :
  conn_inv graph st → vStack st = s' ++ node :: stack0 →
  (∀ u, u ∈ stack0 → map_get (indices st) u < map_get (indices st) node)
  ∧ ∀ u, u ∈ s' → map_get (indices st) node < map_get (indices st) u.
Proof.
  intros Hci Hstack. split.
  - intros u Hu. by apply (ci_sorted _ _ Hci s' node stack0).
  - intros u Hu. apply list_elem_of_split in Hu as (a & b & ->).
    apply (ci_sorted _ _ Hci a u (b ++ node :: stack0)).
    + by rewrite Hstack, <- app_assoc.
    + apply elem_of_app. right. by left.
Qed.

Lemma conn_inv_discover B node st :
  tarjan_inv U B st → conn_inv graph st → indices st !! node = None →
  conn_inv graph (discover node st).
Proof.
  intros Hinv Hci Hnone.
  assert (∀ v, v ∈ vStack st → node ≠ v) as Hne.
  { intros v Hv <-. destruct (ti_stack _ _ _ Hinv node Hv) as [i Hi].
    congruence. }
  split; simpl.
  - intros v i [[-> <-] | [_ Hv]]%lookup_insert_Some; [lia |].
    pose proof (ci_lt _ _ Hci v i Hv). lia.
  - intros s1 v s2 Hstack u Hu. destruct s1 as [|x s1]; simplify_eq/=.
    + rewrite map_get_insert.
      rewrite map_get_insert_ne by (by apply Hne).
      destruct (ti_stack _ _ _ Hinv u Hu) as [i Hi].
      unfold map_get. rewrite Hi. simpl. by apply (ci_lt _ _ Hci u).
    + assert (v ∈ vStack st) as Hv.
      { rewrite H0. apply elem_of_app. right. by left. }
      assert (u ∈ vStack st) as Hu'.
      { rewrite H0. apply elem_of_app. right. by right. }
      rewrite !map_get_insert_ne by (by apply Hne).
      by apply (ci_sorted _ _ Hci s1 v s2).
  - intros v [-> | Hv]%elem_of_cons.
    + exists node. split; [by left |]. by rewrite !map_get_insert.
    + destruct (ci_low _ _ Hci v Hv) as (w & Hw & Hi & Hr).
      exists w. split; [by right |]. split; [| done].
      by rewrite !map_get_insert_ne by (by apply Hne).
  - intros x y [i Hx] Hs Hy. simpl in Hx.
    apply not_elem_of_cons in Hs as [Hxn Hs].
    rewrite lookup_insert_ne in Hx by done.
    destruct (ci_closed _ _ Hci x y (ex_intro _ i Hx) Hs Hy) as [[j Hj] Hys].
    assert (node ≠ y) as Hyn by (intros <-; congruence).
    split.
    + exists j. simpl. by rewrite lookup_insert_ne.
    + apply not_elem_of_cons. split; [done | done].
Qed.

Lemma conn_inv_tighten node succ st :
  conn_inv graph st →
  (map_get (lowlinks st) succ < map_get (lowlinks st) node →
   ∃ w, w ∈ vStack st
        ∧ map_get (indices st) w = map_get (lowlinks st) succ
        ∧ sreach graph node w) →
  conn_inv graph (tighten node succ st).
Proof.
  intros Hci Hsucc. split; simpl.
  - apply (ci_lt _ _ Hci).
  - apply (ci_sorted _ _ Hci).
  - intros v Hv. destruct (decide (node = v)) as [<- | Hne].
    + rewrite map_get_insert. unfold int_min.
      destruct (Z.min_spec (map_get (lowlinks st) node)
                           (map_get (lowlinks st) succ)) as [[Hlt ->] | [Hle ->]].
      * by apply (ci_low _ _ Hci).
      * destruct (decide (map_get (lowlinks st) succ
                          = map_get (lowlinks st) node)) as [-> | Hneq].
        -- by apply (ci_low _ _ Hci).
        -- apply Hsucc. lia.
    + rewrite map_get_insert_ne by done. by apply (ci_low _ _ Hci).
  - apply (ci_closed _ _ Hci).
Qed.

Lemma conn_inv_pop B st s' node stack0 sset' log' :
  tarjan_inv U B st → conn_inv graph st →
  vStack st = s' ++ node :: stack0 →
  (∀ x, x ∈ s' ++ [node] → ∀ y, y ∈ Successors graph x →
        indexed st y ∧ y ∉ stack0) →
  conn_inv graph {| index := index st; vStack := stack0;
                    stackSet := sset'; lowlinks := lowlinks st;
                    indices := indices st; pushes := pushes st;
                    pops := log' |}.
Proof.
  intros Hinv Hci Hstack Hseg.
  destruct (conn_sorted_split st s' node stack0 Hci Hstack) as [Hbelow Habove].
  assert (∀ v, v ∈ stack0 → v ∈ vStack st) as Hsub.
  { intros v Hv. rewrite Hstack. apply elem_of_app. right. by right. }
  split; simpl.
  - apply (ci_lt _ _ Hci).
  - intros s1 v s2 Hs0 u Hu.
    apply (ci_sorted _ _ Hci (s' ++ node :: s1) v s2); [| done].
    by rewrite Hstack, Hs0, <- app_assoc.
  - intros v Hv.
    destruct (ci_low _ _ Hci v (Hsub v Hv)) as (w & Hw & Hi & Hr).
    exists w. split; [| done].
    pose proof (ti_le _ _ _ Hinv v (ti_stack _ _ _ Hinv v (Hsub v Hv))) as Hle.
    pose proof (Hbelow v Hv) as Hlt.
    rewrite Hstack in Hw.
    apply elem_of_app in Hw as [Hw | [-> | Hw]%elem_of_cons]; [| lia | done].
    pose proof (Habove w Hw). lia.
  - intros x y Hx Hs Hy. change (indexed st y ∧ y ∉ stack0).
    change (indexed st x) in Hx.
    destruct (decide (x ∈ vStack st)) as [Hin | Hout].
    + apply (Hseg x); [| done]. rewrite Hstack in Hin.
      apply elem_of_app in Hin as [Hin | [-> | Hin]%elem_of_cons];
        [apply elem_of_app; by left | apply elem_of_app; right; by left
        | done].
    + destruct (ci_closed _ _ Hci x y Hx Hout Hy) as [Hyi Hys].
      split; [done |]. intros H0. by apply Hys, Hsub.
Qed.

Lemma scc_frame_tighten node succ st0 st b b' :
  scc_frame graph node st0 st b → indices st0 !! node = None → b' ≤ b →
  scc_frame graph node st0 (tighten node succ st) b'.
Proof.
  intros Hfr Hnone Hb. split; simpl.
  - apply (fr_to _ _ _ _ _ Hfr).
  - apply (fr_from _ _ _ _ _ Hfr).
  - apply (fr_new _ _ _ _ _ Hfr).
  - intros v [i Hv]. rewrite map_get_insert_ne by (intros ->; congruence).
    apply (fr_low _ _ _ _ _ Hfr). by exists i.
  - intros v Hv Hv0 Hne.
    destruct (fr_done _ _ _ _ _ Hfr v Hv Hv0 Hne) as [Hd Hlow].
    unfold done_on. simpl. rewrite map_get_insert_ne by done.
    split; [done | lia].
Qed.

Lemma strongconnect_succs_scc f node B st0 :
  strongconnect_scc_spec graph U f →
  indices st0 !! node = None →
  ∀ succs pre st,
    (∀ s, s ∈ succs → s ∈ U ∧ s ∈ Successors graph node) →
    tarjan_inv U B st → conn_inv graph st →
    tarjan_ext (discover node st0) st →
    scc_frame graph node st0 st (map_get (lowlinks st) node) →
    succs_done st (map_get (lowlinks st) node) pre →
    (unvisited U st ≤ f)%nat →
    ∃ st', strongconnect_succs (strongconnect f graph) node succs st = Ok st'
           ∧ tarjan_inv U B st' ∧ tarjan_ext (discover node st0) st'
           ∧ conn_inv graph st'
           ∧ scc_frame graph node st0 st' (map_get (lowlinks st') node)
           ∧ succs_done st' (map_get (lowlinks st') node) (pre ++ succs).
Proof.
  intros Hrec Hnone.
  induction succs as [|succ rest IH]; intros pre st Hl Hinv Hci Hext Hfr Hpre Hf.
  { exists st. by rewrite app_nil_r. }
  assert (node ∈ vStack st) as Hnode.
  { destruct (te_stack _ _ Hext) as (s' & -> & _). simpl.
    apply elem_of_app. right. by left. }
  assert (indices st !! node = Some (index st0)) as Hidxn.
  { rewrite (te_indices _ _ Hext); simpl; [by rewrite lookup_insert_eq |].
    unfold indexed. simpl. rewrite lookup_insert_eq. by eexists. }
  assert (index st0 < index st) as Hcount.
  { pose proof (te_index _ _ Hext) as H. simpl in H. lia. }
  assert (tarjan_ext st0 st) as Hext0.
  { eapply tarjan_ext_trans; [by apply discover_ext | done]. }
  destruct (Hl succ) as [HsU Hedge]; [by left |].
  assert (∀ s, s ∈ rest → s ∈ U ∧ s ∈ Successors graph node) as Hl'.
  { intros s Hs. apply Hl. by right. }
  assert (∀ st', (∃ st2,
      strongconnect_succs (strongconnect f graph) node rest st' = Ok st2
      ∧ tarjan_inv U B st2 ∧ tarjan_ext (discover node st0) st2
      ∧ conn_inv graph st2
      ∧ scc_frame graph node st0 st2 (map_get (lowlinks st2) node)
      ∧ succs_done st2 (map_get (lowlinks st2) node) ((pre ++ [succ]) ++ rest))
    → ∃ st2,
      strongconnect_succs (strongconnect f graph) node rest st' = Ok st2
      ∧ tarjan_inv U B st2 ∧ tarjan_ext (discover node st0) st2
      ∧ conn_inv graph st2
      ∧ scc_frame graph node st0 st2 (map_get (lowlinks st2) node)
      ∧ succs_done st2 (map_get (lowlinks st2) node) (pre ++ succ :: rest))
    as Hshape.
  { intros st'. by rewrite <- app_assoc. }
  simpl. destruct (indices st !! succ) as [i|] eqn:Hsucc.
  - case_decide as Hon.
    + assert (succ ∈ vStack st) as Hon' by (by apply (ti_set _ _ _ Hinv)).
      pose proof (ti_le _ _ _ Hinv succ (ex_intro _ i Hsucc)) as Hle.
      apply Hshape, IH; [done | | | | | | done].
      * apply tighten_inv; [done.. |]. by apply (ti_low _ _ _ Hinv).
      * apply conn_inv_tighten; [done |]. intros _.
        destruct (ci_low _ _ Hci succ Hon') as (w & Hw & Hi & Hr).
        exists w. split; [done |]. split; [done |]. by eapply rtc_l.
      * by apply tighten_ext.
      * eapply scc_frame_tighten; [done | done |]. simpl.
        rewrite map_get_insert. unfold int_min. lia.
      * simpl. rewrite map_get_insert.
        intros y [Hy | ->%list_elem_of_singleton]%elem_of_app.
        -- destruct (Hpre y Hy) as [Hyi Hyb]. split; [done |].
           intros Hs. specialize (Hyb Hs). simpl. unfold int_min. lia.
        -- split; [by exists i |]. intros _. simpl. unfold int_min. lia.
    + apply Hshape, IH; [done..| | done].
      intros y [Hy | ->%list_elem_of_singleton]%elem_of_app; [by apply Hpre |].
      split; [by exists i |]. intros Hs. by apply (ti_set _ _ _ Hinv) in Hs.
  - destruct (Hrec succ st B Hinv Hci) as (scc & st1 & -> & Hpost & Hcpost);
      [| done | done | done |].
    { intros v Hv. eapply rtc_r; [by apply (fr_to _ _ _ _ _ Hfr) | done]. }
    destruct Hpost as (Hinv1 & Hext1 & Hidx1 & Hlow1 & Hcase).
    destruct Hcpost as (Hci1 & Hfrom1 & Hnew1 & Hsame1 & Hstk1 & _). simpl.
    destruct (te_stack _ _ Hext1) as (s1 & Hs1 & Hs1new).
    assert (∀ v, v ∈ vStack st1 → indexed st v → v ∈ vStack st) as Hold.
    { intros v Hv [j Hj]. rewrite Hs1 in Hv.
      apply elem_of_app in Hv as [Hv | Hv]; [| done].
      specialize (Hs1new v Hv). congruence. }
    assert (node ∈ vStack st1) as Hnode1.
    { rewrite Hs1. apply elem_of_app. by right. }
    assert (∀ v, indexed st v →
                 map_get (indices st1) v = map_get (indices st) v) as Hidxsame.
    { intros v Hv. unfold map_get. by rewrite (te_indices _ _ Hext1). }
    assert (map_get (indices st1) succ = index st) as Hsuccidx.
    { unfold map_get. by rewrite Hidx1. }
    pose proof (ti_le _ _ _ Hinv1 succ (ex_intro _ _ Hidx1)) as Hle_succ.
    rewrite Hsuccidx in Hle_succ.
    assert (indexed st node) as Hnodei by (by eexists).
    pose proof (Hsame1 node Hnodei) as Hnode_low.
    assert (map_get (lowlinks st) node < index st) as Hnode_lt.
    { pose proof (ti_le _ _ _ Hinv node Hnodei) as H.
      unfold map_get at 2 in H. rewrite Hidxn in H. simpl in H. lia. }
    assert (map_get (lowlinks st1) succ ≠ index st → succ ∈ vStack st1 →
            ∃ w, w ∈ vStack st
                 ∧ map_get (indices st1) w = map_get (lowlinks st1) succ
                 ∧ sreach graph succ w) as Hback.
    { intros Hne Hon.
      destruct (ci_low _ _ Hci1 succ Hon) as (w & Hw & Hi & Hr).
      exists w. split; [| done]. apply Hold; [done |].
      destruct (indices st !! w) as [j|] eqn:Hwst; [by eexists |].
      exfalso. destruct (ti_stack _ _ _ Hinv1 w Hw) as [j Hj].
      pose proof (Hnew1 w j Hwst Hj) as Hge.
      unfold map_get at 1 in Hi. rewrite Hj in Hi. simpl in Hi. lia. }
    apply Hshape, IH; [done | | | | | |].
    + by apply tighten_inv.
    + apply conn_inv_tighten; [done |]. intros Hlt.
      destruct Hcase as [(_ & Hon & Hne) | (_ & Heq & _)]; [| lia].
      destruct (Hback Hne Hon) as (w & Hw & Hi & Hr).
      exists w. split; [| split; [done | by eapply rtc_l]].
      rewrite Hs1. apply elem_of_app. by right.
    + eapply tarjan_ext_trans; [exact Hext |]. by apply tighten_ext.
    + apply (scc_frame_tighten node succ st0 st1
               (int_min (map_get (lowlinks st1) node)
                        (map_get (lowlinks st1) succ)));
        [| done | simpl; rewrite map_get_insert; lia].
      split.
      * intros v Hv. destruct (indices st !! v) as [j|] eqn:Hvst.
        { apply (fr_to _ _ _ _ _ Hfr), Hold; [done | by eexists]. }
        destruct (Hstk1 v Hv Hvst) as (Hvs & _).
        etrans; [exact Hvs |].
        destruct Hcase as [(_ & Hon & Hne) | (Hst & _)].
        -- destruct (Hback Hne Hon) as (w & Hw & _ & Hr).
           etrans; [exact Hr |]. by apply (fr_to _ _ _ _ _ Hfr).
        -- exfalso. rewrite Hst in Hv.
           destruct (ti_stack _ _ _ Hinv v Hv) as [j Hj]. congruence.
      * intros v Hv0 Hv1. destruct (indices st !! v) as [j|] eqn:Hvst.
        { apply (fr_from _ _ _ _ _ Hfr); [done | by eexists]. }
        eapply rtc_l; [exact Hedge |]. by apply Hfrom1.
      * intros v k Hv0 Hvk. destruct (indices st !! v) as [j|] eqn:Hvst.
        { rewrite (te_indices _ _ Hext1) in Hvk by (by eexists).
          apply (fr_new _ _ _ _ _ Hfr v k Hv0). congruence. }
        specialize (Hnew1 v k Hvst Hvk). lia.
      * intros v Hv. rewrite Hsame1 by (by eapply tarjan_ext_indexed).
        by apply (fr_low _ _ _ _ _ Hfr).
      * intros v Hv Hv0 Hne. destruct (indices st !! v) as [j|] eqn:Hvst.
        { assert (indexed st v) as Hvi by (by eexists).
          assert (v ∈ vStack st) as Hvs by (by apply Hold).
          destruct (fr_done _ _ _ _ _ Hfr v Hvs Hv0 Hne) as [Hd Hb]. split.
          - intros y Hy. destruct (Hd y Hy) as [Hyi Hyb].
            split; [by eapply tarjan_ext_indexed |].
            intros Hys. rewrite (Hsame1 v), (Hidxsame y) by done.
            apply Hyb. by apply Hold.
          - rewrite (Hsame1 v) by done. unfold int_min. lia. }
        destruct (Hstk1 v Hv Hvst) as (_ & Hd & Hb).
        split; [done |]. unfold int_min. lia.
    + simpl. rewrite map_get_insert.
      intros y [Hy | ->%list_elem_of_singleton]%elem_of_app.
      * destruct (Hpre y Hy) as [Hyi Hyb].
        split; [change (indexed st1 y); by eapply tarjan_ext_indexed |].
        intros Hys. simpl in Hys |- *. rewrite (Hidxsame y) by done.
        specialize (Hyb (Hold y Hys Hyi)). unfold int_min. lia.
      * split; [exists (index st); exact Hidx1 |].
        intros _. simpl. rewrite Hsuccidx. unfold int_min. lia.
    + pose proof (unvisited_ext U _ _ Hext1). unfold unvisited in *.
      simpl. lia.
Qed.

End SCC_facts.

Section SCC_calls.
Context {float64 : Type} (graph : Graph float64) (U : NodeSet).

Lemma strongconnect_scc_ok :
  successor_closed graph U → ∀ fuel, strongconnect_scc_spec graph U fuel.
Proof.
  intros Hsuccs. induction fuel as [|f IHf];
    intros node st B Hinv Hci Hto Hnone Hnode Hfuel;
    pose proof (unvisited_discover U node st Hnone Hnode) as Hunv; [lia |].
  destruct (strongconnect_ok graph U Hsuccs (S f) node st B Hinv Hnone Hnode
              Hfuel) as (scc & st' & Hcall & Hpost).
  exists scc, st'. split; [done |]. split; [done |].
  set (st1 := discover node st) in *.
  assert (∀ v, v ∈ vStack st → node ≠ v) as Hne.
  { intros v Hv <-. destruct (ti_stack _ _ _ Hinv node Hv) as [i Hi].
    congruence. }
  destruct (strongconnect_succs_scc graph U f node B st IHf Hnone
              (Successors graph node) [] st1)
    as (st2 & Hrun & Hinv2 & Hext2 & Hci2 & Hfr2 & Hdone2).
  { intros s Hs. split; [by eapply (proj2 Hsuccs) | done]. }
  { by apply discover_inv. }
  { by eapply conn_inv_discover. }
  { apply tarjan_ext_refl. }
  { split; simpl.
    - intros v [-> | Hv]%elem_of_cons; [done | by apply Hto].
    - intros v Hv [i Hi]. simpl in Hi.
      apply lookup_insert_Some in Hi as [[-> _] | [_ Hi]]; [done | congruence].
    - intros v i Hv [[_ <-] | [_ Hi]]%lookup_insert_Some; [done | congruence].
    - intros v [i Hi]. rewrite map_get_insert_ne; [done |].
      intros ->. congruence.
    - intros v [-> | Hv]%elem_of_cons Hv0 Hvn; [done |].
      destruct (ti_stack _ _ _ Hinv v Hv) as [i Hi]. congruence. }
  { by intros y Hy%elem_of_nil. }
  { lia. }
  simpl in Hdone2.
  pose proof (discover_ext node st Hnone) as Hext1. fold st1 in Hext1.
  pose proof (tarjan_ext_trans _ _ _ Hext1 Hext2) as Hext.
  assert (indices st2 !! node = Some (index st)) as Hidx.
  { rewrite (te_indices _ _ Hext2); simpl; [by rewrite lookup_insert_eq |].
    unfold indexed. simpl. rewrite lookup_insert_eq. by eexists. }
  destruct (te_stack _ _ Hext2) as (s' & Hstack & Hnew). simpl in Hstack.
  assert (node ∉ s') as Hnot.
  { pose proof (ti_nodup _ _ _ Hinv2) as Hnd. rewrite Hstack in Hnd.
    apply NoDup_app in Hnd as (_ & Hdisj & _).
    intros Hs. apply (Hdisj node Hs). by left. }
  assert (∀ v, v ∈ s' → indices st !! v = None ∧ v ≠ node) as Hnew'.
  { intros v Hv. specialize (Hnew v Hv). simpl in Hnew.
    apply lookup_insert_None in Hnew as [Hv0 Hvn]. done. }
  assert (map_get (indices st2) node = index st) as Hget.
  { unfold map_get. by rewrite Hidx. }
  change (strongconnect (S f) graph node st)
    with (st1' ←! strongconnect_succs (strongconnect f graph) node
                    (Successors graph node) st1;
          if decide (map_get (lowlinks st1') node = map_get (indices st1') node)
          then
            r ←! strongconnect_pop node (vStack st1') (stackSet st1')
                   (pops st1') [];
            Ok (r.1, {| index := index st1';
                        vStack := r.2.1.1;
                        stackSet := r.2.1.2;
                        lowlinks := lowlinks st1';
                        indices := indices st1';
                        pushes := pushes st1';
                        pops := r.2.2 |})
          else Ok ([], st1')) in Hcall.
  rewrite Hrun in Hcall. simpl in Hcall. rewrite Hget in Hcall.
  case_decide as Hroot.
  - destruct (strongconnect_pop_ok node s' (vStack st) (stackSet st2)
                (pops st2) [] Hnot) as (sset' & log' & Hpop & Hset & Hlog).
    rewrite Hstack, Hpop in Hcall. simpl in Hcall.
    injection Hcall as <- <-.
    destruct (conn_sorted_split graph st2 s' node (vStack st) Hci2 Hstack)
      as [Hbelow Habove].
    assert (∀ v, v ∈ vStack st → v ∈ vStack st2) as Hsub.
    { intros v Hv. rewrite Hstack. apply elem_of_app. right. by right. }
    assert (conn_inv graph
              {| index := index st2; vStack := vStack st;
                 stackSet := sset'; lowlinks := lowlinks st2;
                 indices := indices st2; pushes := pushes st2;
                 pops := log' |}) as Hci'.
    { eapply conn_inv_pop; [done | done | done |].
      intros x Hx y Hy.
      assert (succs_done st2 (index st) (Successors graph x)) as Hd.
      { apply elem_of_app in Hx as [Hx | ->%list_elem_of_singleton].
        - destruct (Hnew' x Hx) as [Hx0 Hxn].
          destruct (fr_done _ _ _ _ _ Hfr2 x) as [Hd Hb]; [| done | done |].
          { rewrite Hstack. apply elem_of_app. by left. }
          intros z Hz. destruct (Hd z Hz) as [Hzi Hzb].
          split; [done |]. intros Hzs. specialize (Hzb Hzs). lia.
        - by rewrite <- Hroot. }
      destruct (Hd y Hy) as [Hyi Hyb]. split; [done |].
      intros Hys. specialize (Hyb (Hsub y Hys)).
      pose proof (Hbelow y Hys). lia. }
    split; [done |].
    split; [apply (fr_from _ _ _ _ _ Hfr2) |].
    split; [apply (fr_new _ _ _ _ _ Hfr2) |].
    split; [apply (fr_low _ _ _ _ _ Hfr2) |].
    split.
    { intros v Hv Hv0. simpl in Hv.
      destruct (ti_stack _ _ _ Hinv v Hv) as [i Hi]. congruence. }
    intros _ b. simpl. split.
    + intros Hb.
      assert (b ∈ vStack st2) as Hbs.
      { rewrite Hstack.
        apply elem_of_app in Hb as [Hb | ->%list_elem_of_singleton];
          apply elem_of_app; [by left | right; by left]. }
      split; [| by apply (fr_to _ _ _ _ _ Hfr2)].
      apply (fr_from _ _ _ _ _ Hfr2); [| by apply (ti_stack _ _ _ Hinv2)].
      apply elem_of_app in Hb as [Hb | ->%list_elem_of_singleton];
        [by apply Hnew' | done].
    + intros [Hnb Hbn].
      assert (node ∉ vStack st) as Hout.
      { intros Hin. by apply (Hne node). }
      destruct (closed_reach graph _ node b Hci') as [Hbi Hbs];
        [by exists (index st) | done | done |].
      change (indexed st2 b) in Hbi. simpl in Hbs.
      destruct (decide (b ∈ vStack st2)) as [Hin | Hnin].
      * rewrite Hstack in Hin.
        apply elem_of_app in Hin as [Hin | [-> | Hin]%elem_of_cons];
          [apply elem_of_app; by left | apply elem_of_app; right; by left
          | done].
      * destruct (closed_reach graph st2 b node Hci2 Hbi Hnin Hbn) as [_ Hns].
        exfalso. apply Hns. rewrite Hstack. apply elem_of_app. right. by left.
  - injection Hcall as <- <-.
    split; [done |].
    split; [apply (fr_from _ _ _ _ _ Hfr2) |].
    split; [apply (fr_new _ _ _ _ _ Hfr2) |].
    split; [apply (fr_low _ _ _ _ _ Hfr2) |].
    split; [| done].
    intros v Hv Hv0. split; [by apply (fr_to _ _ _ _ _ Hfr2) |].
    destruct (decide (v = node)) as [-> | Hvn]; [done |].
    by apply (fr_done _ _ _ _ _ Hfr2).
Qed.

End SCC_calls.

Section SCC_driver.
Context {float64 : Type} (graph : Graph float64) (U : NodeSet).

Lemma first_reached_snoc pre n m :
  first_reached graph (pre ++ [n]) m ↔
  first_reached graph pre m ∨ (m = n ∧ ∀ x, x ∈ pre → ¬ sreach graph x n).
Proof.
  split.
  - intros (l1 & l2 & Heq & Hl1).
    destruct l2 as [|y l2 _] using rev_ind.
    + apply app_inj_tail in Heq as [-> ->]. right. done.
    + change (l1 ++ m :: l2 ++ [y]) with (l1 ++ (m :: l2) ++ [y]) in Heq.
      rewrite app_assoc in Heq. apply app_inj_tail in Heq as [-> ->].
      left. by exists l1, l2.
  - intros [(l1 & l2 & -> & Hl1) | [-> Hpre]].
    + exists l1, (l2 ++ [n]). split; [by rewrite <- app_assoc | done].
    + by exists pre, [].
Qed.

Lemma driver_scc_init : driver_scc graph [] tarjan_init [].
Proof.
  split; [| split; [| split]].
  - split; simpl.
    + intros v i Hv. by rewrite lookup_empty in Hv.
    + intros s1 v s2 Hs. by destruct s1.
    + by intros v Hv%elem_of_nil.
    + intros x y [i Hx]. simpl in Hx. by rewrite lookup_empty in Hx.
  - intros v. split.
    + intros [i Hv]. simpl in Hv. by rewrite lookup_empty in Hv.
    + by intros (x & Hx%elem_of_nil & _).
  - by intros scc Hscc%elem_of_nil.
  - intros n (l1 & l2 & Heq & _). by destruct l1.
Qed.

Lemma driver_scc_skip pre n st sccs :
  driver_scc graph pre st sccs → vStack st = [] → indexed st n →
  driver_scc graph (pre ++ [n]) st sccs.
Proof.
  intros (Hci & Hidx & Hsccs & Hall) Hnil Hn.
  split; [done |]. split; [| split].
  - intros v. rewrite Hidx. split.
    + intros (x & Hx & Hr). exists x. split; [| done].
      apply elem_of_app. by left.
    + intros (x & [Hx | ->%list_elem_of_singleton]%elem_of_app & Hr).
      * by exists x.
      * apply Hidx.
        destruct (closed_reach graph st n v Hci Hn) as [Hvi _]; [| done..].
        rewrite Hnil. by intros ?%elem_of_nil.
  - intros scc Hscc. destruct (Hsccs scc Hscc) as (m & Hm & Hlast & Hcomp).
    exists m. split; [| done]. apply first_reached_snoc. by left.
  - intros m [Hm | [-> Hpre]]%first_reached_snoc; [by apply Hall |].
    apply Hidx in Hn as (x & Hx & Hr). by destruct (Hpre x Hx).
Qed.

Lemma Tarjan_loop_scc fuel :
  successor_closed graph U →
  ∀ l pre st sccs,
    (∀ n, n ∈ l → n ∈ U) →
    driver_inv U st sccs → driver_scc graph pre st sccs →
    (unvisited U st ≤ fuel)%nat →
    ∃ sccs' st', Tarjan_loop fuel graph l st sccs = Ok (sccs', st')
                 ∧ driver_scc graph (pre ++ l) st' sccs'.
Proof.
  intros Hsuccs. induction l as [|n rest IH]; intros pre st sccs Hl Hdrv Hscc
    Hfuel.
  { exists sccs, st. by rewrite app_nil_r. }
  assert (∀ m, m ∈ rest → m ∈ U) as Hl'.
  { intros m Hm. apply Hl. by right. }
  change (n :: rest) with ([n] ++ rest). rewrite app_assoc.
  simpl. destruct Hdrv as (Hinv & Hnil & Hne & Hnd & Hidx).
  destruct (indices st !! n) as [i|] eqn:Hn.
  { apply IH; [done | done | | done].
    apply driver_scc_skip; [done | done | by exists i]. }
  destruct (strongconnect_toplevel graph U fuel n st Hsuccs Hinv Hnil Hn)
    as (scc & st' & Hrun & Hinv' & Hnil' & Hext & (s' & Hs) & Hnd' & Hall);
    [apply Hl; by left | done |].
  destruct Hscc as (Hci & Hreach & Hsccs & Hfirst).
  destruct (strongconnect_scc_ok graph U Hsuccs fuel n st (index st) Hinv Hci)
    as (scc2 & st2 & Hrun2 & _ & Hcpost); [| done | | done |].
  { rewrite Hnil. by intros v Hv%elem_of_nil. }
  { apply Hl. by left. }
  rewrite Hrun in Hrun2. injection Hrun2 as <- <-.
  destruct Hcpost as (Hci' & Hfrom & _ & _ & _ & Hcomp).
  rewrite Hrun. simpl. apply IH; [done | | |].
  - split; [done |]. split; [done |]. split; [| split].
    + apply Forall_app. split; [done |]. apply Forall_singleton.
      rewrite Hs. by destruct s'.
    + rewrite concat_app. simpl. rewrite app_nil_r.
      apply NoDup_app. split; [done |]. split; [| done].
      intros v Hv Hvscc. destruct (Hidx v Hv) as [j Hj].
      destruct (Hall v Hvscc) as [Hnone _]. congruence.
    + intros v. rewrite concat_app. simpl. rewrite app_nil_r.
      intros [Hv | Hv]%elem_of_app.
      * eapply tarjan_ext_indexed; [done |]. by apply Hidx.
      * by apply Hall.
  - assert (n ∈ scc) as Hnscc.
    { rewrite Hs. apply elem_of_app. right. by left. }
    assert (∀ x, x ∈ pre → ¬ sreach graph x n) as Hpre.
    { intros x Hx Hr.
      assert (indexed st n) as [j Hj] by (apply Hreach; by exists x).
      congruence. }
    split; [done |]. split; [| split].
    + intros v. split.
      * intros Hv. destruct (indices st !! v) as [j|] eqn:Hvst.
        -- destruct (proj1 (Hreach v) (ex_intro _ j Hvst)) as (x & Hx & Hr).
           exists x. split; [apply elem_of_app; by left | done].
        -- exists n. split; [apply elem_of_app; right; by left |].
           by apply Hfrom.
      * intros (x & [Hx | ->%list_elem_of_singleton]%elem_of_app & Hr).
        -- eapply tarjan_ext_indexed; [done |]. apply Hreach. by exists x.
        -- destruct (closed_reach graph st' n v Hci') as [Hvi _];
             [by apply Hall | | done | done].
           rewrite Hnil'. by intros ?%elem_of_nil.
    + intros scc0 [Hscc0 | ->%list_elem_of_singleton]%elem_of_app.
      * destruct (Hsccs scc0 Hscc0) as (m & Hm & Hlast & Hc).
        exists m. split; [| done]. apply first_reached_snoc. by left.
      * exists n. split; [apply first_reached_snoc; by right |].
        split; [rewrite Hs; apply last_snoc |].
        apply Hcomp. rewrite Hs. by destruct s'.
    + intros m [Hm | [-> _]]%first_reached_snoc.
      * destruct (Hfirst m Hm) as (scc0 & Hscc0 & Hlast).
        exists scc0. split; [apply elem_of_app; by left | done].
      * exists scc. split; [apply elem_of_app; right; by left |].
        rewrite Hs. apply last_snoc.
  - pose proof (unvisited_ext U _ _ Hext). lia.
Qed.

(** The run of [Tarjan] with enough fuel, and what its loop has kept. *)
Lemma Tarjan_scc_result fuel :
  successor_closed graph U → (size U ≤ fuel)%nat →
  ∃ sccs st, Tarjan fuel graph = Ok sccs
             ∧ driver_scc graph (NodeList graph) st sccs.
Proof.
  intros Hsuccs Hfuel.
  destruct (Tarjan_loop_scc fuel Hsuccs (NodeList graph) [] tarjan_init [])
    as (sccs & st & Hrun & Hscc).
  - apply (proj1 Hsuccs).
  - apply tarjan_init_inv.
  - apply driver_scc_init.
  - pose proof (unvisited_le_size U tarjan_init). lia.
  - exists sccs, st. split; [| done].
    unfold Tarjan, Tarjan_run. by rewrite Hrun.
Qed.

End SCC_driver.

Section SCC_theorems.
Context {float64 : Type}.

(** X8.  Let [U] be a finite set that holds the listed nodes and the
    successors of its members, and let the fuel allow a recursion as deep
    as [U] is large.  Every component that [Tarjan] returns is a strongly
    connected component of the graph: with any of its nodes it holds
    exactly the nodes that this node reaches and that reach it, along
    successor edges. *)
Theorem Tarjan_returns_strong_components (graph : Graph float64)
    (U : NodeSet) (fuel : nat) :
  successor_closed graph U → (size U ≤ fuel)%nat →
  ∃ sccs, Tarjan fuel graph = Ok sccs
          ∧ ∀ scc a, scc ∈ sccs → a ∈ scc →
                     ∀ b, b ∈ scc ↔ sreach graph a b ∧ sreach graph b a.
Proof.
  intros Hsuccs Hfuel.
  destruct (Tarjan_scc_result graph U fuel Hsuccs Hfuel)
    as (sccs & st & Hrun & _ & _ & Hsccs & _).
  exists sccs. split; [done |].
  intros scc a Hscc Ha b.
  destruct (Hsccs scc Hscc) as (n & _ & _ & Hcomp).
  destruct (proj1 (Hcomp a) Ha) as [Hna Han].
  rewrite (Hcomp b). split; intros [H1 H2].
  - split; [by etrans | by etrans].
  - split; [by etrans | by etrans].
Qed.

(** X9.  Under the same conditions, the components that [Tarjan] returns
    are those of the listed nodes that no node listed before them
    reaches: each returned component ends in such a node, and for every
    such node a component that ends in it is returned. *)
Theorem Tarjan_returns_first_reached (graph : Graph float64)
    (U : NodeSet) (fuel : nat) :
  successor_closed graph U → (size U ≤ fuel)%nat →
  ∃ sccs, Tarjan fuel graph = Ok sccs
          ∧ (∀ scc, scc ∈ sccs →
               ∃ l1 n l2, NodeList graph = l1 ++ n :: l2
                          ∧ (∀ x, x ∈ l1 → ¬ sreach graph x n)
                          ∧ last scc = Some n)
          ∧ ∀ l1 n l2, NodeList graph = l1 ++ n :: l2 →
                       (∀ x, x ∈ l1 → ¬ sreach graph x n) →
                       ∃ scc, scc ∈ sccs ∧ last scc = Some n.
Proof.
  intros Hsuccs Hfuel.
  destruct (Tarjan_scc_result graph U fuel Hsuccs Hfuel)
    as (sccs & st & Hrun & _ & _ & Hsccs & Hfirst).
  exists sccs. split; [done |]. split.
  - intros scc Hscc.
    destruct (Hsccs scc Hscc) as (n & (l1 & l2 & Heq & Hl1) & Hlast & _).
    by exists l1, n, l2.
  - intros l1 n l2 Heq Hl1. apply Hfirst. by exists l1, l2.
Qed.

End SCC_theorems.

Lemma Tarjan_returns_strong_components_witness :
  ∃ sccs, Tarjan 4 two_cycles = Ok sccs
          ∧ ∀ scc a, scc ∈ sccs → a ∈ scc →
                     ∀ b, b ∈ scc ↔ sreach two_cycles a b ∧ sreach two_cycles b a.
Proof.
  apply (Tarjan_returns_strong_components two_cycles
           (list_to_set (NodeList two_cycles)) 4
           (succs_listed_closed _ two_cycles_succs_listed)).
  vm_compute. lia.
Defined.

Lemma Tarjan_returns_first_reached_witness :
  ∃ sccs, Tarjan 4 two_cycles = Ok sccs
          ∧ ∃ scc, scc ∈ sccs ∧ last scc = Some 2.
Proof.
  destruct (Tarjan_returns_first_reached two_cycles
              (list_to_set (NodeList two_cycles)) 4
              (succs_listed_closed _ two_cycles_succs_listed)
              ltac:(vm_compute; lia)) as (sccs & Hrun & _ & Hall).
  exists sccs. split; [done |].
  apply (Hall [] 2 [1; 0; 3]); [done |]. by intros x Hx%elem_of_nil.
Defined.

(** ** [edgeSorter] *)

Section EdgeSorter_facts.
Context {float64 : Type}.
Variable float64_lt : float64 → float64 → bool.

Lemma slice_at_Ok {A : Type} (el : list A) (i : Z) :
  0 ≤ i < Z.of_nat (length el) →
  ∃ x, el !! Z.to_nat i = Some x ∧ slice_at el i = Ok x.
Proof.
  intros Hi. unfold slice_at. rewrite decide_True by done.
  destruct (lookup_lt_is_Some_2 el (Z.to_nat i)) as [x Hx]; [lia |].
  exists x. by rewrite Hx.
Qed.

Lemma slice_at_Panic {A : Type} (el : list A) (i : Z) :
  slice_at el i = Panic ↔ ¬ (0 ≤ i < Z.of_nat (length el)).
Proof.
  split.
  - intros Hp Hi. destruct (slice_at_Ok el i Hi) as (x & _ & Hx). congruence.
  - intros Hi. unfold slice_at. by rewrite decide_False.
Qed.

Lemma slice_at_cases {A : Type} (el : list A) (i : Z) :
  (∃ x, slice_at el i = Ok x ∧ 0 ≤ i < Z.of_nat (length el))
  ∨ (slice_at el i = Panic ∧ ¬ (0 ≤ i < Z.of_nat (length el))).
Proof.
  destruct (decide (0 ≤ i < Z.of_nat (length el))) as [Hi | Hi].
  - left. destruct (slice_at_Ok el i Hi) as (x & _ & Hx). by exists x.
  - right. split; [by apply slice_at_Panic | done].
Qed.

Lemma insert_exchange {A : Type} (l : list A) (j : nat) (a b : A) :
  l !! j = Some b → b :: <[j := a]> l ≡ₚ a :: l.
Proof.
  revert j. induction l as [|x l IH]; intros [|j] Hj; simplify_eq/=.
  - apply Permutation_swap.
  - rewrite (Permutation_swap x b), (IH j Hj). apply Permutation_swap.
Qed.

Lemma swap_Permutation {A : Type} (l : list A) (i j : nat) (a b : A) :
  l !! i = Some a → l !! j = Some b → <[j := a]> (<[i := b]> l) ≡ₚ l.
Proof.
  revert i j. induction l as [|x l IH]; intros [|i] [|j] Hi Hj;
    simplify_eq/=.
  - done.
  - by apply insert_exchange.
  - by apply insert_exchange.
  - f_equiv. by apply IH.
Qed.

Lemma edgeSorter_Swap_Ok (el : list (WeightedEdge float64)) (i j : Z) :
  0 ≤ i < edgeSorter_Len el → 0 ≤ j < edgeSorter_Len el →
  ∃ a b, el !! Z.to_nat i = Some a ∧ el !! Z.to_nat j = Some b
         ∧ edgeSorter_Swap el i j
           = Ok (<[Z.to_nat j := a]> (<[Z.to_nat i := b]> el)).
Proof.
  intros Hi Hj.
  destruct (slice_at_Ok el i Hi) as (a & Ha & Hai).
  destruct (slice_at_Ok el j Hj) as (b & Hb & Hbj).
  exists a, b. split; [done |]. split; [done |].
  unfold edgeSorter_Swap. by rewrite Hbj, Hai.
Qed.

Lemma slice_at_lookup {A : Type} (el el' : list A) (i k : Z) :
  length el' = length el → 0 ≤ i → 0 ≤ k →
  el' !! Z.to_nat i = el !! Z.to_nat k →
  (0 ≤ i < Z.of_nat (length el) ↔ 0 ≤ k < Z.of_nat (length el)) →
  slice_at el' i = slice_at el k.
Proof.
  intros Hlen Hi Hk Heq Hrange. unfold slice_at. rewrite Hlen, Heq.
  destruct (decide (0 ≤ i < Z.of_nat (length el))) as [Hin | Hout].
  - by rewrite decide_True by (by apply Hrange).
  - rewrite decide_False; [done |]. intros H. by apply Hout, Hrange.
Qed.

Lemma edgeSorter_Swap_in_range (el : list (WeightedEdge float64))
    (i j : Z) :
  0 ≤ i < edgeSorter_Len el → 0 ≤ j < edgeSorter_Len el →
  ∃ el', edgeSorter_Swap el i j = Ok el'
         ∧ edgeSorter_Len el' = edgeSorter_Len el
         ∧ el' ≡ₚ el
         ∧ slice_at el' i = slice_at el j
         ∧ slice_at el' j = slice_at el i
         ∧ (∀ k, k ≠ i → k ≠ j → slice_at el' k = slice_at el k)
         ∧ edgeSorter_Swap el' i j = Ok el.
Proof.
  intros Hi Hj.
  destruct (edgeSorter_Swap_Ok el i j Hi Hj) as (a & b & Ha & Hb & Hrun).
  unfold edgeSorter_Len in *.
  set (el' := <[Z.to_nat j := a]> (<[Z.to_nat i := b]> el)) in *.
  assert (length el' = length el) as Hlen.
  { unfold el'. by rewrite !length_insert. }
  assert (el' !! Z.to_nat j = Some a) as Hj'.
  { unfold el'. apply list_lookup_insert_eq. rewrite length_insert. lia. }
  assert (el' !! Z.to_nat i = Some b) as Hi'.
  { unfold el'. destruct (decide (Z.to_nat i = Z.to_nat j)) as [Heq | Hne].
    - rewrite Heq in *. rewrite list_lookup_insert_eq
        by (rewrite length_insert; lia). congruence.
    - rewrite list_lookup_insert_ne by done.
      apply list_lookup_insert_eq. lia. }
  exists el'. split; [done |]. split; [by rewrite Hlen |].
  split; [by apply swap_Permutation |].
  split; [apply slice_at_lookup; [done | lia | lia | congruence | lia] |].
  split; [apply slice_at_lookup; [done | lia | lia | congruence | lia] |].
  split.
  - intros k Hki Hkj. unfold slice_at. rewrite Hlen.
    case_decide as Hk; [| done].
    unfold el'. rewrite !list_lookup_insert_ne by lia. done.
  - destruct (edgeSorter_Swap_Ok el' i j) as (a' & b' & Ha' & Hb' & ->);
      [unfold edgeSorter_Len; lia.. |].
    f_equal. simplify_eq. unfold el'.
    apply list_eq. intros k.
    destruct (decide (k = Z.to_nat j)) as [-> | Hkj].
    + rewrite list_lookup_insert_eq by (rewrite !length_insert; lia). done.
    + rewrite list_lookup_insert_ne by done.
      destruct (decide (k = Z.to_nat i)) as [-> | Hki].
      * rewrite list_lookup_insert_eq by (rewrite !length_insert; lia). done.
      * by rewrite !list_lookup_insert_ne by done.
Qed.

(** X10.  [Swap(i, j)] with both indices in range does not panic; it
    leaves a slice of the same length that is a rearrangement of the old
    one, with the elements at [i] and [j] exchanged and every other
    element in its place; and a second [Swap(i, j)] restores the slice. *)
Theorem edgeSorter_Swap_exchanges (el : list (WeightedEdge float64))
    (i j : Z) :
  0 ≤ i < edgeSorter_Len el → 0 ≤ j < edgeSorter_Len el →
  ∃ el', edgeSorter_Swap el i j = Ok el'
         ∧ edgeSorter_Len el' = edgeSorter_Len el
         ∧ el' ≡ₚ el
         ∧ slice_at el' i = slice_at el j
         ∧ slice_at el' j = slice_at el i
         ∧ (∀ k, k ≠ i → k ≠ j → slice_at el' k = slice_at el k)
         ∧ edgeSorter_Swap el' i j = Ok el.
Proof. apply edgeSorter_Swap_in_range. Qed.

(** X11.  [Less(i, j)] and [Swap(i, j)] panic exactly when one of the
    indices is out of range; and after a [Swap(i, j)] that returns,
    [Less(i, j)] is what [Less(j, i)] was before it, and [Less(j, i)] is
    what [Less(i, j)] was. *)
Theorem edgeSorter_bounds (el : list (WeightedEdge float64)) (i j : Z) :
  (edgeSorter_Swap el i j = Panic ↔
   ¬ (0 ≤ i < edgeSorter_Len el ∧ 0 ≤ j < edgeSorter_Len el))
  ∧ (edgeSorter_Less_at float64_lt el i j = Panic ↔
     ¬ (0 ≤ i < edgeSorter_Len el ∧ 0 ≤ j < edgeSorter_Len el))
  ∧ ∀ el', edgeSorter_Swap el i j = Ok el' →
           edgeSorter_Less_at float64_lt el' i j
           = edgeSorter_Less_at float64_lt el j i
           ∧ edgeSorter_Less_at float64_lt el' j i
             = edgeSorter_Less_at float64_lt el i j.
Proof.
  unfold edgeSorter_Len.
  destruct (slice_at_cases el i) as [(a & Ha & Hi) | [Hpi Hi]];
    destruct (slice_at_cases el j) as [(b & Hb & Hj) | [Hpj Hj]].
  - destruct (edgeSorter_Swap_in_range el i j Hi Hj)
      as (el' & Hrun & _ & _ & Hi' & Hj' & _).
    split; [rewrite Hrun; split; [done | intros H; by destruct H] |].
    split.
    { unfold edgeSorter_Less_at. rewrite Ha, Hb. simpl.
      split; [done | intros H; by destruct H]. }
    intros el'' Hrun'. rewrite Hrun in Hrun'. injection Hrun' as <-.
    unfold edgeSorter_Less_at. by rewrite Hi', Hj'.
  - unfold edgeSorter_Swap, edgeSorter_Less_at. rewrite Ha, Hpj. simpl.
    split; [split; [intros _ [_ ?]; done | done] |].
    split; [split; [intros _ [_ ?]; done | done] | done].
  - unfold edgeSorter_Swap, edgeSorter_Less_at. rewrite Hb, Hpi. simpl.
    split; [split; [intros _ [? _]; done | done] |].
    split; [split; [intros _ [? _]; done | done] | done].
  - unfold edgeSorter_Swap, edgeSorter_Less_at. rewrite Hpj, Hpi. simpl.
    split; [split; [intros _ [? _]; done | done] |].
    split; [split; [intros _ [? _]; done | done] | done].
Qed.

End EdgeSorter_facts.

Lemma edgeSorter_Swap_exchanges_witness :
  edgeSorter_Swap [{| Edge := (0, 1); Weight := 5 |};
                   {| Edge := (1, 2); Weight := 3 |}] 0 1
  = Ok [{| Edge := (1, 2); Weight := 3 |};
        {| Edge := (0, 1); Weight := 5 |}].
Proof.
  destruct (edgeSorter_Swap_exchanges
              [{| Edge := (0, 1); Weight := 5 |};
               {| Edge := (1, 2); Weight := 3 |}] 0 1)
    as (el' & Hrun & _); [unfold edgeSorter_Len; simpl; lia.. |].
  rewrite Hrun. f_equal. vm_compute in Hrun. by injection Hrun as <-.
Defined.

(** ** [IsPath] on joined paths *)

Section IsPath_joining.
Context {float64 : Type} (graph : Graph float64).

Lemma IsPath_loop_shift path k k' :
  IsPath_loop graph path k = None → IsPath_loop graph path k' = None.
Proof. rewrite !IsPath_loop_None. done. Qed.

Lemma IsPath_loop_app p x q k k' :
  IsPath_loop graph (p ++ x :: q) k = None ↔
  IsPath_loop graph (p ++ [x]) k = None ∧ IsPath_loop graph (x :: q) k' = None.
Proof.
  revert k. induction p as [|a p IH]; intros k.
  - simpl app. split.
    + intros H. split; [done | by eapply IsPath_loop_shift].
    + intros [_ H]. by eapply IsPath_loop_shift.
  - destruct p as [|b p].
    + simpl app.
      change (IsPath_loop graph (a :: x :: q) k)
        with (if IsSuccessor graph a x
              then IsPath_loop graph (x :: q) (S k) else Some k).
      change (IsPath_loop graph [a; x] k)
        with (if IsSuccessor graph a x then @None nat else Some k).
      destruct (IsSuccessor graph a x).
      * split; [intros H; split; [done | by eapply IsPath_loop_shift]
               | intros [_ H]; by eapply IsPath_loop_shift].
      * split; [done | by intros [? _]].
    + change (IsPath_loop graph ((a :: b :: p) ++ x :: q) k)
        with (if IsSuccessor graph a b
              then IsPath_loop graph ((b :: p) ++ x :: q) (S k) else Some k).
      change (IsPath_loop graph ((a :: b :: p) ++ [x]) k)
        with (if IsSuccessor graph a b
              then IsPath_loop graph ((b :: p) ++ [x]) (S k) else Some k).
      destruct (IsSuccessor graph a b); [apply IH |].
      split; [done | by intros [? _]].
Qed.

Lemma IsPath_long a b rest :
  IsPath (a :: b :: rest) graph = true ↔
  IsPath_loop graph (a :: b :: rest) 0 = None.
Proof.
  change (IsPath (a :: b :: rest) graph)
    with (match IsPath_loop graph (a :: b :: rest) 0 with
          | Some _ => false
          | None => true
          end).
  by destruct (IsPath_loop graph (a :: b :: rest) 0).
Qed.

(** X12.  Two paths of at least two nodes each, the first ending in the
    node [x] in which the second starts, are both valid exactly when the
    path that joins them at [x] is valid. *)
Theorem IsPath_joined (p q : list Z) (x : Z) :
  p ≠ [] → q ≠ [] →
  (IsPath (p ++ x :: q) graph = true ↔
   IsPath (p ++ [x]) graph = true ∧ IsPath (x :: q) graph = true).
Proof.
  intros Hp Hq. destruct q as [|y q]; [done |].
  destruct p as [|a p]; [done |].
  rewrite (IsPath_long x y q).
  destruct p as [|b p].
  - change ([a] ++ x :: y :: q) with (a :: x :: y :: q).
    change ([a] ++ [x]) with (a :: x :: []).
    rewrite !IsPath_long. apply (IsPath_loop_app [a] x (y :: q) 0 0).
  - change ((a :: b :: p) ++ x :: y :: q)
      with (a :: b :: (p ++ x :: y :: q)).
    change ((a :: b :: p) ++ [x]) with (a :: b :: (p ++ [x])).
    rewrite !IsPath_long. apply (IsPath_loop_app (a :: b :: p) x (y :: q) 0 0).
Qed.

End IsPath_joining.

Lemma IsPath_joined_witness :
  IsPath ([0; 1] ++ 2 :: [0]) triangle = true ↔
  IsPath ([0; 1] ++ [2]) triangle = true ∧ IsPath (2 :: [0]) triangle = true.
Proof. by apply (IsPath_joined triangle [0; 1] [0] 2). Defined.

(** ** The weights of the edges that [Kruskal] keeps *)

Section Kruskal_weight_facts.
Context {float64 : Type}.
Variable float64_lt : float64 → float64 → bool.
Variable graph : Graph float64.
Hypothesis Hedges : edges_listed graph.
Hypothesis Hirr : ∀ w, float64_lt w w = false.

Lemma add_to_dst_costs_eq (we : WeightedEdge float64) (dst : Dst.t float64) :
  Dst.directed dst = false →
  Dst.costs (add_to_dst we dst)
  = <[((Edge we).2, (Edge we).1) := Weight we]>
      (<[((Edge we).1, (Edge we).2) := Weight we]> (Dst.costs dst)).
Proof using Type.
  clear Hedges Hirr. intros Hd. unfold add_to_dst.
  destruct (negb (Dst.NodeExists dst (Edge we).1)); simpl; by rewrite Hd.
Qed.

Lemma joined_light_path (dst : Dst.t float64) (w : float64) a b :
  (∀ x y, (x, y) ∈ Dst.edges dst →
          ∃ wf, Dst.costs dst !! (x, y) = Some wf ∧ float64_lt w wf = false) →
  joined (Dst.edges dst) a b → light_path float64_lt dst w a b.
Proof using Type.
  clear Hedges Hirr. intros Hall.
  induction 1 as [a | a x b Hax _ IH]; [constructor |].
  destruct (Hall a x Hax) as (wf & Hwf & Hlt).
  by eapply light_path_step.
Qed.

Lemma light_path_mono (dst dst' : Dst.t float64) (w : float64) a b :
  (∀ x y, (x, y) ∈ Dst.edges dst →
          (x, y) ∈ Dst.edges dst'
          ∧ Dst.costs dst' !! (x, y) = Dst.costs dst !! (x, y)) →
  light_path float64_lt dst w a b → light_path float64_lt dst' w a b.
Proof using Type.
  clear Hedges Hirr. intros Hsub.
  induction 1 as [a | a x b wf Hax Hwf Hlt _ IH]; [constructor |].
  destruct (Hsub a x Hax) as [Hax' Hcost].
  eapply light_path_step; [done | by rewrite Hcost | done | done].
Qed.

Lemma Kruskal_step_weights passed acc (we : WeightedEdge float64) :
  Edge we ∈ EdgeList graph →
  (∀ f, f ∈ passed → float64_lt (Weight we) (Weight f) = false) →
  Kruskal_inv graph acc → Kruskal_weights float64_lt passed acc.2 →
  Kruskal_weights float64_lt (passed ++ [we]) (Kruskal_step acc we).2.
Proof using Hedges Hirr.
  intros Hin Hsorted Hinv Hw.
  destruct (Hedges _ Hin) as [H1 H2].
  destruct we as [[e1 e2] w]. simpl in *.
  unfold Kruskal_step. simpl.
  destruct (decide (DisjointSet.Find acc.1 e1 ≠ DisjointSet.Find acc.1 e2))
    as [Hne | Heq]; simpl.
  - assert (¬ joined (Dst.edges acc.2) e1 e2) as Hnj.
    { intros Hj. by apply Hne, (ki_rep _ _ Hinv). }
    assert ((e1, e2) ∉ Dst.edges acc.2) as Hn12.
    { intros Hx. apply Hnj. by apply rtc_once. }
    assert ((e2, e1) ∉ Dst.edges acc.2) as Hn21.
    { intros Hx. apply Hn12.
      by apply (forest_symmetric _ e2 e1 (ki_forest _ _ Hinv)). }
    destruct (add_to_dst_edges {| Edge := (e1, e2); Weight := w |} acc.2
                (ki_undirected _ _ Hinv)) as (HE & _ & _).
    pose proof (add_to_dst_costs_eq {| Edge := (e1, e2); Weight := w |} acc.2
                  (ki_undirected _ _ Hinv)) as HC.
    cbn [Edge Weight fst snd] in HE, HC.
    assert (∀ x y, (x, y) ∈ Dst.edges acc.2 →
              Dst.costs (add_to_dst {| Edge := (e1, e2); Weight := w |} acc.2)
                !! (x, y) = Dst.costs acc.2 !! (x, y)) as Hsame.
    { intros x y Hxy. rewrite HC.
      rewrite !lookup_insert_ne; [done | |]; intros [= <- <-]; done. }
    assert (Dst.costs (add_to_dst {| Edge := (e1, e2); Weight := w |} acc.2)
              !! (e1, e2) = Some w) as Hc12.
    { rewrite HC. destruct (decide ((e2, e1) = (e1, e2))) as [-> | Hd].
      - by rewrite lookup_insert_eq.
      - rewrite lookup_insert_ne by done. by rewrite lookup_insert_eq. }
    assert (Dst.costs (add_to_dst {| Edge := (e1, e2); Weight := w |} acc.2)
              !! (e2, e1) = Some w) as Hc21.
    { rewrite HC. by rewrite lookup_insert_eq. }
    split.
    + intros a b. rewrite HE, !elem_of_union, !elem_of_singleton.
      intros [[[= -> ->] | [= -> ->]] | Hab].
      * exists {| Edge := (e1, e2); Weight := w |}.
        split; [apply elem_of_app; right; by left | done].
      * exists {| Edge := (e1, e2); Weight := w |}.
        split; [apply elem_of_app; right; by left | done].
      * destruct (kw_costs _ _ _ Hw a b Hab) as (f & Hf & Hcf).
        exists f. split; [apply elem_of_app; by left |].
        by rewrite Hsame.
    + intros a b. rewrite HE, HC, !elem_of_union, !elem_of_singleton.
      intros Hsome.
      destruct (decide ((e2, e1) = (a, b))) as [<- | Hd1]; [left; by right |].
      rewrite lookup_insert_ne in Hsome by done.
      destruct (decide ((e1, e2) = (a, b))) as [<- | Hd2]; [left; by left |].
      rewrite lookup_insert_ne in Hsome by done.
      right. by apply (kw_keys _ _ _ Hw).
    + intros e [He | ->%list_elem_of_singleton]%elem_of_app.
      * eapply light_path_mono; [| by apply (kw_light _ _ _ Hw)].
        intros x y Hxy. split; [rewrite HE; set_solver | by apply Hsame].
      * simpl. eapply light_path_step; [| exact Hc12 | apply Hirr | constructor].
        rewrite HE. set_solver.
  - assert (DisjointSet.Find acc.1 e1 = DisjointSet.Find acc.1 e2) as Heq'.
    { destruct (decide (DisjointSet.Find acc.1 e1
                        = DisjointSet.Find acc.1 e2)); [done |].
      by destruct Heq. }
    split.
    + intros a b Hab. destruct (kw_costs _ _ _ Hw a b Hab) as (f & Hf & Hcf).
      exists f. split; [apply elem_of_app; by left | done].
    + apply (kw_keys _ _ _ Hw).
    + intros e [He | ->%list_elem_of_singleton]%elem_of_app;
        [by apply (kw_light _ _ _ Hw) |].
      simpl. apply joined_light_path; [| by apply (ki_rep _ _ Hinv)].
      intros x y Hxy. destruct (kw_costs _ _ _ Hw x y Hxy) as (f & Hf & Hcf).
      exists (Weight f). split; [done | by apply Hsorted].
Qed.

Lemma Kruskal_fold_weights rest :
  ∀ passed acc,
    StronglySorted (λ a b, edgeSorter_Less float64_lt b a = false)
                   (passed ++ rest) →
    (∀ we, we ∈ rest → Edge we ∈ EdgeList graph) →
    Kruskal_inv graph acc → Kruskal_weights float64_lt passed acc.2 →
    Kruskal_weights float64_lt (passed ++ rest)
                    (foldl Kruskal_step acc rest).2.
Proof using Hedges Hirr.
  induction rest as [|we rest IH]; intros passed acc Hsorted Hl Hinv Hw.
  { by rewrite app_nil_r. }
  simpl. change (we :: rest) with ([we] ++ rest) in *.
  rewrite app_assoc in Hsorted |- *.
  destruct (Kruskal_step_inv graph Hedges acc we) as (Hinv1 & _);
    [apply Hl; by left | done |].
  apply IH; [done | | done |].
  - intros x Hx. apply Hl. by right.
  - apply Kruskal_step_weights; [apply Hl; by left | | done | done].
    intros f Hf. apply StronglySorted_app_1_l in Hsorted.
    apply (StronglySorted_app_1_elem_of _ passed [we] f we Hsorted Hf).
    by left.
Qed.

End Kruskal_weight_facts.

Section Kruskal_weight_theorems.
Context {float64 : Type}.
Variable float64_lt : float64 → float64 → bool.
Variable float64_one : float64.
Variable sort_Sort :
  (WeightedEdge float64 → WeightedEdge float64 → bool) →
  list (WeightedEdge float64) → list (WeightedEdge float64).

(** X13.  With a sort that orders by weight and an irreflexive [<],
    [Kruskal] keeps the light edges: for every edge of the source, [dst]
    joins its end points by a path on which no edge has a recorded cost
    that the cost of the edge is less than.  No edge left out is lighter
    than an edge of the path kept in its place. *)
Theorem Kruskal_keeps_light_paths (dst : Dst.t float64)
    (graph : Graph float64) (Cost : option (Z → Z → float64)) :
  sort_contract (edgeSorter_Less float64_lt)
                (sort_Sort (edgeSorter_Less float64_lt)) →
  edges_listed graph → (∀ w, float64_lt w w = false) →
  ∀ a b, (a, b) ∈ EdgeList graph →
         light_path float64_lt
           (Kruskal float64_lt float64_one sort_Sort dst graph Cost)
           (resolved_cost float64_one graph Cost a b) a b.
Proof.
  intros Hsort Hedges Hirr a b Hab.
  assert (Kruskal float64_lt float64_one sort_Sort dst graph Cost
          = (foldl Kruskal_step
               (foldl (λ ds node, DisjointSet.MakeSet node ds)
                      DisjointSet.NewDisjointSet (NodeList graph),
                Dst.SetDirected false (Dst.EmptyGraph dst))
               (Kruskal_sorted float64_lt sort_Sort
                  (resolved_cost float64_one graph Cost) graph)).2) as ->.
  { unfold Kruskal, resolved_cost. destruct Cost as [c|]; [done |].
    by destruct (Coster_Cost graph). }
  set (cost := resolved_cost float64_one graph Cost).
  destruct (Hsort ((λ edge, {| Edge := edge; Weight := cost edge.1 edge.2 |})
                     <$> EdgeList graph)) as [Hperm Hsorted].
  fold (Kruskal_sorted float64_lt sort_Sort cost graph) in Hperm, Hsorted.
  pose proof (Kruskal_fold_weights float64_lt graph Hedges Hirr
                (Kruskal_sorted float64_lt sort_Sort cost graph) []
                (foldl (λ ds node, DisjointSet.MakeSet node ds)
                       DisjointSet.NewDisjointSet (NodeList graph),
                 Dst.SetDirected false (Dst.EmptyGraph dst))) as Hfold.
  simpl app in Hfold.
  destruct Hfold as [_ _ Hlight]; [done | | apply Kruskal_inv_init | |].
  - intros we Hwe. rewrite Hperm in Hwe.
    by apply list_elem_of_fmap in Hwe as (e & -> & He).
  - split; simpl.
    + intros x y Hxy. by apply elem_of_empty in Hxy.
    + intros x y [wf Hxy]. by rewrite lookup_empty in Hxy.
    + by intros e He%elem_of_nil.
  - apply (Hlight {| Edge := (a, b); Weight := cost a b |}).
    rewrite Hperm. apply list_elem_of_fmap. by exists (a, b).
Qed.

End Kruskal_weight_theorems.

Lemma Kruskal_keeps_light_paths_witness :
  light_path Z.ltb (Kruskal Z.ltb 1 stable_sort dst_empty square
                      (Some square_cost))
    (square_cost 3 0) 3 0.
Proof.
  apply (Kruskal_keeps_light_paths Z.ltb 1 stable_sort dst_empty square
           (Some square_cost) stable_sort_contract square_edges_listed).
  - intros w. apply Z.ltb_irrefl.
  - simpl. set_solver.
Defined.

(** ** The nodes that [Kruskal] puts into the destination *)

Section Kruskal_node_facts.
Context {float64 : Type}.
Variable graph : Graph float64.
Hypothesis Hedges : edges_listed graph.

Lemma forest_irrefl (E : gset (Z * Z)) a : forest E → (a, a) ∉ E.
Proof using Type.
  clear Hedges.
  induction 1 as [|E x y _ IH Hnj]; [by intros ?%elem_of_empty |].
  rewrite !elem_of_union, !elem_of_singleton.
  intros [[[= -> ->] | [= -> ->]] | Haa]; [by apply Hnj | by apply Hnj | done].
Qed.

Lemma Kruskal_step_nodes acc (we : WeightedEdge float64) :
  Kruskal_inv graph acc →
  (∀ n, n ∈ Dst.nodes acc.2 ↔ ∃ m, (n, m) ∈ Dst.edges acc.2) →
  ∀ n, n ∈ Dst.nodes (Kruskal_step acc we).2
       ↔ ∃ m, (n, m) ∈ Dst.edges (Kruskal_step acc we).2.
Proof using Type.
  clear Hedges. intros Hinv Hn. unfold Kruskal_step.
  case_decide; [| done]. cbn [snd].
  destruct (add_to_dst_edges we acc.2 (ki_undirected _ _ Hinv))
    as (HE & _ & HN).
  intros n. rewrite HN, elem_of_union, Hn. split.
  - intros [[Hk | Hk]%elem_of_union | [m Hm]].
    + apply elem_of_singleton in Hk as ->.
      exists (Edge we).2. rewrite HE. set_solver.
    + apply elem_of_singleton in Hk as ->.
      exists (Edge we).1. rewrite HE. set_solver.
    + exists m. rewrite HE. set_solver.
  - intros [m Hm]. rewrite HE in Hm.
    apply elem_of_union in Hm as [Hm | Hm]; [| right; by exists m].
    left. set_solver.
Qed.

Lemma Kruskal_fold_nodes (l : list (WeightedEdge float64)) acc :
  (∀ we, we ∈ l → Edge we ∈ EdgeList graph) → Kruskal_inv graph acc →
  (∀ n, n ∈ Dst.nodes acc.2 ↔ ∃ m, (n, m) ∈ Dst.edges acc.2) →
  ∀ n, n ∈ Dst.nodes (foldl Kruskal_step acc l).2
       ↔ ∃ m, (n, m) ∈ Dst.edges (foldl Kruskal_step acc l).2.
Proof using Hedges.
  revert acc. induction l as [|we l IH]; intros acc Hl Hinv Hn; [done |].
  simpl. apply IH.
  - intros x Hx. apply Hl. by right.
  - apply (Kruskal_step_inv graph Hedges acc we); [apply Hl; by left | done].
  - by apply Kruskal_step_nodes.
Qed.

End Kruskal_node_facts.

Section Kruskal_node_theorems.
Context {float64 : Type}.
Variable float64_lt : float64 → float64 → bool.
Variable float64_one : float64.
Variable sort_Sort :
  (WeightedEdge float64 → WeightedEdge float64 → bool) →
  list (WeightedEdge float64) → list (WeightedEdge float64).

(** X14.  The nodes that [Kruskal] puts into [dst] are the nodes that the
    edge list joins to another node: a node without an edge, or with an
    edge to itself only, is left out. *)
Theorem Kruskal_nodes (dst : Dst.t float64) (graph : Graph float64)
    (Cost : option (Z → Z → float64)) :
  sort_contract (edgeSorter_Less float64_lt)
                (sort_Sort (edgeSorter_Less float64_lt)) →
  edges_listed graph →
  ∀ n, n ∈ Dst.nodes (Kruskal float64_lt float64_one sort_Sort dst graph Cost)
       ↔ ∃ m, m ≠ n ∧ ((n, m) ∈ EdgeList graph ∨ (m, n) ∈ EdgeList graph).
Proof.
  intros Hsort Hedges n.
  destruct (Kruskal_result float64_lt float64_one sort_Sort dst graph Cost
              Hsort Hedges) as (ds & Hinv & Hall).
  assert (∀ n, n ∈ Dst.nodes (Kruskal float64_lt float64_one sort_Sort dst
                                graph Cost)
               ↔ ∃ m, (n, m) ∈ Dst.edges (Kruskal float64_lt float64_one
                                            sort_Sort dst graph Cost))
    as Hnodes.
  { unfold Kruskal.
    set (cost := match Cost with
                 | Some c => c
                 | None => match Coster_Cost graph with
                           | Some c => c
                           | None => UniformCost float64_one
                           end
                 end).
    apply (Kruskal_fold_nodes graph Hedges).
    - intros we Hwe. unfold Kruskal_sorted in Hwe.
      destruct (Hsort ((λ edge, {| Edge := edge;
                                   Weight := cost edge.1 edge.2 |})
                         <$> EdgeList graph)) as [Hperm _].
      rewrite Hperm in Hwe.
      by apply list_elem_of_fmap in Hwe as (e & -> & He).
    - apply Kruskal_inv_init.
    - intros k. simpl. split; [by intros ?%elem_of_empty |].
      by intros [m ?%elem_of_empty]. }
  rewrite Hnodes. simpl in Hinv. split.
  - intros [m Hm]. exists m. split.
    + intros ->. by apply (forest_irrefl _ n (ki_forest _ _ Hinv)).
    + by apply (ki_edges _ _ Hinv) in Hm as (_ & _ & ?).
  - intros (m & Hne & Hnm).
    assert (n ∈ NodeList graph ∧ m ∈ NodeList graph
            ∧ DisjointSet.Find ds n = DisjointSet.Find ds m)
      as (Hn & Hm & Hrep).
    { destruct Hnm as [Hnm | Hnm].
      - destruct (Hedges _ Hnm) as [? ?]. split; [done |]. split; [done |].
        apply (Hall _ Hnm).
      - destruct (Hedges _ Hnm) as [? ?]. split; [done |]. split; [done |].
        symmetry. apply (Hall _ Hnm). }
    apply (ki_rep _ _ Hinv n m Hn Hm) in Hrep. simpl in Hrep.
    destruct Hrep as [| n x m Hnx _]; [done | by exists x].
Qed.

End Kruskal_node_theorems.

Lemma Kruskal_nodes_witness :
  3 ∈ Dst.nodes (Kruskal Z.ltb 1 stable_sort dst_empty square
                   (Some square_cost)).
Proof.
  apply (Kruskal_nodes Z.ltb 1 stable_sort dst_empty square
           (Some square_cost) stable_sort_contract square_edges_listed 3).
  exists 0. split; [done |]. left. simpl. set_solver.
Defined.

(** ** [Prim] when every node is reached from the first *)

Section Prim_reached.
Context {float64 : Type}.
Variable float64_lt : float64 → float64 → bool.
Variable float64_one : float64.
Variable sort_Sort :
  (WeightedEdge float64 → WeightedEdge float64 → bool) →
  list (WeightedEdge float64) → list (WeightedEdge float64).

(** Every state in which the loop of [Prim] stands has the tree shape. *)
Lemma Prim_reachable_tree_inv cost (graph : Graph float64) n0 rest d rem :
  sort_contract (edgeSorter_Less float64_lt)
                (sort_Sort (edgeSorter_Less float64_lt)) →
  graph_wf graph → NodeList graph = n0 :: rest →
  Prim_reachable float64_lt sort_Sort cost graph d rem →
  Prim_tree_inv graph n0 d rem.
Proof.
  intros Hsort Hwf Hn.
  induction 1 as [n0' rest' Hn' | d rem myEdge others _ IH Hsize Hsorted].
  - rewrite Hn in Hn'. injection Hn' as <- <-.
    by apply Prim_tree_inv_init.
  - by apply (Prim_tree_inv_round float64_lt sort_Sort cost graph n0 Hsort
                d rem myEdge others).
Qed.

(** On an undirected graph, whose edge list holds every edge in both
    directions, being connected is being reached from the first node. *)
Lemma undirected_reached (graph : Graph float64) n0 rest :
  undirected graph → weakly_connected graph →
  NodeList graph = n0 :: rest →
  ∀ b, b ∈ NodeList graph → reach graph n0 b.
Proof.
  intros Hsym Hweak Hn b Hb.
  apply (undirected_connected graph Hsym Hweak); [| done].
  rewrite Hn. by left.
Qed.

(** C2, with the precondition that the code needs.  Let the source be a
    graph in the sense of the interface (nodes listed once, edges between
    listed nodes) in which every listed node is reached from the first
    listed node along the edges of the edge list, each taken in its own
    direction; for an undirected graph this is being connected
    ([undirected_reached]).  Let [sort.Sort] return the elements it was
    given.  Then in every round of the main loop of [Prim] that still has
    outstanding nodes the scan finds at least one candidate edge, and the
    sorted candidate list has a first element, itself a candidate (an
    edge whose origin is in the destination and whose target is
    outstanding); so [Prim] never indexes out of range: with fuel for
    one round per node it returns, and the destination then holds every
    node of the source. *)
Theorem Prim_reached_in_range (dst : Dst.t float64) (graph : Graph float64)
    (Cost : option (Z → Z → float64)) (n0 : Z) (rest : list Z) :
  sort_contract (edgeSorter_Less float64_lt)
                (sort_Sort (edgeSorter_Less float64_lt)) →
  graph_wf graph → NodeList graph = n0 :: rest →
  (∀ b, b ∈ NodeList graph → reach graph n0 b) →
  (∀ cost d remainingNodes,
     Prim_reachable float64_lt sort_Sort cost graph d remainingNodes →
     size remainingNodes ≠ 0%nat →
     Prim_scan cost d remainingNodes (EdgeList graph) ≠ []
     ∧ ∃ myEdge others,
         sort_Sort (edgeSorter_Less float64_lt)
           (Prim_scan cost d remainingNodes (EdgeList graph))
         = myEdge :: others
         ∧ Edge myEdge ∈ EdgeList graph
         ∧ Dst.NodeExists d (Edge myEdge).1 = true
         ∧ (Edge myEdge).2 ∈ remainingNodes)
  ∧ ∃ dst',
      (∀ fuel, (length (NodeList graph) ≤ fuel)%nat →
         Prim float64_lt float64_one sort_Sort fuel dst graph Cost = Ok dst')
      ∧ Dst.nodes dst' = list_to_set (NodeList graph).
Proof.
  intros Hsort Hwf Hn Hreach. split.
  - intros cost d rem Hat Hsize.
    pose proof (Prim_reachable_tree_inv cost graph n0 rest d rem Hsort Hwf Hn
                  Hat) as Hinv.
    pose proof (Prim_scan_nonempty_from cost graph n0 Hwf d rem Hreach Hinv
                  Hsize) as Hscan.
    split; [done |].
    destruct (Hsort (Prim_scan cost d rem (EdgeList graph))) as [Hperm _].
    destruct (sort_Sort _ (Prim_scan cost d rem (EdgeList graph)))
      as [|myEdge others] eqn:Hsorted.
    { symmetry in Hperm. by apply Permutation_nil_r in Hperm. }
    exists myEdge, others. split; [done |].
    assert (myEdge ∈ Prim_scan cost d rem (EdgeList graph)) as Hin.
    { rewrite <- Hperm. by left. }
    apply elem_of_Prim_scan in Hin as (He & H1 & H2 & _).
    split; [done |]. split; [| done].
    unfold Dst.NodeExists. by apply bool_decide_eq_true.
  - set (cost := match Cost with
                 | Some c => c
                 | None => match Coster_Cost graph with
                           | Some c => c
                           | None => UniformCost float64_one
                           end
                 end).
    assert (∀ fuel,
      Prim float64_lt float64_one sort_Sort fuel dst graph Cost
      = Prim_loop float64_lt sort_Sort fuel cost (EdgeList graph)
          (Prim_dst0 n0) (foldl (λ s node, {[node]} ∪ s) ∅ rest)) as HPrim.
    { intros fuel. unfold Prim. by rewrite Hn. }
    pose proof (Prim_tree_inv_init graph n0 rest Hn Hwf) as Hinit.
    pose proof (Prim_remaining_size graph n0 rest Hwf Hn) as Hsize.
    destruct (Prim_loop_reachable_ok float64_lt sort_Sort cost graph n0
                Hwf Hsort (length rest) (Prim_dst0 n0)
                (foldl (λ s node, {[node]} ∪ s) ∅ rest) Hreach Hsize Hinit)
      as [dst' Hrun].
    exists dst'. split.
    + intros fuel Hfuel. rewrite HPrim. apply Hrun.
      rewrite Hn in Hfuel. simpl in Hfuel. lia.
    + pose proof (Prim_loop_tree float64_lt sort_Sort cost graph n0 Hsort
                    (length rest) _ dst' _ Hinit (Hrun _ (le_n _))) as Hfin.
      rewrite <- (pt_cover _ _ _ _ Hfin). set_solver.
Qed.

End Prim_reached.

Lemma two_chain_wf : graph_wf two_chain.
Proof.
  apply graph_of_wf.
  - repeat (apply NoDup_cons; split; [set_solver |]). apply NoDup_nil_2.
  - repeat constructor; set_solver.
Qed.

(** [Prim] on the directed graph with the single edge 0→1, whose first
    listed node 0 reaches both nodes, returns with both nodes in the
    destination. *)
Lemma Prim_reached_in_range_witness :
  ∃ dst', Prim Z.ltb 1 stable_sort 2 dst_empty two_chain None = Ok dst'
          ∧ Dst.nodes dst' = {[0; 1]}.
Proof.
  destruct (Prim_reached_in_range Z.ltb 1 stable_sort dst_empty two_chain
              None 0 [1] stable_sort_contract two_chain_wf eq_refl)
    as (_ & dst' & Hrun & Hnodes).
  - intros b Hb. simpl in Hb.
    apply elem_of_cons in Hb as [-> | Hb]; [done |].
    apply list_elem_of_singleton in Hb as ->.
    apply rtc_once. simpl. set_solver.
  - exists dst'. split; [apply Hrun; simpl; lia |].
    rewrite Hnodes. simpl. set_solver.
Defined.

Lemma one_way_wf : graph_wf one_way.
Proof.
  apply graph_of_wf.
  - repeat (apply NoDup_cons; split; [set_solver |]). apply NoDup_nil_2.
  - repeat constructor; set_solver.
Qed.

(** Against C2 as it is stated: [one_way] is a graph in the sense of the
    interface, it is connected (its two nodes are joined by an edge) and
    its node list is not empty; but the edge leads to the first listed
    node, not away from it, so the first round of [Prim] finds no
    candidate and [edgeWeights[0]] indexes out of range. *)
Lemma Prim_connected_counterexample :
  graph_wf one_way ∧ weakly_connected one_way ∧ NodeList one_way ≠ []
  ∧ (∃ d remainingNodes,
       Prim_reachable Z.ltb stable_sort (UniformCost 1) one_way d
                      remainingNodes
       ∧ size remainingNodes ≠ 0%nat
       ∧ Prim_scan (UniformCost 1) d remainingNodes (EdgeList one_way) = [])
  ∧ ∀ fuel, (1 ≤ fuel)%nat →
            Prim Z.ltb 1 stable_sort fuel dst_empty one_way None = Panic.
Proof.
  split; [apply one_way_wf |]. split; [| split; [done |]; split].
  - assert (rtc (λ x y, (x, y) ∈ EdgeList one_way ∨ (y, x) ∈ EdgeList one_way)
                0 1) as H01 by (apply rtc_once; left; simpl; set_solver).
    assert (rtc (λ x y, (x, y) ∈ EdgeList one_way ∨ (y, x) ∈ EdgeList one_way)
                1 0) as H10 by (apply rtc_once; right; simpl; set_solver).
    intros a b Ha Hb. simpl in Ha, Hb.
    repeat (apply elem_of_cons in Ha as [-> | Ha]);
      try (by apply elem_of_nil in Ha);
      repeat (apply elem_of_cons in Hb as [-> | Hb]);
      try (by apply elem_of_nil in Hb);
      first [ reflexivity | assumption ].
  - exists (Prim_dst0 1), (foldl (λ s node, {[node]} ∪ s) ∅ [0]).
    split; [by apply (Prim_reachable_init _ _ _ _ 1 [0]) |].
    split; by vm_compute.
  - intros [|fuel] Hfuel; [lia |]. by vm_compute.
Qed.
